(** * optimize_IMU_only: factor-graph assembly for inertial odometry

    A shallow embedding of [optimize_IMU_only.py].  The script reads an IMU
    stream, decimates the keyframe index list, walks the stream once to add
    one preintegrated motion factor per keyframe pair, adds prior factors,
    walks the stream a second time to produce initial values, hands graph
    and values to a Gauss-Newton optimizer and plots the result.

    Conventions of the embedding:
    - Python floats are read as real numbers ([R]); rounding is not modelled.
    - Python exceptions are the constructors of [exn]; a statement that may
      raise lives in the [Outcome] monad, a statement that also touches the
      cache file or the random generator lives in [M].
    - GTSAM objects are records and inductive types with the constructor
      names of the Python bindings; a factor graph is the list of factors in
      [push_back] order, [gtsam.Values] is a finite map from packed keys.
    - The preintegration engine is an interface ([Preintegrator]); the script
      is written once against it. *)

From Stdlib Require Import Reals Lra ZArith Lia List Ascii String.
From stdpp Require Import gmap list.

Local Open Scope Z_scope.

(** ** Python runtime: exceptions and the two effect layers *)

Inductive exn : Type :=
| StopIteration        (* next() on an exhausted iterator *)
| IndexError           (* list index out of range *)
| ValueError           (* gtsam.symbol: index does not fit the key *)
| RuntimeError         (* gtsam.Values.insert: key already exists *)
| NameError            (* read of an unbound variable *)
| FileNotFoundError    (* open(..., 'rb') on a missing file *)
| EOFError             (* pickle.load on an empty file *)
| UnsupportedOperation (* read on a write handle or write on a read handle *)
| AlignmentError.      (* the windowing contract's error kind; no statement
                          of the script raises it *)

Inductive Outcome (A : Type) : Type :=
| Returns (a : A)
| Raises (e : exn).
Arguments Returns {A} a.
Arguments Raises {A} e.

#[export] Instance Outcome_ret : MRet Outcome := fun A a => Returns a.
#[export] Instance Outcome_bind : MBind Outcome := fun A B f c =>
  match c with
  | Returns a => f a
  | Raises e => Raises e
  end.

(** The cache file [matching.pkl] of the dataset directory. *)
Definition Point2 : Type := (R * R)%type.
Definition Matching : Type := list (list (nat * Point2)).

Inductive File : Type :=
| Absent
| Empty
| Pickled (m : Matching).

Inductive mode : Type := rb | wb.

Inductive IoEvent : Type :=
| Opened (m : mode)
| Loaded
| Dumped.

(** What a run of the script can observe besides its arguments: the cache
    file, the file operations performed so far, and numpy's global random
    generator (the sequence it will deliver and how much of it was used). *)
Record World : Type := mkWorld {
  matching_pkl : File;
  io_log : list IoEvent;
  entropy : nat -> R;
  drawn : nat
}.

Definition M (A : Type) : Type := World -> Outcome A * World.

#[export] Instance M_ret : MRet M := fun A a w => (Returns a, w).
#[export] Instance M_bind : MBind M := fun A B f c w =>
  match c w with
  | (Returns a, w') => f a w'
  | (Raises e, w') => (Raises e, w')
  end.

Definition liftO {A} (c : Outcome A) : M A := fun w => (c, w).
Definition raise {A} (e : exn) : M A := fun w => (Raises e, w).

(** ** Python lists: indexing, slicing, iteration *)

Section PyList.
Context {A : Type}.

(** [l[i]] for [i >= 0]. *)
Definition index (l : list A) (i : nat) : Outcome A :=
  match l !! i with
  | Some x => Returns x
  | None => Raises IndexError
  end.

(** [l[-1]] *)
Definition index_last (l : list A) : Outcome A :=
  match last l with
  | Some x => Returns x
  | None => Raises IndexError
  end.

(** [l[::k]]: keep an element, skip the next [k-1], and so on.  [skip] is
    the number of elements still to drop before the next one is kept. *)
Fixpoint every (k skip : nat) (l : list A) : list A :=
  match l with
  | [] => []
  | x :: l' =>
      match skip with
      | O => x :: every k (k - 1) l'
      | S s => every k s l'
      end
  end.

Definition slice_step (k : nat) (l : list A) : list A := every k 0 l.

(** [next(it)]: the head and the advanced iterator. *)
Definition next (it : list A) : Outcome (A * list A) :=
  match it with
  | [] => Raises StopIteration
  | x :: it' => Returns (x, it')
  end.

(** [for i, x in enumerate(l): st = body(st, i, x)], starting the count at
    [i]; an exception in the body ends the loop. *)
Fixpoint for_enumerate {St : Type} (body : St -> nat -> A -> Outcome St)
    (i : nat) (l : list A) (st : St) : Outcome St :=
  match l with
  | [] => Returns st
  | x :: l' => st' ← body st i x; for_enumerate body (S i) l' st'
  end.

Fixpoint for_enumerateM {St : Type} (body : St -> nat -> A -> M St)
    (i : nat) (l : list A) (st : St) : M St :=
  match l with
  | [] => mret st
  | x :: l' => st' ← body st i x; for_enumerateM body (S i) l' st'
  end.
End PyList.

(** [range(0, stop, step)] *)
Definition range_step (stop step : nat) : list nat := slice_step step (seq 0 stop).

(** ** GTSAM value types *)

Record Vec3 : Type := mkVec3 { vx : R; vy : R; vz : R }.
Definition Point3 : Type := Vec3.
Record Rot3 : Type := mkRot3 { row1 : Vec3; row2 : Vec3; row3 : Vec3 }.
Record Pose3 : Type := mkPose3 { rotation : Rot3; translation : Point3 }.
Record NavState : Type := mkNavState { pose : Pose3; velocity : Vec3 }.
Record ConstantBias : Type := mkBias { accelerometer : Vec3; gyroscope : Vec3 }.
Record Cal3DS2 : Type := mkCal {
  cal_fx : R; cal_fy : R; cal_s : R; cal_u0 : R; cal_v0 : R;
  cal_k1 : R; cal_k2 : R; cal_p1 : R; cal_p2 : R
}.

(** [gtsam.noiseModel_Isotropic.Sigma(dim, sigma)] *)
Inductive NoiseModel : Type :=
| Isotropic_Sigma (dim : nat) (sigma : R).

(** [gtsam.PreintegrationParams]: gravity along the navigation frame's axes
    and the three continuous-time noise covariances. *)
Record PreintegrationParams : Type := mkPreintegrationParams {
  n_gravity : Vec3;
  gyroscopeCovariance : Rot3;
  accelerometerCovariance : Rot3;
  integrationCovariance : Rot3
}.

(** ** Symbolic keys

    [symbol(letter, index)] is [int(gtsam.symbol(ord(letter), index))]: the
    character in the top 8 bits of a 64-bit key, the index in the low 56.
    GTSAM refuses an index that does not fit. *)

Abbreviation Key := Z (only parsing).
Definition indexBits : Z := 56.
Definition indexMask : Z := Z.ones indexBits.

Definition ord (letter : ascii) : Z := Z.of_nat (nat_of_ascii letter).

Definition pack (c : Z) (j : Z) : Key := Z.lor (Z.shiftl c indexBits) j.

Definition symbol (letter : ascii) (idx : nat) : Outcome Key :=
  if Z.of_nat idx >? indexMask then Raises ValueError
  else Returns (pack (ord letter) (Z.of_nat idx)).

(** ** Initial values: [gtsam.Values] *)

Inductive Value : Type :=
| VPose3 (p : Pose3)
| VVector (v : Vec3)
| VConstantBias (b : ConstantBias)
| VPoint3 (p : Point3).

(** [values.insert(key, value)] raises when the key is already present. *)
Definition Values_insert (k : Key) (v : Value) (vals : gmap Z Value)
  : Outcome (gmap Z Value) :=
  match vals !! k with
  | Some _ => Raises RuntimeError
  | None => Returns (<[k:=v]> vals)
  end.

(** ** Factors and the factor graph *)

Inductive Factor (P : Type) : Type :=
| ImuFactor (pose_i vel_i pose_j vel_j bias : Key) (pim : P)
| PriorFactorPose3 (k : Key) (prior : Pose3) (model : NoiseModel)
| PriorFactorVector (k : Key) (prior : Vec3) (model : NoiseModel)
| PriorFactorConstantBias (k : Key) (prior : ConstantBias) (model : NoiseModel)
| PriorFactorPoint3 (k : Key) (prior : Point3) (model : NoiseModel)
| ProjectionFactorPPPCal3DS2 (measured : Point2) (model : NoiseModel)
    (poseKey transformKey pointKey : Key) (K : Cal3DS2).
Arguments ImuFactor {P}.
Arguments PriorFactorPose3 {P}.
Arguments PriorFactorVector {P}.
Arguments PriorFactorConstantBias {P}.
Arguments PriorFactorPoint3 {P}.
Arguments ProjectionFactorPPPCal3DS2 {P}.

(** The keys a factor refers to. *)
Definition keys {P} (f : Factor P) : list Key :=
  match f with
  | ImuFactor xi vi xj vj b _ => [xi; vi; xj; vj; b]
  | PriorFactorPose3 k _ _ => [k]
  | PriorFactorVector k _ _ => [k]
  | PriorFactorConstantBias k _ _ => [k]
  | PriorFactorPoint3 k _ _ => [k]
  | ProjectionFactorPPPCal3DS2 _ _ kx kr km _ => [kx; kr; km]
  end.

(** The motion factors of a graph, in insertion order, as
    (pose_i, vel_i, pose_j, vel_j, bias, measurement). *)
Definition imu_factor {P} (f : Factor P) : option (Key * Key * Key * Key * Key * P) :=
  match f with
  | ImuFactor xi vi xj vj b p => Some (xi, vi, xj, vj, b, p)
  | _ => None
  end.

Definition imu_factors {P} (g : list (Factor P)) : list (Key * Key * Key * Key * Key * P) :=
  omap imu_factor g.

(** ** The preintegration engine

    [gtsam.PreintegratedImuMeasurements] as the script uses it.  The object
    is mutated in place by the script; here every method returns the new
    state.  [gtsam.ImuFactor] stores a copy of the measurement it is given,
    so a factor holds the state at the time of its construction.
    [update] is the accumulation step that [integrateMeasurement] performs
    once it has accepted the time step. *)

Class Preintegrator (P : Type) : Type := {
  create : PreintegrationParams -> ConstantBias -> P;
  resetIntegration : P -> P;
  update : P -> Vec3 -> Vec3 -> R -> P;
  predict : P -> NavState -> ConstantBias -> NavState
}.

(** [p.integrateMeasurement(acc, gyr, dt)].  GTSAM rejects a time step that
    is not positive ("dt <=0"); the bindings turn the C++ exception into a
    [RuntimeError]. *)
Definition integrateMeasurement `{Preintegrator P} (p : P) (a w : Vec3) (dt : R)
  : Outcome P :=
  if Rle_dec dt 0 then Raises RuntimeError else Returns (update p a w dt).

(** One IMU sample as it reaches the engine: acceleration, angular velocity
    and the time to the next sample. *)
Definition Sample : Type := (Vec3 * Vec3 * R)%type.

Definition integrate_sample `{Preintegrator P} (p : P) (s : Sample) : P :=
  update p s.1.1 s.1.2 s.2.

Definition integrate_all `{Preintegrator P} (p : P) (l : list Sample) : P :=
  fold_left integrate_sample l p.

(** ** The script's inputs

    The parameter block of the script (lines 26-64).  The initial
    orientation comes from [utils.geometry.estimate_initial_orientation],
    which is not part of this file and is taken as given. *)

Record Params : Type := mkParams {
  IMU_bias : ConstantBias;
  IMU_bias_covariance : NoiseModel;
  initial_state : NavState;
  preintegration_params : PreintegrationParams;
  initial_pose_covariance : NoiseModel;
  initial_velocity_covariance : NoiseModel
}.

Definition zero3 : Vec3 := mkVec3 0 0 0.
Definition scaled_identity (c : R) : Rot3 :=
  mkRot3 (mkVec3 c 0 0) (mkVec3 0 c 0) (mkVec3 0 0 c).

Definition kGyroSigma : R := (5 / 10 * (PI / 180) / 60)%R.
Definition kAccelSigma : R := (1 / 10 / 60)%R.

Definition script_params (initial_orientation : Rot3) : Params :=
  {| IMU_bias := mkBias zero3 zero3;
     IMU_bias_covariance := Isotropic_Sigma 6 1;
     initial_state := mkNavState (mkPose3 initial_orientation zero3) zero3;
     preintegration_params :=
       {| n_gravity := mkVec3 0 0 (- (981 / 100));
          gyroscopeCovariance := scaled_identity (kGyroSigma * kGyroSigma);
          accelerometerCovariance := scaled_identity (kAccelSigma * kAccelSigma);
          integrationCovariance :=
            scaled_identity (1 / 10000000 * (1 / 10000000)) |};
     initial_pose_covariance := Isotropic_Sigma 6 (2 / 100);
     initial_velocity_covariance := Isotropic_Sigma 3 (1 / 10) |}.

(** What [utils.preintegration.build_steps] hands back (line 77), and the
    two collaborators the visual path calls. *)
Record Dataset : Type := mkDataset {
  dt : list R;
  preintegration_steps : list nat;
  acc : list Vec3;
  gyr : list Vec3;
  camera_intrinsics : nat -> Cal3DS2;
  detect_and_match : list nat -> Matching
}.

(** The two switches of the source.  The file sets [USE_VISUAL_FACTORS =
    False] (line 21) and [RECOMPUTE_MATCHING = True] (line 144). *)
Record Toggles : Type := mkToggles {
  USE_VISUAL_FACTORS : bool;
  RECOMPUTE_MATCHING : bool
}.

Definition shipped : Toggles :=
  {| USE_VISUAL_FACTORS := false; RECOMPUTE_MATCHING := true |}.

Definition PREINTEGRATE_EVERY_FRAMES : nat := 6.

(** Number of iterations of the two IMU loops: [zip(acc, gyr)] stops with
    the shorter list. *)
Definition imu_count (d : Dataset) : nat := length (zip (acc d) (gyr d)).

(** The samples in the order the loops hand them to the engine, provided
    [dt] is long enough. *)
Definition samples (d : Dataset) : list Sample := zip (zip (acc d) (gyr d)) (dt d).

(** The decimated keyframe list (line 88). *)
Definition keyframes (d : Dataset) : list nat :=
  slice_step PREINTEGRATE_EVERY_FRAMES (preintegration_steps d).

(** ** File and random-number primitives *)

Definition log (e : IoEvent) (w : World) : World :=
  mkWorld (matching_pkl w) (io_log w ++ [e]) (entropy w) (drawn w).

Definition set_file (f : File) (w : World) : World :=
  mkWorld f (io_log w) (entropy w) (drawn w).

(** [open(measurements.path / 'matching.pkl', m)]; the handle remembers its
    mode.  Opening for writing creates or truncates the file. *)
Definition open (m : mode) : M mode := fun w =>
  match m with
  | rb =>
      match matching_pkl w with
      | Absent => (Raises FileNotFoundError, w)
      | _ => (Returns rb, log (Opened rb) w)
      end
  | wb => (Returns wb, log (Opened wb) (set_file Empty w))
  end.

Definition pickle_load (f : mode) : M Matching := fun w =>
  match f with
  | wb => (Raises UnsupportedOperation, w)
  | rb =>
      match matching_pkl w with
      | Pickled m => (Returns m, log Loaded w)
      | _ => (Raises EOFError, w)
      end
  end.

Definition pickle_dump (m : Matching) (f : mode) : M unit := fun w =>
  match f with
  | rb => (Raises UnsupportedOperation, w)
  | wb => (Returns tt, log Dumped (set_file (Pickled m) w))
  end.

(** Reading a variable that may not have been assigned yet. *)
Definition read_var {A} (v : option A) : M A :=
  match v with
  | Some a => mret a
  | None => raise NameError
  end.

(** [np.random.rand(3)] *)
Definition rand3 : M Vec3 := fun w =>
  (Returns (mkVec3 (entropy w (drawn w)) (entropy w (drawn w + 1)%nat)
                   (entropy w (drawn w + 2)%nat)),
   mkWorld (matching_pkl w) (io_log w) (entropy w) (drawn w + 3)%nat).

(** ** The script *)

Section Script.
Context {P : Type} `{Preintegrator P}.

(** *** Add IMU factors (lines 92-119) *)

Record ImuLoop : Type := mkImuLoop {
  factor_graph : list (Factor P);
  current_preintegrated_IMU : P;
  current_imu_factor_pair : nat * nat;
  imu_factor_pairs : list (nat * nat)
}.

Definition imu_body (dts : list R) (st : ImuLoop) (i : nat) (m : Vec3 * Vec3)
  : Outcome ImuLoop :=
  st1 ← (if decide (i = (current_imu_factor_pair st).2) then
           xi ← symbol "x" (current_imu_factor_pair st).1;
           vi ← symbol "v" (current_imu_factor_pair st).1;
           xj ← symbol "x" (current_imu_factor_pair st).2;
           vj ← symbol "v" (current_imu_factor_pair st).2;
           b ← symbol "b" 0;
           let g := factor_graph st
                      ++ [ImuFactor xi vi xj vj b (current_preintegrated_IMU st)] in
           let p := resetIntegration (current_preintegrated_IMU st) in
           match next (imu_factor_pairs st) with
           | Returns (q, it) => Returns (mkImuLoop g p q it)
           | Raises StopIteration =>
               Returns (mkImuLoop g p (current_imu_factor_pair st) (imu_factor_pairs st))
           | Raises e => Raises e
           end
         else Returns st);
  d ← index dts i;
  p ← integrateMeasurement (current_preintegrated_IMU st1) m.1 m.2 d;
  Returns (mkImuLoop (factor_graph st1) p
             (current_imu_factor_pair st1) (imu_factor_pairs st1)).

Definition add_imu_factors (d : Dataset) (pim : P) (g : list (Factor P))
  : Outcome ImuLoop :=
  let steps := keyframes d in
  '(cur, it) ← next (zip (removelast steps) (tail steps));
  for_enumerate (imu_body (dt d)) 0 (zip (acc d) (gyr d))
    (mkImuLoop g (resetIntegration pim) cur it).

(** *** Prior factors (lines 121-137) *)

Definition add_priors (t : Toggles) (params : Params) (steps : list nat)
    (g : list (Factor P)) : Outcome (list (Factor P)) :=
  s0 ← index steps 0;
  x0 ← symbol "x" s0;
  let g := g ++ [PriorFactorPose3 x0 (pose (initial_state params))
                   (initial_pose_covariance params)] in
  s0 ← index steps 0;
  v0 ← symbol "v" s0;
  let g := g ++ [PriorFactorVector v0 (velocity (initial_state params))
                   (initial_velocity_covariance params)] in
  b0 ← symbol "b" 0;
  let g := g ++ [PriorFactorConstantBias b0 (IMU_bias params)
                   (IMU_bias_covariance params)] in
  g ← (if USE_VISUAL_FACTORS t then
         m0 ← symbol "m" 0;
         Returns (g ++ [PriorFactorPoint3 m0 (mkVec3 1 0 0)
                          (Isotropic_Sigma 3 (5 / 100))])
       else Returns g);
  sn ← index_last steps;
  xn ← symbol "x" sn;
  let g := g ++ [PriorFactorPose3 xn (pose (initial_state params))
                   (initial_pose_covariance params)] in
  sn ← index_last steps;
  vn ← symbol "v" sn;
  Returns (g ++ [PriorFactorVector vn (velocity (initial_state params))
                   (initial_velocity_covariance params)]).

(** *** Visual factors (lines 141-163) *)

(** The cache toggle (lines 144-151).  [landmarks_to_images] is not assigned
    anywhere before this point. *)
Definition matching_cache (t : Toggles) (d : Dataset) (video_frame_steps : list nat)
  : M Matching :=
  let landmarks_to_images : option Matching := None in
  landmarks_to_images ←
    (if RECOMPUTE_MATCHING t then
       (* Compute matches and cache them to disk *)
       let landmarks_to_images := Some (detect_and_match d video_frame_steps) in
       f ← open rb;
       loaded ← pickle_load f;
       mret (Some loaded)
     else
       (* Load precomputed matching from disk *)
       f ← open wb;
       v ← read_var landmarks_to_images;
       _ ← pickle_dump v f;
       mret landmarks_to_images);
  read_var landmarks_to_images.

Definition projection_body (steps : list nat) (calibration_matrices : list Cal3DS2)
    (landmark_idx : nat) (g : list (Factor P)) (_ : nat) (occ : nat * Point2)
  : Outcome (list (Factor P)) :=
  s ← index steps occ.1;
  kx ← symbol "x" s;
  kr ← symbol "r" 0;
  km ← symbol "m" landmark_idx;
  K ← index calibration_matrices occ.1;
  Returns (g ++ [ProjectionFactorPPPCal3DS2 occ.2 (Isotropic_Sigma 2 2) kx kr km K]).

Definition landmark_body (steps : list nat) (calibration_matrices : list Cal3DS2)
    (g : list (Factor P)) (landmark_idx : nat) (landmark_occurences : list (nat * Point2))
  : Outcome (list (Factor P)) :=
  for_enumerate (projection_body steps calibration_matrices landmark_idx)
    0 landmark_occurences g.

Definition add_visual_factors (t : Toggles) (d : Dataset) (g : list (Factor P))
  : M (list (Factor P) * option Matching) :=
  if USE_VISUAL_FACTORS t then
    let video_frame_steps :=
      range_step (length (preintegration_steps d)) PREINTEGRATE_EVERY_FRAMES in
    let calibration_matrices := map (camera_intrinsics d) video_frame_steps in
    landmarks_to_images ← matching_cache t d video_frame_steps;
    g ← liftO (for_enumerate (landmark_body (keyframes d) calibration_matrices)
                 0 landmarks_to_images g);
    mret (g, Some landmarks_to_images)
  else mret (g, None).

(** *** Initial values (lines 179-206) *)

Record InitLoop : Type := mkInitLoop {
  initial_values : gmap Z Value;
  predicting_IMU : P
}.

Definition init_body (params : Params) (preintegration_steps_set : gset nat)
    (dts : list R) (st : InitLoop) (i : nat) (m : Vec3 * Vec3) : Outcome InitLoop :=
  vals ← (if decide (i ∈ preintegration_steps_set) then
            let predicted_nav_state :=
              predict (predicting_IMU st) (initial_state params) (IMU_bias params) in
            kx ← symbol "x" i;
            vals ← Values_insert kx (VPose3 (pose predicted_nav_state)) (initial_values st);
            kv ← symbol "v" i;
            Values_insert kv (VVector (velocity predicted_nav_state)) vals
          else Returns (initial_values st));
  d ← index dts i;
  p ← integrateMeasurement (predicting_IMU st) m.1 m.2 d;
  Returns (mkInitLoop vals p).

Definition landmark_guess (vals : gmap Z Value) (landmark_idx : nat)
    (_ : list (nat * Point2)) : M (gmap Z Value) :=
  km ← liftO (symbol "m" landmark_idx);
  guess ← rand3;
  liftO (Values_insert km (VPoint3 guess) vals).

Definition add_initial_values (t : Toggles) (params : Params) (d : Dataset)
    (pim : P) (landmarks_to_images : option Matching) : M (gmap Z Value) :=
  b0 ← liftO (symbol "b" 0);
  vals ← liftO (Values_insert b0 (VConstantBias (IMU_bias params)) ∅);
  let preintegration_steps_set : gset nat := list_to_set (keyframes d) in
  st ← liftO (for_enumerate (init_body params preintegration_steps_set (dt d))
                0 (zip (acc d) (gyr d)) (mkInitLoop vals (resetIntegration pim)));
  if USE_VISUAL_FACTORS t then
    r0 ← liftO (symbol "r" 0);
    vals ← liftO (Values_insert r0
                    (VPose3 (mkPose3 (mkRot3 (mkVec3 0 (-1) 0) (mkVec3 (-1) 0 0)
                                             (mkVec3 0 0 (-1))) zero3))
                    (initial_values st));
    lm ← read_var landmarks_to_images;
    for_enumerateM landmark_guess 0 lm vals
  else mret (initial_values st).

(** *** Graph and initial values together (lines 59-206) *)

Definition assemble (t : Toggles) (params : Params) (d : Dataset)
  : M (list (Factor P) * gmap Z Value) :=
  let pim := create (preintegration_params params) (IMU_bias params) in
  st ← liftO (add_imu_factors d pim []);
  g ← liftO (add_priors t params (keyframes d) (factor_graph st));
  '(g, landmarks_to_images) ← add_visual_factors t d g;
  vals ← add_initial_values t params d (current_preintegrated_IMU st) landmarks_to_images;
  mret (g, vals).

End Script.

(** ** The optimizer (lines 210-214)

    [gtsam.GaussNewtonOptimizer] is a library object.  The script builds it
    from the graph, the initial values and the library's default parameters
    with the verbosity raised, calls [optimize()] and binds what that call
    returns: a [gtsam.Values].  The optimizer object stays bound to
    [optimizer]. *)

(** One linearise-solve-retract step and the convergence test are the
    solver's business. *)
Class Solver (P : Type) : Type := {
  linearize_solve_retract : list (Factor P) -> gmap Z Value -> gmap Z Value;
  tolerance_met : list (Factor P) -> gmap Z Value -> gmap Z Value -> bool
}.

Inductive Verbosity : Type :=
| SILENT | TERMINATION | ERROR | VALUES | DELTA | LINEAR.

(** [gtsam.GaussNewtonParams()]: the iteration cap and the verbosity. *)
Record GaussNewtonParams : Type := mkGaussNewtonParams {
  maxIterations : nat;
  verbosity : Verbosity
}.

(** [params.setVerbosity("ERROR")] *)
Definition setVerbosity (v : Verbosity) (p : GaussNewtonParams) : GaussNewtonParams :=
  mkGaussNewtonParams (maxIterations p) v.

(** What the optimizer object answers to [values()] and [iterations()], and
    whether the last convergence test succeeded. *)
Record OptimizerState : Type := mkOptimizerState {
  estimate : gmap Z Value;
  iterations : nat;
  converged : bool
}.

(** The optimizer object: the graph and parameters it was built from, and
    its state. *)
Record Optimizer (P : Type) : Type := mkOptimizer {
  optimizer_graph : list (Factor P);
  optimizer_params : GaussNewtonParams;
  optimizer_state : OptimizerState
}.
Arguments mkOptimizer {P}.
Arguments optimizer_graph {P}.
Arguments optimizer_params {P}.
Arguments optimizer_state {P}.

(** Every key of every factor has an entry in the values. *)
Definition keys_have_values {P} (g : list (Factor P)) (vals : gmap Z Value) : Prop :=
  Forall (fun f => Forall (fun k => is_Some (vals !! k)) (keys f)) g.

#[export] Instance keys_have_values_dec {P} (g : list (Factor P)) (vals : gmap Z Value) :
  Decision (keys_have_values g vals).
Proof. unfold keys_have_values. apply _. Defined.

(** Modelled from the spec (sections 3, 4.4 and 7): a factor key without an
    initial value is rejected before optimization starts.  The library
    evaluates the graph at the initial values when the optimizer is built,
    which fails on such a key; the bindings raise [RuntimeError]. *)
Definition GaussNewtonOptimizer {P} (g : list (Factor P)) (vals : gmap Z Value)
    (params : GaussNewtonParams) : Outcome (Optimizer P) :=
  if decide (keys_have_values g vals)
  then Returns (mkOptimizer g params (mkOptimizerState vals 0 false))
  else Raises RuntimeError.

(** Modelled from the spec: the iteration driver of section 4.5 (the GTSAM
    optimizer itself is not part of the repository).  It repeats the step
    until the convergence criterion holds or the iteration budget is used
    up, and in the latter case stops at the cap with the current estimate. *)
Fixpoint iterate_until {P} `{Solver P} (g : list (Factor P)) (budget n : nat)
    (cur : gmap Z Value) : OptimizerState :=
  match budget with
  | O => mkOptimizerState cur n false
  | S budget' =>
      let nxt := linearize_solve_retract g cur in
      if tolerance_met g cur nxt then mkOptimizerState nxt (S n) true
      else iterate_until g budget' (S n) nxt
  end.

(** [optimizer.optimize()] runs the driver, leaves its final state in the
    object and returns the values. *)
Definition optimize {P} `{Solver P} (o : Optimizer P) : Optimizer P * gmap Z Value :=
  let st := iterate_until (optimizer_graph o) (maxIterations (optimizer_params o)) 0
              (estimate (optimizer_state o)) in
  (mkOptimizer (optimizer_graph o) (optimizer_params o) st, estimate st).

(** The variables the script has bound once line 214 has run. *)
Record Run (P : Type) : Type := mkRun {
  run_factor_graph : list (Factor P);
  run_landmarks_to_images : option Matching;
  run_initial_values : gmap Z Value;
  optimization_params : GaussNewtonParams;
  optimizer : Optimizer P;
  optimization_result : gmap Z Value
}.
Arguments mkRun {P}.
Arguments run_factor_graph {P}.
Arguments run_landmarks_to_images {P}.
Arguments run_initial_values {P}.
Arguments optimization_params {P}.
Arguments optimizer {P}.
Arguments optimization_result {P}.


(** ** Plotting (lines 216-261)

    What the script shows: the calls it makes on matplotlib and on the two
    plotting helpers, and the line it prints, in order.  [plot_pose3] and
    [show_pcl] are helpers outside this file; they appear as the call with
    its arguments.  An exception ends the script; what had been shown by
    then is not kept. *)

Inductive Output : Type :=
| plt_figure (num : nat)
| plt_gca_3d
| set_xlim3d (lo hi : R)
| set_ylim3d (lo hi : R)
| set_zlim3d (lo hi : R)
| set_xlabel (s : string)
| set_ylabel (s : string)
| set_zlabel (s : string)
| margins (m : R)
| suptitle (s : string)
| plot_pose3 (fignum : nat) (pose : Pose3) (axis_length : R)
| plt_pause (interval : R)
| show_pcl (pcl : list Point3)
| print_predicted_bias (b : ConstantBias)
| plt_ioff
| plt_show.

(** [values.atPose3(key)] and its siblings raise when the key is missing or
    holds a value of another type. *)
Definition atPose3 (vals : gmap Z Value) (k : Key) : Outcome Pose3 :=
  match vals !! k with
  | Some (VPose3 p) => Returns p
  | _ => Raises RuntimeError
  end.

Definition atPoint3 (vals : gmap Z Value) (k : Key) : Outcome Point3 :=
  match vals !! k with
  | Some (VPoint3 p) => Returns p
  | _ => Raises RuntimeError
  end.

Definition atimuBias_ConstantBias (vals : gmap Z Value) (k : Key) : Outcome ConstantBias :=
  match vals !! k with
  | Some (VConstantBias b) => Returns b
  | _ => Raises RuntimeError
  end.

(** Lines 229-235, one keyframe. *)
Definition plot_keyframe (initial_values optimization_result : gmap Z Value)
    (shown : list Output) (_ : nat) (i : nat) : Outcome (list Output) :=
  (* Initial estimate from IMU preintegration *)
  k ← symbol "x" i;
  p ← atPose3 initial_values k;
  let shown := shown ++ [plot_pose3 1 p (2 / 10)] in
  (* Optimized estimate *)
  k ← symbol "x" i;
  p ← atPose3 optimization_result k;
  let shown := shown ++ [plot_pose3 1 p (8 / 100)] in
  Returns (shown ++ [plt_pause (1 / 100)]).

(** Line 239, one landmark. *)
Definition stack_landmark (optimization_result : gmap Z Value)
    (pcl : list Point3) (_ : nat) (i : nat) : Outcome (list Point3) :=
  k ← symbol "m" i;
  p ← atPoint3 optimization_result k;
  Returns (pcl ++ [p]).

Definition plot_the_solution {P} (t : Toggles) (preintegration_steps : list nat)
    (r : Run P) : Outcome (list Output) :=
  let shown :=
    [plt_figure 1; plt_gca_3d;
     set_xlim3d (-2) 2; set_ylim3d (-2) 2; set_zlim3d (-2) 2;
     set_xlabel "x"; set_ylabel "y"; set_zlabel "z";
     margins 0;
     suptitle "Large/small poses: initial/optimized estimate"] in
  shown ← for_enumerate
            (plot_keyframe (run_initial_values r) (optimization_result r))
            0 preintegration_steps shown;
  shown ← (if USE_VISUAL_FACTORS t then
             (* Plot the detected landmarks. *)
             match run_landmarks_to_images r with
             | Some landmarks_to_images =>
                 pcl ← for_enumerate (stack_landmark (optimization_result r))
                         0 (seq 0 (length landmarks_to_images)) [];
                 Returns (shown ++ [show_pcl pcl])
             | None => Raises NameError
             end
           else Returns shown);
  b0 ← symbol "b" 0;
  b ← atimuBias_ConstantBias (optimization_result r) b0;
  Returns (shown ++ [print_predicted_bias b; plt_ioff; plt_show]).

(** ** The whole script

    Lines 59-206 as in [assemble], then the optimizer and the plots.  The
    argument [library_defaults] is what [gtsam.GaussNewtonParams()]
    returns. *)

Definition main {P} `{Preintegrator P} `{Solver P} (t : Toggles) (params : Params)
    (library_defaults : GaussNewtonParams) (d : Dataset)
  : M (Run P * list Output) :=
  let pim := create (preintegration_params params) (IMU_bias params) in
  st ← liftO (add_imu_factors d pim []);
  g ← liftO (add_priors t params (keyframes d) (factor_graph st));
  '(g, landmarks_to_images) ← add_visual_factors t d g;
  vals ← add_initial_values t params d (current_preintegrated_IMU st) landmarks_to_images;
  (* Use the Gauss-Newton algorithm *)
  let optimization_params := setVerbosity ERROR library_defaults in
  optimizer ← liftO (GaussNewtonOptimizer g vals optimization_params);
  let '(optimizer, optimization_result) := optimize optimizer in
  let r := mkRun g landmarks_to_images vals optimization_params optimizer
             optimization_result in
  (* Plot the solution *)
  shown ← liftO (plot_the_solution t (keyframes d) r);
  mret (r, shown).

(** ** A recording engine

    Wraps an engine and remembers, next to its state, the samples integrated
    since the last reset.  The wrapped engine behaves as before (see
    [recorder_transparent_run]); the record tells which samples a
    measurement was built from. *)

Module Recorder.

Definition engine {P} (E : Preintegrator P) : Preintegrator (P * list Sample) :=
  {| create pp b := (create pp b, []);
     resetIntegration p := (resetIntegration p.1, []);
     update p a w d := (update p.1 a w d, p.2 ++ [(a, w, d)]);
     predict p := predict p.1 |}.

(** The samples behind each motion factor of a graph, in insertion order. *)
Definition records {P} (g : list (Factor (P * list Sample))) : list (list Sample) :=
  map (fun f => f.2.2) (imu_factors g).

(** Dropping the records gives back a graph over the wrapped engine. *)
Definition forget {P} (f : Factor (P * list Sample)) : Factor P :=
  match f with
  | ImuFactor xi vi xj vj b p => ImuFactor xi vi xj vj b p.1
  | PriorFactorPose3 k x m => PriorFactorPose3 k x m
  | PriorFactorVector k x m => PriorFactorVector k x m
  | PriorFactorConstantBias k x m => PriorFactorConstantBias k x m
  | PriorFactorPoint3 k x m => PriorFactorPoint3 k x m
  | ProjectionFactorPPPCal3DS2 z m kx kr km K => ProjectionFactorPPPCal3DS2 z m kx kr km K
  end.

End Recorder.

(** ** Strapdown preintegration over the reals *)

Module Strapdown.

Local Open Scope R_scope.

Definition vadd (a b : Vec3) : Vec3 := mkVec3 (vx a + vx b) (vy a + vy b) (vz a + vz b).
Definition vsub (a b : Vec3) : Vec3 := mkVec3 (vx a - vx b) (vy a - vy b) (vz a - vz b).
Definition vscale (c : R) (a : Vec3) : Vec3 := mkVec3 (c * vx a) (c * vy a) (c * vz a).
Definition vdot (a b : Vec3) : R := vx a * vx b + vy a * vy b + vz a * vz b.

Definition rot_identity : Rot3 := mkRot3 (mkVec3 1 0 0) (mkVec3 0 1 0) (mkVec3 0 0 1).
Definition col1 (m : Rot3) : Vec3 := mkVec3 (vx (row1 m)) (vx (row2 m)) (vx (row3 m)).
Definition col2 (m : Rot3) : Vec3 := mkVec3 (vy (row1 m)) (vy (row2 m)) (vy (row3 m)).
Definition col3 (m : Rot3) : Vec3 := mkVec3 (vz (row1 m)) (vz (row2 m)) (vz (row3 m)).
Definition rotate (m : Rot3) (v : Vec3) : Vec3 :=
  mkVec3 (vdot (row1 m) v) (vdot (row2 m) v) (vdot (row3 m) v).
Definition row_times (r : Vec3) (m : Rot3) : Vec3 :=
  mkVec3 (vdot r (col1 m)) (vdot r (col2 m)) (vdot r (col3 m)).
Definition compose (a b : Rot3) : Rot3 :=
  mkRot3 (row_times (row1 a) b) (row_times (row2 a) b) (row_times (row3 a) b).
Definition madd (a b : Rot3) : Rot3 :=
  mkRot3 (vadd (row1 a) (row1 b)) (vadd (row2 a) (row2 b)) (vadd (row3 a) (row3 b)).
Definition mscale (c : R) (a : Rot3) : Rot3 :=
  mkRot3 (vscale c (row1 a)) (vscale c (row2 a)) (vscale c (row3 a)).
Definition skew (w : Vec3) : Rot3 :=
  mkRot3 (mkVec3 0 (- vz w) (vy w)) (mkVec3 (vz w) 0 (- vx w)) (mkVec3 (- vy w) (vx w) 0).

(** Exponential map of so(3) (Rodrigues' formula). *)
Definition Expmap (w : Vec3) : Rot3 :=
  let theta := sqrt (vdot w w) in
  if Req_dec_T theta 0 then rot_identity
  else madd rot_identity
         (madd (mscale (sin theta / theta) (skew w))
               (mscale ((1 - cos theta) / (theta * theta)) (compose (skew w) (skew w)))).

(** Modelled from the spec: the preintegrated measurement of sections 3 and
    4.1 (GTSAM's class is not part of the repository).  It holds the bias
    estimate used during accumulation, the elapsed time and the three
    deltas.  Covariance and bias Jacobians, whose recursions the spec does
    not spell out and which [predict] as the spec describes it does not
    read, are left out. *)
Record PIM : Type := mkPIM {
  params : PreintegrationParams;
  biasHat : ConstantBias;
  deltaTij : R;
  deltaRij : Rot3;
  deltaPij : Vec3;
  deltaVij : Vec3
}.

(** Modelled from the spec: [reset()] clears delta-rotation to identity and
    delta-velocity, delta-position and elapsed time to zero. *)
Definition reset (p : PIM) : PIM :=
  mkPIM (params p) (biasHat p) 0 rot_identity zero3 zero3.

(** Modelled from the spec: [integrate(acceleration, angular_velocity, dt)].
    The bias-corrected angular velocity is integrated on the manifold; the
    bias-corrected acceleration, rotated into the frame at window start,
    feeds delta-velocity (times [dt]) and delta-position (delta-velocity
    times [dt] plus the second-order term). *)
Definition integrate (p : PIM) (a w : Vec3) (dt : R) : PIM :=
  let a_c := vsub a (accelerometer (biasHat p)) in
  let w_c := vsub w (gyroscope (biasHat p)) in
  let a_rot := rotate (deltaRij p) a_c in
  mkPIM (params p) (biasHat p)
    (deltaTij p + dt)
    (compose (deltaRij p) (Expmap (vscale dt w_c)))
    (vadd (deltaPij p) (vadd (vscale dt (deltaVij p)) (vscale (dt * dt / 2) a_rot)))
    (vadd (deltaVij p) (vscale dt a_rot)).

(** Modelled from the spec: [predict(reference_state, bias)] composes the
    accumulated delta onto the reference state: delta quantities are rotated
    into the reference frame and gravity acts over the elapsed time. *)
Definition predict_state (p : PIM) (s : NavState) (_ : ConstantBias) : NavState :=
  let Ri := rotation (pose s) in
  let T := deltaTij p in
  let g := n_gravity (params p) in
  mkNavState
    (mkPose3 (compose Ri (deltaRij p))
       (vadd (translation (pose s))
          (vadd (vscale T (velocity s))
             (vadd (vscale (T * T / 2) g) (rotate Ri (deltaPij p))))))
    (vadd (velocity s) (vadd (vscale T g) (rotate Ri (deltaVij p)))).

Definition engine : Preintegrator PIM :=
  {| create pp b := mkPIM pp b 0 rot_identity zero3 zero3;
     resetIntegration := reset;
     update := integrate;
     predict := predict_state |}.

End Strapdown.

(** ** Reference descriptions used by the proofs *)

(** Two computations end alike: both return, with related results, or both
    raise the same exception. *)
Definition outcome_rel {A B} (R : A -> B -> Prop) (a : Outcome A) (b : Outcome B) : Prop :=
  match a, b with
  | Returns x, Returns y => R x y
  | Raises e, Raises e' => e = e'
  | _, _ => False
  end.

(** The states of the two loops under a recording engine and under the
    engine it wraps, when they differ by the records only. *)
Definition imu_loops_agree {P} (sr : ImuLoop (P := P * list Sample))
    (s : ImuLoop (P := P)) : Prop :=
  factor_graph s = map Recorder.forget (factor_graph sr) /\
  current_preintegrated_IMU s = (current_preintegrated_IMU sr).1 /\
  current_imu_factor_pair s = current_imu_factor_pair sr /\
  imu_factor_pairs s = imu_factor_pairs sr.

Definition init_loops_agree {P} (sr : InitLoop (P := P * list Sample))
    (s : InitLoop (P := P)) : Prop :=
  initial_values s = initial_values sr /\
  predicting_IMU s = (predicting_IMU sr).1.

Definition results_agree {P}
    (r : list (Factor (P * list Sample)) * gmap Z Value)
    (r0 : list (Factor P) * gmap Z Value) : Prop :=
  r0 = (map Recorder.forget r.1, r.2).

(** The key [symbol] returns when the index fits. *)
Definition key_of (letter : ascii) (i : nat) : Key := pack (ord letter) (Z.of_nat i).

(** Cutting a list at increasing absolute positions [ks], where the list
    starts at absolute position [i]: one window per position, each running up
    to (and excluding) that position. *)
Fixpoint windows {A} (i : nat) (rest : list A) (ks : list nat) : list (list A) :=
  match ks with
  | [] => []
  | e :: ks' => take (e - i) rest :: windows e (drop (e - i) rest) ks'
  end.

(** The motion factors the first loop adds when the keyframes increase: [p]
    is the live measurement at absolute position [i], [rest] the samples from
    there on, [s] the start of the pending pair and [ks] the pair ends still
    to come. *)
Fixpoint motion_factors {P} `{Preintegrator P} (p : P) (i : nat) (rest : list Sample)
    (s : nat) (ks : list nat) : list (Factor P) :=
  match ks with
  | [] => []
  | e :: ks' =>
      let p' := integrate_all p (take (e - i) rest) in
      ImuFactor (key_of "x" s) (key_of "v" s) (key_of "x" e) (key_of "v" e)
        (key_of "b" 0) p'
      :: motion_factors (resetIntegration p') e (drop (e - i) rest) e ks'
  end.

(** A motion factor between the two indices of one of the given pairs. *)
Definition motion_between {P} (pairs : list (nat * nat)) (f : Factor P) : Prop :=
  exists s e p, (s, e) ∈ pairs /\
    f = ImuFactor (key_of "x" s) (key_of "v" s) (key_of "x" e) (key_of "v" e)
          (key_of "b" 0) p.

Definition pair_fits (q : nat * nat) : Prop :=
  Z.of_nat q.1 <= indexMask /\ Z.of_nat q.2 <= indexMask.

(** The priors of the IMU-only graph: pose, velocity and bias at the first
    keyframe [s0], pose and velocity again at the last keyframe [sn]. *)
Definition imu_only_priors {P} (params : Params) (s0 sn : nat) : list (Factor P) :=
  [PriorFactorPose3 (key_of "x" s0) (pose (initial_state params))
     (initial_pose_covariance params);
   PriorFactorVector (key_of "v" s0) (velocity (initial_state params))
     (initial_velocity_covariance params);
   PriorFactorConstantBias (key_of "b" 0) (IMU_bias params)
     (IMU_bias_covariance params);
   PriorFactorPose3 (key_of "x" sn) (pose (initial_state params))
     (initial_pose_covariance params);
   PriorFactorVector (key_of "v" sn) (velocity (initial_state params))
     (initial_velocity_covariance params)].

(** The script without its visual branches, as one computation that never
    looks at the cache file or the random generator. *)
Definition assemble_imu_only {P} `{Preintegrator P} (t : Toggles) (params : Params)
    (d : Dataset) : Outcome (list (Factor P) * gmap Z Value) :=
  st ← add_imu_factors d (create (preintegration_params params) (IMU_bias params)) [];
  g ← add_priors t params (keyframes d) (factor_graph st);
  b0 ← symbol "b" 0;
  vals ← Values_insert b0 (VConstantBias (IMU_bias params)) ∅;
  st2 ← for_enumerate
          (init_body params (list_to_set (keyframes d)) (dt d)) 0
          (zip (acc d) (gyr d))
          (mkInitLoop vals (resetIntegration (current_preintegrated_IMU st)));
  Returns (g, initial_values st2).

(** The occurrences of a matching in the order lines 152-153 visit them,
    each with the index of its landmark; [i] is the index of the first
    landmark. *)
Fixpoint occurrences (i : nat) (lm : Matching) : list (nat * (nat * Point2)) :=
  match lm with
  | [] => []
  | occs :: lm' => ((fun occ => (i, occ)) <$> occs) ++ occurrences (S i) lm'
  end.

(** Lines 210-261 on a graph, a matching (if one was bound) and initial
    values. *)
Definition optimize_and_plot {P} `{Solver P} (t : Toggles)
    (library_defaults : GaussNewtonParams) (steps : list nat) (g : list (Factor P))
    (landmarks_to_images : option Matching) (vals : gmap Z Value)
  : Outcome (Run P * list Output) :=
  optimizer ← GaussNewtonOptimizer g vals (setVerbosity ERROR library_defaults);
  let '(optimizer, optimization_result) := optimize optimizer in
  let r := mkRun g landmarks_to_images vals (setVerbosity ERROR library_defaults)
             optimizer optimization_result in
  shown ← plot_the_solution t steps r;
  Returns (r, shown).

(** The five keys of the motion factor for a pair of keyframe indices. *)
Definition pair_keys (q : nat * nat) : Key * Key * Key * Key * Key :=
  (key_of "x" q.1, key_of "v" q.1, key_of "x" q.2, key_of "v" q.2, key_of "b" 0).

(** Strictly increasing lists of indices. *)
Fixpoint increasing (l : list nat) : Prop :=
  match l with
  | [] => True
  | x :: l' => match l' with [] => True | y :: _ => (x < y)%nat end /\ increasing l'
  end.

(** ** Concrete inputs *)

Module Examples.

Definition smp (i : nat) : Vec3 := mkVec3 (INR i) 0 0.

(** [n] samples, sample [i] carrying the number [i] and the time step
    [i + 1], and the given keyframe index list before decimation. *)
Definition dataset (n : nat) (steps : list nat) : Dataset :=
  mkDataset (map INR (seq 1 n)) steps (map smp (seq 0 n)) (map smp (seq 0 n))
    (fun _ => mkCal 1 1 0 0 0 0 0 0 0) (fun _ => []).

Definition world (f : File) : World := mkWorld f [] (fun n => INR n) 0.

Definition upright : Params := script_params Strapdown.rot_identity.

Definition recording : Preintegrator (Strapdown.PIM * list Sample) :=
  Recorder.engine Strapdown.engine.

(** Thirteen keyframes over fourteen samples: the decimated list is
    [0; 6; 12]. *)
Definition thirteen : Dataset := dataset 14 (seq 0 13).

(** Eight keyframes: the decimated list is [0; 6] and index 7 is dropped. *)
Definition eight : Dataset := dataset 14 (seq 0 8).

(** A single keyframe. *)
Definition single : Dataset := dataset 14 [3%nat].

(** A solver that does not move the estimate and never reports that the
    tolerance is met. *)
Definition stalled {P} : Solver P :=
  {| linearize_solve_retract _ v := v; tolerance_met _ _ _ := false |}.

(** Two samples, keyframes [0; 1] after decimation; a cache file holding one
    landmark that no image shows; a generator that always delivers [c]. *)
Definition tiny : Dataset := dataset 2 [0; 0; 0; 0; 0; 0; 1]%nat.
Definition visual : Toggles := mkToggles true true.
Definition seeded (c : R) : World := mkWorld (Pickled [[]]) [] (fun _ => c) 0.

End Examples.

(** ** More concrete inputs *)

Module MoreExamples.

(** Fourteen samples; the decimated keyframe list is [0; 12; 6]: the second
    pair, (12, 6), ends before it starts. *)
Definition out_of_order : Dataset :=
  Examples.dataset 14 [0; 0; 0; 0; 0; 0; 12; 0; 0; 0; 0; 0; 6]%nat.

(** Fourteen accelerometer and gyroscope samples but only five time steps;
    keyframes [0; 6; 12]. *)
Definition short_dt : Dataset :=
  mkDataset (map INR (seq 1 5)) (seq 0 13) (map Examples.smp (seq 0 14))
    (map Examples.smp (seq 0 14)) (fun _ => mkCal 1 1 0 0 0 0 0 0 0) (fun _ => []).

(** Four samples, keyframes [0; 9]: the last keyframe index lies beyond the
    stream. *)
Definition beyond : Dataset := Examples.dataset 4 [0; 1; 2; 3; 4; 5; 9]%nat.

(** Fourteen accelerometer samples and time steps but ten gyroscope
    samples, so that [zip(acc, gyr)] has ten entries; keyframes [0; 6; 12]. *)
Definition gyr_short : Dataset :=
  mkDataset (map INR (seq 1 14)) (seq 0 13) (map Examples.smp (seq 0 14))
    (map Examples.smp (seq 0 10)) (fun _ => mkCal 1 1 0 0 0 0 0 0 0) (fun _ => []).

(** Fourteen samples, keyframes [0; 6; 12]; the time step of sample 3 is
    zero. *)
Definition paused : Dataset :=
  mkDataset (map INR [1; 2; 3; 0; 5; 6; 7; 8; 9; 10; 11; 12; 13; 14]%nat) (seq 0 13)
    (map Examples.smp (seq 0 14)) (map Examples.smp (seq 0 14))
    (fun _ => mkCal 1 1 0 0 0 0 0 0 0) (fun _ => []).

(** A matching of two landmarks: the first seen in frames 0 and 1, the
    second in frame 1. *)
Definition sightings : Matching :=
  [[(0%nat, (1, 2)%R); (1%nat, (3, 4)%R)]; [(1%nat, (5, 6)%R)]].

(** A matching whose second landmark is listed for frame 5. *)
Definition stale : Matching :=
  [[(0%nat, (1, 2)%R)]; [(1%nat, (3, 4)%R); (5%nat, (5, 6)%R)]].

End MoreExamples.

(** * Properties *)

(** ** Exceptions and binds *)

Lemma bind_Returns {A B} (a : A) (f : A -> Outcome B) :
  (Returns a ≫= f) = f a.
Proof. reflexivity. Qed.

Lemma bind_Raises {A B} (e : exn) (f : A -> Outcome B) :
  (Raises e ≫= f) = Raises e.
Proof. reflexivity. Qed.

Lemma bind_inv {A B} (c : Outcome A) (f : A -> Outcome B) (b : B) :
  (c ≫= f) = Returns b -> exists a, c = Returns a /\ f a = Returns b.
Proof. destruct c as [a|e]; [eauto | discriminate]. Qed.

Lemma liftO_bind {A B} (c : Outcome A) (f : A -> M B) (w : World) :
  (liftO c ≫= f) w = match c with Returns a => f a w | Raises e => (Raises e, w) end.
Proof. unfold mbind, M_bind, liftO. destruct c; reflexivity. Qed.

Lemma integrateMeasurement_pos `{Preintegrator P} (p : P) (a w : Vec3) (d : R) :
  (0 < d)%R -> integrateMeasurement p a w d = Returns (update p a w d).
Proof.
  intros Hd. unfold integrateMeasurement. destruct (Rle_dec d 0); [lra | reflexivity].
Qed.

Lemma integrateMeasurement_nonpos `{Preintegrator P} (p : P) (a w : Vec3) (d : R) :
  (d <= 0)%R -> integrateMeasurement p a w d = Raises RuntimeError.
Proof.
  intros Hd. unfold integrateMeasurement. destruct (Rle_dec d 0); [reflexivity | lra].
Qed.

Lemma integrateMeasurement_inv `{Preintegrator P} (p p' : P) (a w : Vec3) (d : R) :
  integrateMeasurement p a w d = Returns p' -> (0 < d)%R /\ p' = update p a w d.
Proof.
  unfold integrateMeasurement. destruct (Rle_dec d 0); [discriminate |].
  intros Heq. inversion Heq. split; [lra | reflexivity].
Qed.

Lemma lookup_pos (dts : list R) (i : nat) (d : R) :
  Forall (fun x => (0 < x)%R) dts -> dts !! i = Some d -> (0 < d)%R.
Proof. intros Hall Hd. by apply (Forall_lookup_1 _ _ _ _ Hall Hd). Qed.

Lemma index_lookup {A} (l : list A) (i : nat) (x : A) :
  l !! i = Some x -> index l i = Returns x.
Proof. unfold index. intros ->. reflexivity. Qed.

Lemma index_lt {A} (l : list A) (i : nat) :
  (i < length l)%nat -> exists x, l !! i = Some x /\ index l i = Returns x.
Proof.
  intros Hi. destruct (lookup_lt_is_Some_2 l i Hi) as [x Hx].
  exists x. split; [assumption | by apply index_lookup].
Qed.

(** ** Keys *)

Lemma indexMask_value : indexMask = 2 ^ 56 - 1.
Proof. reflexivity. Qed.

Lemma pack_add (c j : Z) :
  0 <= j <= indexMask -> pack c j = c * 2 ^ 56 + j.
Proof.
  intros Hj. unfold pack, indexBits.
  rewrite Z.shiftl_mul_pow2 by lia.
  assert (Hland : Z.land (c * 2 ^ 56) j = 0).
  { apply Z.bits_inj'. intros n Hn.
    rewrite Z.land_spec, Z.bits_0.
    destruct (Z_lt_le_dec n 56) as [Hlt|Hge].
    - rewrite Z.mul_pow2_bits_low by lia. reflexivity.
    - assert (Z.testbit j n = false) as ->; [| apply andb_false_r].
      destruct (Z.eq_dec j 0) as [->|Hnz]; [apply Z.bits_0 |].
      apply Z.bits_above_log2; [lia |].
      assert (Z.log2 j < 56); [| lia].
      apply Z.log2_lt_pow2; [lia |]. rewrite indexMask_value in Hj. lia. }
  rewrite <- Z.lxor_lor by assumption.
  symmetry. apply Z.add_nocarry_lxor. assumption.
Qed.

Lemma key_of_inj (c c' : ascii) (i i' : nat) :
  Z.of_nat i <= indexMask -> Z.of_nat i' <= indexMask ->
  key_of c i = key_of c' i' -> c = c' /\ i = i'.
Proof.
  intros Hi Hi' Heq. unfold key_of in Heq.
  rewrite !pack_add in Heq by lia.
  rewrite indexMask_value in Hi, Hi'.
  assert (Hc : ord c = ord c') by nia.
  split.
  - unfold ord in Hc. apply Nat2Z.inj in Hc.
    rewrite <- (ascii_nat_embedding c), <- (ascii_nat_embedding c'). by rewrite Hc.
  - rewrite Hc in Heq. lia.
Qed.

Lemma symbol_fits (c : ascii) (i : nat) :
  Z.of_nat i <= indexMask -> symbol c i = Returns (key_of c i).
Proof.
  intros Hi. unfold symbol.
  destruct (Z.gtb_spec (Z.of_nat i) indexMask); [lia | reflexivity].
Qed.

Lemma symbol_b0 : symbol "b" 0 = Returns (key_of "b" 0).
Proof. reflexivity. Qed.

(** ** Slices and loops *)

Lemma slice_step_head {A} (k : nat) (l : list A) :
  head (slice_step k l) = head l.
Proof. destruct l; reflexivity. Qed.

Lemma every_lookup {A} (k : nat) (l : list A) :
  (0 < k)%nat ->
  forall skip j, every k skip l !! j = l !! (skip + j * k)%nat.
Proof.
  intros Hk. induction l as [|x l IH]; intros skip j; [by rewrite !lookup_nil |].
  destruct skip as [|s]; simpl.
  - destruct j as [|j]; [reflexivity |].
    rewrite lookup_cons, IH. simpl.
    destruct k as [|k]; [lia |]. simpl. by rewrite Nat.sub_0_r.
  - apply IH.
Qed.

(** [l[::k]] holds the entries of [l] at the positions 0, k, 2k, ... *)
Lemma slice_step_lookup {A} (k : nat) (l : list A) (j : nat) :
  (0 < k)%nat -> slice_step k l !! j = l !! (j * k)%nat.
Proof. intros Hk. unfold slice_step. by rewrite every_lookup. Qed.

Lemma every_subset {A} (k skip : nat) (l : list A) (x : A) :
  x ∈ every k skip l -> x ∈ l.
Proof.
  revert skip. induction l as [|y l IH]; intros skip Hx; simpl in Hx.
  - assumption.
  - destruct skip.
    + apply elem_of_cons in Hx as [->|Hx]; [left | right; eauto].
    + right; eauto.
Qed.

Lemma for_enumerate_app {A St} (body : St -> nat -> A -> Outcome St)
    (l1 l2 : list A) (i : nat) (st : St) :
  for_enumerate body i (l1 ++ l2) st =
  (st' ← for_enumerate body i l1 st; for_enumerate body (i + length l1) l2 st').
Proof.
  revert i st. induction l1 as [|x l1 IH]; intros i st; simpl.
  - by rewrite Nat.add_0_r.
  - destruct (body st i x) as [st'|e]; simpl; [| reflexivity].
    rewrite IH. by replace (S i + length l1)%nat with (i + S (length l1))%nat by lia.
Qed.

Lemma drop_lookup_cons {A} (l : list A) (i : nat) (x : A) :
  l !! i = Some x -> drop i l = x :: drop (S i) l.
Proof.
  revert i. induction l as [|y l IH]; intros [|i] Hx; simpl in *; try discriminate.
  - by inversion Hx.
  - by apply IH.
Qed.

Lemma removelast_subset {A} (l : list A) (x : A) :
  x ∈ removelast l -> x ∈ l.
Proof.
  induction l as [|y l IH]; [done |].
  destruct l as [|z l].
  - simpl. intros Hx. by apply elem_of_nil in Hx.
  - change (removelast (y :: z :: l)) with (y :: removelast (z :: l)).
    intros Hx. apply elem_of_cons in Hx as [->|Hx]; [left | right; by apply IH].
Qed.

Lemma zip_pairs_elem (l : list nat) (s e : nat) :
  (s, e) ∈ zip (removelast l) (tail l) -> s ∈ l /\ e ∈ l.
Proof.
  intros Hin. split.
  - apply removelast_subset. apply (elem_of_zip_l _ _ _ _ Hin).
  - pose proof (elem_of_zip_r _ _ _ _ Hin) as He.
    destruct l; simpl in *; [by apply elem_of_nil in He | by right].
Qed.

Lemma zip_removelast_tail (k : nat) (ks : list nat) :
  zip (removelast (k :: ks)) ks = zip (k :: ks) ks.
Proof.
  revert k. induction ks as [|k' ks IH]; intros k; [reflexivity |].
  change (removelast (k :: k' :: ks)) with (k :: removelast (k' :: ks)).
  simpl. f_equal. apply IH.
Qed.

Lemma for_enumerate_cons {A St} (body : St -> nat -> A -> Outcome St)
    (x : A) (l : list A) (i : nat) (st : St) :
  for_enumerate body i (x :: l) st =
  (st' ← body st i x; for_enumerate body (S i) l st').
Proof. reflexivity. Qed.

Lemma zip_take {A B} (l : list A) (k : list B) (n : nat) :
  zip (take n l) k = take n (zip l k).
Proof.
  revert k n. induction l as [|x l IH]; intros [|y k] [|n]; simpl;
    rewrite ?IH; try reflexivity.
  all: by destruct (take n l).
Qed.

Lemma zip_drop {A B} (l : list A) (k : list B) (n : nat) :
  zip (drop n l) (drop n k) = drop n (zip l k).
Proof.
  revert k n. induction l as [|x l IH]; intros [|y k] [|n]; simpl;
    rewrite ?IH; try reflexivity.
  all: try by destruct (drop n k).
  all: by destruct (drop n l).
Qed.

Lemma integrate_all_app `{Preintegrator P} (p : P) (l1 l2 : list Sample) :
  integrate_all p (l1 ++ l2) = integrate_all (integrate_all p l1) l2.
Proof. apply fold_left_app. Qed.

(** ** The first loop: motion factors *)

Section FirstLoop.
Context {P : Type} `{Preintegrator P}.
Variable dts : list R.
Hypothesis dts_pos : Forall (fun x => (0 < x)%R) dts.

Lemma imu_body_quiet (st : ImuLoop) (i : nat) (m : Vec3 * Vec3) (d : R) :
  i <> (current_imu_factor_pair st).2 ->
  dts !! i = Some d ->
  imu_body dts st i m =
  Returns (mkImuLoop (factor_graph st)
             (integrate_sample (current_preintegrated_IMU st) (m, d))
             (current_imu_factor_pair st) (imu_factor_pairs st)).
Proof.
  intros Hne Hd. unfold imu_body.
  destruct (decide (i = (current_imu_factor_pair st).2)) as [Heq|_]; [done |].
  rewrite bind_Returns, (index_lookup _ _ _ Hd), bind_Returns.
  rewrite integrateMeasurement_pos by (by eapply lookup_pos). reflexivity.
Qed.

(** Between two pair ends the loop only integrates. *)
Lemma imu_loop_quiet (l : list (Vec3 * Vec3)) (i : nat) (st : ImuLoop) :
  (forall j, (i <= j < i + length l)%nat -> j <> (current_imu_factor_pair st).2) ->
  (i + length l <= length dts)%nat ->
  for_enumerate (imu_body dts) i l st =
  Returns (mkImuLoop (factor_graph st)
             (integrate_all (current_preintegrated_IMU st) (zip l (drop i dts)))
             (current_imu_factor_pair st) (imu_factor_pairs st)).
Proof.
  revert i st. induction l as [|m l IH]; intros i st Hne Hlen.
  - by destruct st.
  - simpl length in *.
    destruct (index_lt dts i ltac:(lia)) as (d & Hd & _).
    rewrite for_enumerate_cons, (imu_body_quiet st i m d), bind_Returns;
      [| apply Hne; lia | assumption].
    rewrite IH; cbn [factor_graph current_preintegrated_IMU
                     current_imu_factor_pair imu_factor_pairs].
    + rewrite (drop_lookup_cons _ _ _ Hd). reflexivity.
    + intros j Hj. apply Hne. lia.
    + lia.
Qed.

(** At a pair end the loop closes the factor, resets the engine, advances
    the iterator if it can, and then integrates the boundary sample. *)
Lemma imu_body_boundary (st : ImuLoop) (s e : nat) (m : Vec3 * Vec3) (d : R) :
  current_imu_factor_pair st = (s, e) ->
  Z.of_nat s <= indexMask -> Z.of_nat e <= indexMask ->
  dts !! e = Some d ->
  imu_body dts st e m =
  Returns (mkImuLoop
             (factor_graph st ++
                [ImuFactor (key_of "x" s) (key_of "v" s) (key_of "x" e) (key_of "v" e)
                   (key_of "b" 0) (current_preintegrated_IMU st)])
             (integrate_sample (resetIntegration (current_preintegrated_IMU st)) (m, d))
             (match imu_factor_pairs st with [] => (s, e) | q :: _ => q end)
             (tail (imu_factor_pairs st))).
Proof.
  intros Hcur Hs He Hd. unfold imu_body. rewrite Hcur.
  cbn [fst snd].
  destruct (decide (e = e)) as [_|Hne]; [| congruence].
  rewrite (symbol_fits "x" s), (symbol_fits "v" s), (symbol_fits "x" e),
    (symbol_fits "v" e) by assumption.
  rewrite symbol_b0, !bind_Returns.
  destruct (imu_factor_pairs st) as [|q it] eqn:Hit; cbn [next tail];
    rewrite ?bind_Returns, (index_lookup _ _ _ Hd), bind_Returns;
    cbn [current_preintegrated_IMU];
    rewrite integrateMeasurement_pos by (by eapply lookup_pos); reflexivity.
Qed.

(** One window: integrate up to the pair end, close the factor there and
    carry on after it. *)
Lemma imu_loop_window (l : list (Vec3 * Vec3)) (i s e : nat) (st : ImuLoop) :
  current_imu_factor_pair st = (s, e) ->
  (i <= e < i + length l)%nat ->
  (i + length l <= length dts)%nat ->
  Z.of_nat s <= indexMask -> Z.of_nat e <= indexMask ->
  exists smp,
    drop (e - i) (zip l (drop i dts)) = smp :: drop (S e - i) (zip l (drop i dts)) /\
    for_enumerate (imu_body dts) i l st =
    for_enumerate (imu_body dts) (S e) (drop (S e - i) l)
      (let p := integrate_all (current_preintegrated_IMU st)
                  (take (e - i) (zip l (drop i dts))) in
       mkImuLoop
         (factor_graph st ++
            [ImuFactor (key_of "x" s) (key_of "v" s) (key_of "x" e) (key_of "v" e)
               (key_of "b" 0) p])
         (integrate_sample (resetIntegration p) smp)
         (match imu_factor_pairs st with [] => (s, e) | q :: _ => q end)
         (tail (imu_factor_pairs st))).
Proof.
  intros Hcur Hie Hlen Hs He.
  assert (Hlt : (e - i < length l)%nat) by lia.
  destruct (lookup_lt_is_Some_2 l (e - i) Hlt) as [m Hm].
  destruct (index_lt dts e ltac:(lia)) as (d & Hd & _).
  exists (m, d). split.
  - replace (S e - i)%nat with (S (e - i)) by lia.
    apply drop_lookup_cons. rewrite lookup_zip_with, Hm. simpl.
    rewrite lookup_drop. replace (i + (e - i))%nat with e by lia. by rewrite Hd.
  - rewrite <- (take_drop (e - i) l) at 1.
    rewrite for_enumerate_app, length_take_le by lia.
    rewrite imu_loop_quiet.
    + rewrite bind_Returns, (drop_lookup_cons _ _ _ Hm), for_enumerate_cons.
      replace (i + (e - i))%nat with e by lia.
      rewrite (imu_body_boundary _ s e m d), bind_Returns; try assumption.
      replace (S e - i)%nat with (S (e - i)) by lia.
      cbn [factor_graph current_preintegrated_IMU
           current_imu_factor_pair imu_factor_pairs].
      rewrite zip_take. reflexivity.
    + rewrite length_take_le by lia. rewrite Hcur. simpl. intros j Hj. lia.
    + rewrite length_take_le by lia. lia.
Qed.

End FirstLoop.

(** ** The first loop on increasing keyframes *)

Section FirstLoopIncreasing.
Context {P : Type} `{Preintegrator P}.
Variable dts : list R.
Hypothesis dts_pos : Forall (fun x => (0 < x)%R) dts.

Lemma motion_factors_step (q : P) (i s e : nat) (smp : Sample) (rest : list Sample)
    (ks : list nat) :
  (i < e)%nat ->
  motion_factors q i (smp :: rest) s (e :: ks) =
  motion_factors (integrate_sample q smp) (S i) rest s (e :: ks).
Proof.
  intros Hie. cbn [motion_factors].
  replace (e - i)%nat with (S (e - S i)) by lia. reflexivity.
Qed.

Lemma motion_factors_cons (q : P) (i s e : nat) (rest : list Sample) (ks : list nat) :
  motion_factors q i rest s (e :: ks) =
  ImuFactor (key_of "x" s) (key_of "v" s) (key_of "x" e) (key_of "v" e)
    (key_of "b" 0) (integrate_all q (take (e - i) rest))
  :: motion_factors (resetIntegration (integrate_all q (take (e - i) rest))) e
       (drop (e - i) rest) e ks.
Proof. reflexivity. Qed.

Lemma imu_loop_increasing (ks : list nat) :
  forall (l : list (Vec3 * Vec3)) (i s e : nat) (st : ImuLoop),
  current_imu_factor_pair st = (s, e) ->
  imu_factor_pairs st = zip (e :: ks) ks ->
  increasing (e :: ks) ->
  (i <= e)%nat ->
  Forall (fun k => (k < i + length l)%nat) (e :: ks) ->
  (i + length l <= length dts)%nat ->
  Z.of_nat (i + length l) <= indexMask + 1 ->
  Z.of_nat s <= indexMask ->
  exists st',
    for_enumerate (imu_body dts) i l st = Returns st' /\
    factor_graph st' =
    factor_graph st ++
      motion_factors (current_preintegrated_IMU st) i (zip l (drop i dts)) s (e :: ks).
Proof.
  induction ks as [|k1 ks IH]; intros l i s e st Hcur Hit Hinc Hie Hall Hlen Hfit Hs.
  - apply Forall_cons in Hall as [He _].
    destruct (imu_loop_window dts dts_pos l i s e st Hcur ltac:(lia) Hlen Hs ltac:(lia))
      as (smp & _ & ->).
    rewrite (imu_loop_quiet dts dts_pos).
    + eexists. split; [reflexivity |]. reflexivity.
    + rewrite Hit. cbn. rewrite length_drop. intros j Hj. lia.
    + rewrite length_drop. lia.
  - apply Forall_cons in Hall as [He Hall].
    destruct Hinc as [Hek Hinc].
    destruct (imu_loop_window dts dts_pos l i s e st Hcur ltac:(lia) Hlen Hs ltac:(lia))
      as (smp & Hsmp & ->).
    rewrite Hit. cbn [zip zip_with tail].
    match goal with
    | |- context [for_enumerate _ _ _ ?st0] =>
        destruct (IH (drop (S e - i) l) (S e) e k1 st0) as (st' & Hrun & Hg);
          [reflexivity | reflexivity | exact Hinc | lia | | | | | ]
    end.
    + rewrite length_drop. eapply Forall_impl; [exact Hall |]. simpl. intros k Hk. lia.
    + rewrite length_drop. lia.
    + rewrite length_drop. lia.
    + lia.
    + exists st'. split; [exact Hrun |].
      rewrite Hg. cbn [factor_graph current_preintegrated_IMU].
      rewrite <- app_assoc. f_equal.
      rewrite (motion_factors_cons _ i s e). cbn [app]. f_equal.
      change (list Sample) with (list (Vec3 * Vec3 * R)) in *.
      unfold Sample in *. rewrite Hsmp. rewrite motion_factors_step by lia.
      replace (drop (S e) dts) with (drop (S e - i) (drop i dts))
        by (rewrite drop_drop; f_equal; lia).
      rewrite zip_drop. reflexivity.
Qed.

(** ** The first loop on any keyframe list: it runs to the end, and every
    factor it adds joins the two indices of a pair *)

Lemma imu_loop_total (l : list (Vec3 * Vec3)) :
  forall (i : nat) (st : ImuLoop),
  (i + length l <= length dts)%nat ->
  Forall pair_fits (current_imu_factor_pair st :: imu_factor_pairs st) ->
  exists st' ext,
    for_enumerate (imu_body dts) i l st = Returns st' /\
    factor_graph st' = factor_graph st ++ ext /\
    Forall (motion_between (current_imu_factor_pair st :: imu_factor_pairs st)) ext.
Proof.
  induction l as [|m l IH]; intros i st Hlen Hfit.
  - exists st, []. rewrite app_nil_r. by repeat split.
  - simpl length in Hlen.
    destruct (index_lt dts i ltac:(lia)) as (d & Hd & _).
    rewrite for_enumerate_cons.
    destruct (decide (i = (current_imu_factor_pair st).2)) as [Heq|Hne].
    + destruct (current_imu_factor_pair st) as [s e] eqn:Hcur. simpl in Heq. subst i.
      pose proof Hfit as Hfit'. apply Forall_cons in Hfit' as [[Hs He] Hrest].
      rewrite (imu_body_boundary dts dts_pos st s e m d Hcur Hs He Hd), bind_Returns.
      match goal with
      | |- context [for_enumerate _ _ _ ?st0] =>
          destruct (IH (S e) st0) as (st' & ext & Hrun & Hg & Hext); [| | rewrite Hrun]
      end.
      * cbn. lia.
      * cbn [current_imu_factor_pair imu_factor_pairs].
        destruct (imu_factor_pairs st) as [|q it]; [by repeat constructor |].
        exact Hrest.
      * eexists st', (_ :: ext). split; [reflexivity |]. split.
        -- rewrite Hg. cbn [factor_graph]. rewrite <- app_assoc. reflexivity.
        -- constructor.
           ++ exists s, e, (current_preintegrated_IMU st). split; [left | reflexivity].
           ++ eapply Forall_impl; [exact Hext |].
              cbn [current_imu_factor_pair imu_factor_pairs].
              intros f (s' & e' & p & Hin & ->). exists s', e', p. split; [| reflexivity].
              destruct (imu_factor_pairs st) as [|q it]; cbn [tail] in Hin.
              ** exact Hin.
              ** right. exact Hin.
    + rewrite (imu_body_quiet dts dts_pos st i m d Hne Hd), bind_Returns.
      match goal with
      | |- context [for_enumerate _ _ _ ?st0] =>
          destruct (IH (S i) st0) as (st' & ext & Hrun & Hg & Hext); [| | rewrite Hrun]
      end.
      * cbn. lia.
      * exact Hfit.
      * exists st', ext. split; [reflexivity |]. split; assumption.
Qed.

End FirstLoopIncreasing.

(** ** The second loop: initial values *)

Section SecondLoop.
Context {P : Type} `{Preintegrator P}.
Variable params : Params.
Variable steps : gset nat.
Variable dts : list R.
Hypothesis dts_pos : Forall (fun x => (0 < x)%R) dts.

Lemma Values_insert_fresh (k : Key) (v : Value) (vals : gmap Z Value) :
  vals !! k = None -> Values_insert k v vals = Returns (<[k:=v]> vals).
Proof. unfold Values_insert. intros ->. reflexivity. Qed.

Lemma init_body_skip (st : InitLoop) (i : nat) (m : Vec3 * Vec3) (d : R) :
  i ∉ steps -> dts !! i = Some d ->
  init_body params steps dts st i m =
  Returns (mkInitLoop (initial_values st) (integrate_sample (predicting_IMU st) (m, d))).
Proof.
  intros Hni Hd. unfold init_body.
  destruct (decide (i ∈ steps)) as [Hin|_]; [done |].
  rewrite bind_Returns, (index_lookup _ _ _ Hd), bind_Returns.
  rewrite integrateMeasurement_pos by (by eapply lookup_pos). reflexivity.
Qed.

Lemma init_body_keyframe (st : InitLoop) (i : nat) (m : Vec3 * Vec3) (d : R) :
  i ∈ steps -> dts !! i = Some d ->
  Z.of_nat i <= indexMask ->
  initial_values st !! key_of "x" i = None ->
  initial_values st !! key_of "v" i = None ->
  init_body params steps dts st i m =
  Returns (mkInitLoop
             (<[key_of "v" i :=
                  VVector (velocity (predict (predicting_IMU st) (initial_state params)
                                       (IMU_bias params)))]>
                (<[key_of "x" i :=
                     VPose3 (pose (predict (predicting_IMU st) (initial_state params)
                                     (IMU_bias params)))]>
                   (initial_values st)))
             (integrate_sample (predicting_IMU st) (m, d))).
Proof.
  intros Hin Hd Hfit Hx Hv. unfold init_body.
  destruct (decide (i ∈ steps)) as [_|Hni]; [| done].
  rewrite (symbol_fits "x" i), (symbol_fits "v" i) by assumption.
  rewrite bind_Returns, Values_insert_fresh, bind_Returns by assumption.
  rewrite bind_Returns, Values_insert_fresh, bind_Returns.
  - rewrite (index_lookup _ _ _ Hd), bind_Returns.
    rewrite integrateMeasurement_pos by (by eapply lookup_pos). reflexivity.
  - rewrite lookup_insert_ne; [assumption |].
    intros Heq. apply key_of_inj in Heq as [Hc _]; [discriminate | assumption..].
Qed.

(** The loop runs to the end; it never overwrites an entry; and for every
    keyframe index [j] it passes it stores the state predicted from the
    samples integrated before [j]. *)
Lemma init_loop_values (l : list (Vec3 * Vec3)) :
  forall (i : nat) (st : InitLoop),
  (i + length l <= length dts)%nat ->
  Z.of_nat (i + length l) <= indexMask + 1 ->
  (forall j, (i <= j < i + length l)%nat ->
     initial_values st !! key_of "x" j = None /\
     initial_values st !! key_of "v" j = None) ->
  exists st',
    for_enumerate (init_body params steps dts) i l st = Returns st' /\
    (forall k v, initial_values st !! k = Some v -> initial_values st' !! k = Some v) /\
    (forall j, (i <= j < i + length l)%nat -> j ∈ steps ->
       let ns := predict (integrate_all (predicting_IMU st)
                            (take (j - i) (zip l (drop i dts))))
                   (initial_state params) (IMU_bias params) in
       initial_values st' !! key_of "x" j = Some (VPose3 (pose ns)) /\
       initial_values st' !! key_of "v" j = Some (VVector (velocity ns))).
Proof.
  induction l as [|m l IH]; intros i st Hlen Hfit Hfresh.
  - exists st. split; [reflexivity |]. split; [auto |]. simpl. intros j Hj. lia.
  - simpl length in *.
    destruct (index_lt dts i ltac:(lia)) as (d & Hd & _).
    rewrite for_enumerate_cons.
    assert (Hstep : forall st1 : InitLoop,
      predicting_IMU st1 = integrate_sample (predicting_IMU st) (m, d) ->
      (forall j, (S i <= j < S i + length l)%nat ->
         initial_values st1 !! key_of "x" j = None /\
         initial_values st1 !! key_of "v" j = None) ->
      exists st',
        for_enumerate (init_body params steps dts) (S i) l st1 = Returns st' /\
        (forall k v, initial_values st1 !! k = Some v -> initial_values st' !! k = Some v) /\
        (forall j, (S i <= j < i + S (length l))%nat -> j ∈ steps ->
           let ns := predict (integrate_all (predicting_IMU st)
                                (take (j - i) (zip (m :: l) (drop i dts))))
                       (initial_state params) (IMU_bias params) in
           initial_values st' !! key_of "x" j = Some (VPose3 (pose ns)) /\
           initial_values st' !! key_of "v" j = Some (VVector (velocity ns)))).
    { intros st1 Hp1 Hfresh1.
      destruct (IH (S i) st1) as (st' & Hrun & Hmono & Hkey); [lia | lia | exact Hfresh1 |].
      exists st'. split; [exact Hrun |]. split; [exact Hmono |].
      intros j Hj Hin. specialize (Hkey j ltac:(lia) Hin). cbn zeta in Hkey.
      rewrite Hp1 in Hkey.
      rewrite (drop_lookup_cons _ _ _ Hd).
      replace (j - i)%nat with (S (j - S i)) by lia. exact Hkey. }
    destruct (decide (i ∈ steps)) as [Hin|Hni].
    + destruct (Hfresh i ltac:(lia)) as [Hx Hv].
      rewrite (init_body_keyframe st i m d Hin Hd ltac:(lia) Hx Hv), bind_Returns.
      match goal with
      | |- context [for_enumerate _ _ _ ?st0] =>
          destruct (Hstep st0) as (st' & Hrun & Hmono & Hkey); [reflexivity | |]
      end.
      * cbn [initial_values]. intros j Hj.
        destruct (Hfresh j ltac:(lia)) as [Hxj Hvj].
        rewrite !lookup_insert_ne; [by split | ..];
          intros Heq; apply key_of_inj in Heq as [Hc Hij]; try lia; discriminate.
      * exists st'. split; [exact Hrun |]. split.
        -- intros k v Hk. apply Hmono. cbn [initial_values].
           rewrite !lookup_insert_ne; [assumption | ..];
             intros Heq; rewrite <- Heq in Hk; congruence.
        -- intros j Hj Hjin. destruct (decide (j = i)) as [->|Hne].
           ++ rewrite Nat.sub_diag. cbn.
              split; apply Hmono; cbn [initial_values].
              ** rewrite lookup_insert_ne, lookup_insert_eq; [reflexivity |].
                 intros Heq. apply key_of_inj in Heq as [Hc _]; [discriminate | lia..].
              ** by rewrite lookup_insert_eq.
           ++ apply Hkey; [lia | assumption].
    + rewrite (init_body_skip st i m d Hni Hd), bind_Returns.
      match goal with
      | |- context [for_enumerate _ _ _ ?st0] =>
          destruct (Hstep st0) as (st' & Hrun & Hmono & Hkey); [reflexivity | |]
      end.
      * cbn [initial_values]. intros j Hj. apply Hfresh. lia.
      * exists st'. split; [exact Hrun |]. split; [exact Hmono |].
        intros j Hj Hjin. destruct (decide (j = i)) as [->|Hne]; [done |].
        apply Hkey; [lia | assumption].
Qed.

End SecondLoop.

(** ** Pieces of the script *)

Section Pieces.
Context {P : Type} `{Preintegrator P}.

Lemma symbol_m0 : symbol "m" 0 = Returns (key_of "m" 0).
Proof. reflexivity. Qed.

(** The five (or six) prior factors, in the order the script adds them. *)
Lemma add_priors_runs (t : Toggles) (params : Params) (steps : list nat)
    (g : list (Factor P)) (s0 sn : nat) :
  head steps = Some s0 -> last steps = Some sn ->
  Z.of_nat s0 <= indexMask -> Z.of_nat sn <= indexMask ->
  add_priors t params steps g =
  Returns
    ((((((g ++ [PriorFactorPose3 (key_of "x" s0) (pose (initial_state params))
                 (initial_pose_covariance params)])
          ++ [PriorFactorVector (key_of "v" s0) (velocity (initial_state params))
                (initial_velocity_covariance params)])
         ++ [PriorFactorConstantBias (key_of "b" 0) (IMU_bias params)
               (IMU_bias_covariance params)])
        ++ match USE_VISUAL_FACTORS t with
           | true => [PriorFactorPoint3 (key_of "m" 0) (mkVec3 1 0 0)
                        (Isotropic_Sigma 3 (5 / 100))]
           | false => []
           end)
       ++ [PriorFactorPose3 (key_of "x" sn) (pose (initial_state params))
             (initial_pose_covariance params)])
      ++ [PriorFactorVector (key_of "v" sn) (velocity (initial_state params))
            (initial_velocity_covariance params)]).
Proof.
  intros Hh Hl Hs0 Hsn. unfold add_priors.
  assert (index steps 0 = Returns s0) as ->.
  { apply index_lookup. by rewrite <- head_lookup. }
  assert (index_last steps = Returns sn) as ->.
  { unfold index_last. by rewrite Hl. }
  destruct (USE_VISUAL_FACTORS t);
    repeat first [ rewrite bind_Returns | rewrite symbol_b0 | rewrite symbol_m0
                 | progress cbv beta | rewrite symbol_fits by assumption ];
    rewrite ?app_nil_r; reflexivity.
Qed.

(** With fewer than two keyframes there is no pair to start from. *)
Lemma add_imu_factors_degenerate (d : Dataset) (pim : P) (g : list (Factor P)) :
  (length (keyframes d) < 2)%nat ->
  add_imu_factors d pim g = Raises StopIteration.
Proof.
  intros Hlen. unfold add_imu_factors.
  destruct (keyframes d) as [|k0 [|k1 ks]]; simpl in Hlen; try lia; reflexivity.
Qed.

Lemma pairs_cons (k0 k1 : nat) (ks : list nat) :
  zip (removelast (k0 :: k1 :: ks)) (tail (k0 :: k1 :: ks)) =
  (k0, k1) :: zip (k1 :: ks) ks.
Proof.
  change (removelast (k0 :: k1 :: ks)) with (k0 :: removelast (k1 :: ks)).
  cbn [tail zip zip_with]. by rewrite zip_removelast_tail.
Qed.

(** The first loop on any keyframe list whose indices are sample indices. *)
Lemma add_imu_factors_runs (d : Dataset) (pim : P) (g : list (Factor P)) :
  (2 <= length (keyframes d))%nat ->
  Forall (fun k => (k < imu_count d)%nat) (keyframes d) ->
  (imu_count d <= length (dt d))%nat ->
  Forall (fun x => (0 < x)%R) (dt d) ->
  Z.of_nat (imu_count d) <= indexMask + 1 ->
  exists st ext,
    add_imu_factors d pim g = Returns st /\
    factor_graph st = g ++ ext /\
    Forall (motion_between (zip (removelast (keyframes d)) (tail (keyframes d)))) ext.
Proof.
  intros Hlen Hall Hdt Hpos Hfit. unfold add_imu_factors.
  destruct (keyframes d) as [|k0 [|k1 ks]] eqn:Hk; simpl in Hlen; try lia.
  rewrite pairs_cons. cbn [next]. rewrite bind_Returns.
  match goal with
  | |- context [for_enumerate _ _ _ ?st0] =>
      destruct (imu_loop_total (dt d) Hpos (zip (acc d) (gyr d)) 0 st0)
        as (st & ext & Hrun & Hg & Hext)
  end.
  - exact Hdt.
  - cbn [current_imu_factor_pair imu_factor_pairs]. rewrite <- pairs_cons.
    apply Forall_forall. intros [s e] Hin.
    apply zip_pairs_elem in Hin as [Hs He].
    rewrite Forall_forall in Hall.
    apply Hall in Hs. apply Hall in He. unfold pair_fits. simpl. lia.
  - exists st, ext. split; [exact Hrun |]. split; [exact Hg |].
    cbn [current_imu_factor_pair imu_factor_pairs] in Hext. exact Hext.
Qed.

(** The first loop on increasing keyframes: one factor per pair, cut at the
    pair ends. *)
Lemma add_imu_factors_increasing (d : Dataset) (pim : P) (g : list (Factor P))
    (k0 : nat) (ks : list nat) :
  keyframes d = k0 :: ks -> ks <> [] ->
  increasing (k0 :: ks) ->
  Forall (fun k => (k < imu_count d)%nat) (k0 :: ks) ->
  (imu_count d <= length (dt d))%nat ->
  Forall (fun x => (0 < x)%R) (dt d) ->
  Z.of_nat (imu_count d) <= indexMask + 1 ->
  exists st,
    add_imu_factors d pim g = Returns st /\
    factor_graph st = g ++ motion_factors (resetIntegration pim) 0 (samples d) k0 ks.
Proof.
  intros Hk Hne Hinc Hall Hdt Hpos Hfit. unfold add_imu_factors. rewrite Hk.
  destruct ks as [|k1 ks]; [done |].
  rewrite pairs_cons. cbn [next]. rewrite bind_Returns.
  apply Forall_cons in Hall as [Hk0 Hall]. destruct Hinc as [_ Hinc].
  match goal with
  | |- context [for_enumerate _ _ _ ?st0] =>
      destruct (imu_loop_increasing (dt d) Hpos ks (zip (acc d) (gyr d)) 0 k0 k1 st0)
        as (st & Hrun & Hg); try reflexivity; try assumption; try lia
  end.
  exists st. split; [exact Hrun |]. rewrite Hg. reflexivity.
Qed.

End Pieces.

(** ** The assembled graph and values *)

Section Assembly.
Context {P : Type} `{Preintegrator P}.

(** With the visual switch off the script is [assemble_imu_only], and the
    world is left as it was. *)
Lemma assemble_without_visual (t : Toggles) (params : Params) (d : Dataset) (w : World) :
  USE_VISUAL_FACTORS t = false ->
  assemble t params d w = (assemble_imu_only t params d, w).
Proof.
  intros Huvf. unfold assemble, assemble_imu_only.
  rewrite liftO_bind.
  destruct (add_imu_factors d _ []) as [st|e]; [| reflexivity].
  rewrite bind_Returns, liftO_bind.
  destruct (add_priors t params (keyframes d) (factor_graph st)) as [g|e];
    [| reflexivity].
  rewrite bind_Returns.
  unfold add_visual_factors, add_initial_values. rewrite Huvf.
  unfold mbind, M_bind, mret, M_ret, liftO, Outcome_bind.
  rewrite symbol_b0.
  destruct (Values_insert _ _ ∅) as [vals|e]; [| reflexivity].
  destruct (for_enumerate _ 0 _ _) as [st2|e]; reflexivity.
Qed.

Lemma head_last_of_two {A} (l : list A) :
  (2 <= length l)%nat -> exists s0 sn, head l = Some s0 /\ last l = Some sn.
Proof.
  intros Hlen. destruct l as [|x l]; [simpl in Hlen; lia |].
  destruct (last (x :: l)) as [y|] eqn:Hl; [by exists x, y |].
  by apply last_None in Hl.
Qed.

(** On keyframes that are sample indices the IMU-only script runs to the
    end: the graph is the motion factors followed by the five priors, the
    values hold the bias and, for every keyframe, the state predicted from
    the samples before it. *)
Lemma assemble_runs (t : Toggles) (params : Params) (d : Dataset) (w : World) :
  USE_VISUAL_FACTORS t = false ->
  (2 <= length (keyframes d))%nat ->
  Forall (fun k => (k < imu_count d)%nat) (keyframes d) ->
  (imu_count d <= length (dt d))%nat ->
  Forall (fun x => (0 < x)%R) (dt d) ->
  Z.of_nat (imu_count d) <= indexMask + 1 ->
  exists st s0 sn vals,
    add_imu_factors d (create (preintegration_params params) (IMU_bias params)) []
      = Returns st /\
    Forall (motion_between (zip (removelast (keyframes d)) (tail (keyframes d))))
      (factor_graph st) /\
    head (keyframes d) = Some s0 /\ last (keyframes d) = Some sn /\
    assemble t params d w =
      (Returns (factor_graph st ++ imu_only_priors params s0 sn, vals), w) /\
    vals !! key_of "b" 0 = Some (VConstantBias (IMU_bias params)) /\
    (forall j, j ∈ keyframes d ->
       let ns := predict (integrate_all
                            (resetIntegration (current_preintegrated_IMU st))
                            (take j (samples d)))
                   (initial_state params) (IMU_bias params) in
       vals !! key_of "x" j = Some (VPose3 (pose ns)) /\
       vals !! key_of "v" j = Some (VVector (velocity ns))).
Proof.
  intros Huvf Hlen Hall Hdt Hpos Hfit.
  destruct (add_imu_factors_runs d
              (create (preintegration_params params) (IMU_bias params)) []
              Hlen Hall Hdt Hpos Hfit) as (st & ext & Hrun & Hg & Hext).
  destruct (head_last_of_two _ Hlen) as (s0 & sn & Hh & Hl).
  assert (Hs0 : (s0 < imu_count d)%nat).
  { rewrite Forall_forall in Hall. apply Hall.
    destruct (keyframes d); [done |]. inversion Hh; subst. by left. }
  assert (Hsn : (sn < imu_count d)%nat).
  { rewrite Forall_forall in Hall. apply Hall. by apply last_Some_elem_of. }
  set (vals0 := <[key_of "b" 0 := VConstantBias (IMU_bias params)]> (∅ : gmap Z Value)).
  destruct (init_loop_values params (list_to_set (keyframes d)) (dt d) Hpos
              (zip (acc d) (gyr d)) 0
              (mkInitLoop vals0 (resetIntegration (current_preintegrated_IMU st))))
    as (st2 & Hrun2 & Hmono & Hkey).
  { exact Hdt. }
  { exact Hfit. }
  { cbn [initial_values]. intros j Hj. unfold vals0.
    rewrite !lookup_insert_ne, lookup_empty; [by split | ..];
      intros Heq; apply key_of_inj in Heq as [Hc _]; try discriminate;
      unfold imu_count in *; lia. }
  exists st, s0, sn, (initial_values st2).
  split; [exact Hrun |]. split; [by rewrite Hg |].
  split; [exact Hh |]. split; [exact Hl |]. split; [| split].
  - rewrite (assemble_without_visual t params d w Huvf). f_equal.
    unfold assemble_imu_only. rewrite Hrun, bind_Returns.
    rewrite (add_priors_runs t params _ _ s0 sn Hh Hl) by lia.
    rewrite Huvf, app_nil_r, bind_Returns, symbol_b0, bind_Returns.
    change (Values_insert (key_of "b" 0) (VConstantBias (IMU_bias params)) ∅)
      with (Returns vals0).
    rewrite bind_Returns, Hrun2, bind_Returns.
    unfold imu_only_priors. rewrite <- !app_assoc. reflexivity.
  - apply Hmono. cbn [initial_values]. unfold vals0. by rewrite lookup_insert_eq.
  - intros j Hj.
    assert (Hjn : (j < imu_count d)%nat).
    { rewrite Forall_forall in Hall. by apply Hall. }
    specialize (Hkey j ltac:(unfold imu_count in *; lia)
                  ltac:(by apply elem_of_list_to_set)).
    cbn [predicting_IMU] in Hkey. rewrite Nat.sub_0_r, drop_0 in Hkey. exact Hkey.
Qed.

End Assembly.

(** ** Increasing lists and windows *)

Lemma increasing_cons_lt (x : nat) (l : list nat) :
  increasing (x :: l) -> Forall (fun y => (x < y)%nat) l.
Proof.
  revert x. induction l as [|y l IH]; intros x Hinc; [constructor |].
  destruct Hinc as [Hxy Hinc]. constructor; [exact Hxy |].
  eapply Forall_impl; [apply IH, Hinc |]. simpl. intros z Hz. lia.
Qed.

Lemma increasing_tail (x : nat) (l : list nat) :
  increasing (x :: l) -> increasing l.
Proof. intros [_ Hinc]. exact Hinc. Qed.

Lemma increasing_lookup_lt (l : list nat) (a b x y : nat) :
  increasing l -> l !! a = Some x -> l !! b = Some y -> (a < b)%nat -> (x < y)%nat.
Proof.
  revert a b. induction l as [|z l IH]; intros a b Hinc Ha Hb Hab; [done |].
  destruct b as [|b]; [lia |]. destruct a as [|a]; simpl in *.
  - inversion Ha; subst z.
    pose proof (increasing_cons_lt _ _ Hinc) as Hall. rewrite Forall_forall in Hall.
    apply Hall. by eapply list_elem_of_lookup_2.
  - eapply (IH a b); [by eapply increasing_tail | assumption.. | lia].
Qed.

Lemma increasing_lookup_inj (l : list nat) (a b x : nat) :
  increasing l -> l !! a = Some x -> l !! b = Some x -> a = b.
Proof.
  intros Hinc Ha Hb.
  destruct (Nat.lt_trichotomy a b) as [Hlt|[Heq|Hgt]]; [| exact Heq |].
  - pose proof (increasing_lookup_lt l a b x x Hinc Ha Hb Hlt). lia.
  - pose proof (increasing_lookup_lt l b a x x Hinc Hb Ha Hgt). lia.
Qed.

Lemma increasing_last_bound (l : list nat) (n : nat) :
  increasing l -> last l = Some n -> Forall (fun k => (k <= n)%nat) l.
Proof.
  intros Hinc Hl. apply Forall_forall. intros k Hk.
  apply list_elem_of_lookup in Hk as [a Ha].
  rewrite last_lookup in Hl.
  destruct (decide (a = pred (length l))) as [->|Hne].
  - rewrite Ha in Hl. inversion Hl. lia.
  - apply lookup_lt_Some in Ha as Hlt.
    pose proof (increasing_lookup_lt l a (pred (length l)) k n Hinc Ha Hl ltac:(lia)). lia.
Qed.

Lemma length_windows {A} (ks : list nat) (i : nat) (rest : list A) :
  length (windows i rest ks) = length ks.
Proof.
  revert i rest. induction ks as [|e ks IH]; intros i rest; simpl; [| rewrite IH]; done.
Qed.

(** The windows, put end to end, are the samples up to the last cut. *)
Lemma concat_windows {A} (ks : list nat) (i n : nat) (rest : list A) :
  increasing ks -> Forall (fun k => (i <= k)%nat) ks -> last ks = Some n ->
  concat (windows i rest ks) = take (n - i) rest.
Proof.
  revert i rest. induction ks as [|e ks IH]; intros i rest Hinc Hge Hl; [done |].
  apply Forall_cons in Hge as [Hie _].
  destruct ks as [|e' ks].
  - inversion Hl; subst. simpl. by rewrite app_nil_r.
  - rewrite last_cons_cons in Hl.
    change (windows i rest (e :: e' :: ks))
      with (take (e - i) rest :: windows e (drop (e - i) rest) (e' :: ks)).
    cbn [concat]. rewrite (IH e) ; [| by eapply increasing_tail | | exact Hl].
    + rewrite take_take_drop. f_equal.
      pose proof (increasing_last_bound _ _ Hinc (eq_trans (last_cons_cons _ _ _) Hl))
        as Hb.
      apply Forall_cons in Hb as [Hen _]. lia.
    + eapply Forall_impl; [apply (increasing_cons_lt _ _ Hinc) |]. simpl. lia.
Qed.

(** The [j]-th window runs from the previous cut (or the start) to the
    [j]-th cut. *)
Lemma windows_lookup {A} (ks : list nat) :
  forall (i : nat) (rest : list A) (j o e : nat),
  increasing ks -> Forall (fun k => (i <= k)%nat) ks ->
  (i :: ks) !! j = Some o -> ks !! j = Some e ->
  windows i rest ks !! j = Some (take (e - o) (drop (o - i) rest)).
Proof.
  induction ks as [|e0 ks IH]; intros i rest j o e Hinc Hge Ho He; [done |].
  apply Forall_cons in Hge as [Hie _].
  destruct j as [|j]; simpl in Ho, He.
  - inversion Ho; inversion He; subst. simpl. by rewrite Nat.sub_diag.
  - change (windows i rest (e0 :: ks) !! S j)
      with (windows e0 (drop (e0 - i) rest) ks !! j).
    rewrite (IH e0 _ j o e); [| by eapply increasing_tail | | exact Ho | exact He].
    + rewrite drop_drop. do 3 f_equal.
      assert (e0 <= o)%nat; [| lia].
      destruct j as [|j]; simpl in Ho; [inversion Ho; lia |].
      pose proof (increasing_cons_lt _ _ Hinc) as Hall. rewrite Forall_forall in Hall.
      apply Nat.lt_le_incl, Hall. by eapply list_elem_of_lookup_2.
    + eapply Forall_impl; [apply (increasing_cons_lt _ _ Hinc) |]. simpl. lia.
Qed.

(** ** Motion factors: keys and recorded samples *)

Lemma imu_factors_app {P} (g1 g2 : list (Factor P)) :
  imu_factors (g1 ++ g2) = imu_factors g1 ++ imu_factors g2.
Proof. apply omap_app. Qed.

Lemma imu_factors_cons {P} (xi vi xj vj b : Z) (p : P) (g : list (Factor P)) :
  imu_factors (ImuFactor xi vi xj vj b p :: g) = (xi, vi, xj, vj, b, p) :: imu_factors g.
Proof. reflexivity. Qed.

Lemma motion_factors_keys `{Preintegrator P} (ks : list nat) :
  forall (p : P) (i : nat) (rest : list Sample) (s : nat),
  (imu_factors (motion_factors p i rest s ks)).*1 = pair_keys <$> zip (s :: ks) ks.
Proof.
  induction ks as [|e ks IH]; intros p i rest s; [reflexivity |].
  rewrite motion_factors_cons, imu_factors_cons.
  change (zip (s :: e :: ks) (e :: ks)) with ((s, e) :: zip (e :: ks) ks).
  rewrite !fmap_cons, IH. reflexivity.
Qed.

Lemma recorder_integrate_all {P} (E : Preintegrator P) (l : list Sample) :
  forall (q : P) (tr : list Sample),
  integrate_all (H := Recorder.engine E) (q, tr) l = (integrate_all q l, tr ++ l).
Proof.
  induction l as [|[[a g] d] l IH]; intros q tr.
  - simpl. by rewrite app_nil_r.
  - change (integrate_all (H := Recorder.engine E) (q, tr) ((a, g, d) :: l))
      with (integrate_all (H := Recorder.engine E)
              (update q a g d, tr ++ [(a, g, d)]) l).
    rewrite IH, <- app_assoc. reflexivity.
Qed.

Lemma motion_factors_records {P} (E : Preintegrator P) (ks : list nat) :
  forall (q : P) (i : nat) (rest : list Sample) (s : nat),
  Recorder.records (motion_factors (H := Recorder.engine E) (q, []) i rest s ks) =
  windows i rest ks.
Proof.
  induction ks as [|e ks IH]; intros q i rest s; [reflexivity |].
  rewrite motion_factors_cons, recorder_integrate_all.
  unfold Recorder.records in *. rewrite imu_factors_cons.
  cbn [map snd app windows]. f_equal. apply IH.
Qed.

(** ** The assembled graph on increasing keyframes *)

Lemma last_cons_ne {A} (x : A) (l : list A) (y : A) :
  last l = Some y -> last (x :: l) = Some y.
Proof. destruct l; [done |]. by rewrite last_cons_cons. Qed.

Lemma length_samples (d : Dataset) :
  (imu_count d <= length (dt d))%nat -> length (samples d) = imu_count d.
Proof.
  intros Hdt. unfold samples, imu_count in *. rewrite length_zip_with. lia.
Qed.

Lemma assemble_increasing `{Preintegrator P} (t : Toggles) (params : Params)
    (d : Dataset) (w : World) (k0 kn : nat) (ks : list nat) :
  USE_VISUAL_FACTORS t = false ->
  keyframes d = k0 :: ks -> last ks = Some kn ->
  increasing (k0 :: ks) ->
  (kn < imu_count d)%nat ->
  (imu_count d <= length (dt d))%nat ->
  Forall (fun x => (0 < x)%R) (dt d) ->
  Z.of_nat (imu_count d) <= indexMask + 1 ->
  exists vals,
    assemble t params d w =
    (Returns (motion_factors
                (resetIntegration (create (preintegration_params params) (IMU_bias params)))
                0 (samples d) k0 ks
              ++ imu_only_priors params k0 kn, vals), w).
Proof.
  intros Huvf Hk Hl Hinc Hkn Hdt Hpos Hfit.
  assert (Hne : ks <> []) by (intros ->; discriminate).
  assert (Hall : Forall (fun k => (k < imu_count d)%nat) (k0 :: ks)).
  { eapply Forall_impl;
      [apply (increasing_last_bound _ kn Hinc), last_cons_ne, Hl |].
    simpl. lia. }
  destruct (assemble_runs t params d w Huvf) as
    (st & s0 & sn & vals & Hrun & _ & Hh & Hl' & Hasm & _); rewrite ?Hk; try assumption.
  { destruct ks; [done |]. simpl. lia. }
  destruct (add_imu_factors_increasing d
              (create (preintegration_params params) (IMU_bias params)) [] k0 ks
              Hk Hne Hinc Hall Hdt Hpos Hfit) as (st' & Hrun' & Hg).
  rewrite Hrun in Hrun'. inversion Hrun'; subst st'.
  rewrite Hk in Hh, Hl'. simpl in Hh. inversion Hh; subst s0.
  rewrite (last_cons_ne _ _ _ Hl) in Hl'. inversion Hl'; subst sn.
  exists vals. rewrite Hasm, Hg. reflexivity.
Qed.

(** ** One factor per pair, and where the boundary sample goes *)

Lemma head_take_drop {A} (l : list A) (n e : nat) :
  (0 < n)%nat -> head (take n (drop e l)) = l !! e.
Proof.
  intros Hn. rewrite head_lookup, lookup_take_lt, lookup_drop by lia.
  by rewrite Nat.add_0_r.
Qed.

Lemma imu_factors_with_priors {P} (g : list (Factor P)) (params : Params) (s0 sn : nat) :
  imu_factors (g ++ imu_only_priors params s0 sn) = imu_factors g.
Proof. rewrite imu_factors_app. apply app_nil_r. Qed.

(** ** Prediction over an empty window *)

Lemma strapdown_predict_after_reset (p : Strapdown.PIM) (s : NavState) (b : ConstantBias) :
  Strapdown.predict_state (Strapdown.reset p) s b = s.
Proof.
  destruct s as [[[[a11 a12 a13] [a21 a22 a23] [a31 a32 a33]] [tx ty tz]] [ux uy uz]].
  unfold Strapdown.predict_state, Strapdown.reset, Strapdown.compose,
    Strapdown.row_times, Strapdown.rotate, Strapdown.vadd, Strapdown.vscale,
    Strapdown.vdot, Strapdown.col1, Strapdown.col2, Strapdown.col3,
    Strapdown.rot_identity, zero3.
  cbn [Strapdown.deltaTij Strapdown.deltaRij Strapdown.deltaPij Strapdown.deltaVij
       Strapdown.params pose velocity rotation translation row1 row2 row3 vx vy vz].
  repeat f_equal; first [ring | field].
Qed.

(** ** What the optimizer run leaves in the script's hands *)




Lemma GaussNewtonOptimizer_rejects {P} (g : list (Factor P)) (vals : gmap Z Value)
    (params : GaussNewtonParams) (f : Factor P) (k : Key) :
  f ∈ g -> k ∈ keys f -> vals !! k = None ->
  GaussNewtonOptimizer g vals params = Raises RuntimeError.
Proof.
  intros Hf Hk Hnone. unfold GaussNewtonOptimizer. rewrite decide_False; [reflexivity |].
  intros Hall. unfold keys_have_values in Hall. rewrite Forall_forall in Hall.
  specialize (Hall f Hf). rewrite Forall_forall in Hall.
  destruct (Hall k Hk) as [v Hv]. congruence.
Qed.




(** With the visual switch off the whole script is [assemble_imu_only]
    followed by the optimizer and the plots, and the world is left as it
    was. *)
Lemma main_without_visual `{Preintegrator P} `{Solver P} (t : Toggles) (params : Params)
    (library_defaults : GaussNewtonParams) (d : Dataset) (w : World) :
  USE_VISUAL_FACTORS t = false ->
  main t params library_defaults d w =
  (match assemble_imu_only t params d with
   | Returns (g, vals) =>
       optimize_and_plot t library_defaults (keyframes d) g None vals
   | Raises e => Raises e
   end, w).
Proof.
  intros Huvf. unfold main, assemble_imu_only. cbv zeta.
  rewrite liftO_bind.
  destruct (add_imu_factors d _ []) as [st|e]; [| reflexivity].
  rewrite bind_Returns, liftO_bind.
  destruct (add_priors t params (keyframes d) (factor_graph st)) as [g|e];
    [| reflexivity].
  rewrite bind_Returns.
  unfold add_visual_factors, add_initial_values, optimize_and_plot. rewrite Huvf.
  unfold mbind, M_bind, mret, M_ret, liftO, Outcome_bind.
  rewrite symbol_b0.
  destruct (Values_insert _ _ ∅) as [vals|e]; [| reflexivity].
  destruct (for_enumerate _ 0 _ _) as [st2|e]; [| reflexivity].
  destruct (GaussNewtonOptimizer g _ _) as [o|e]; [| reflexivity].
  destruct (optimize o) as [o' res].
  destruct (plot_the_solution t (keyframes d) _) as [shown|e]; reflexivity.
Qed.


Section WholeRun.
Context {P : Type} `{Preintegrator P}.

(** On keyframes that are sample indices, every key of the IMU-only graph
    has an entry in the initial values, the pose keys hold poses and the
    bias key holds a bias. *)
Lemma assemble_runs_keys (t : Toggles) (params : Params) (d : Dataset) (w : World) :
  USE_VISUAL_FACTORS t = false ->
  (2 <= length (keyframes d))%nat ->
  Forall (fun k => (k < imu_count d)%nat) (keyframes d) ->
  (imu_count d <= length (dt d))%nat ->
  Forall (fun x => (0 < x)%R) (dt d) ->
  Z.of_nat (imu_count d) <= indexMask + 1 ->
  exists g vals,
    assemble t params d w = (Returns (g, vals), w) /\
    keys_have_values g vals /\
    (forall j, j ∈ keyframes d -> exists p, vals !! key_of "x" j = Some (VPose3 p)) /\
    vals !! key_of "b" 0 = Some (VConstantBias (IMU_bias params)).
Proof.
  intros Huvf Hlen Hall Hdt Hpos Hfit.
  destruct (assemble_runs t params d w Huvf Hlen Hall Hdt Hpos Hfit)
    as (st & s0 & sn & vals & _ & Hmot & Hh & Hl & Hrun & Hb & Hkf).
  exists (factor_graph st ++ imu_only_priors params s0 sn), vals.
  split; [exact Hrun |].
  assert (Hx : forall j, j ∈ keyframes d -> is_Some (vals !! key_of "x" j)).
  { intros j Hj. destruct (Hkf j Hj) as [-> _]. eauto. }
  assert (Hv : forall j, j ∈ keyframes d -> is_Some (vals !! key_of "v" j)).
  { intros j Hj. destruct (Hkf j Hj) as [_ ->]. eauto. }
  assert (Hs0 : s0 ∈ keyframes d).
  { destruct (keyframes d); [done |]. inversion Hh; subst. by left. }
  assert (Hsn : sn ∈ keyframes d) by by apply last_Some_elem_of.
  split; [| split; [| exact Hb]].
  - unfold keys_have_values. apply Forall_forall. intros f Hf.
    apply Forall_forall. intros k Hk. apply elem_of_app in Hf as [Hf|Hf].
    + rewrite Forall_forall in Hmot.
      destruct (Hmot f Hf) as (s & e & p & Hin & ->).
      apply zip_pairs_elem in Hin as [Hs He]. cbn [keys] in Hk.
      repeat (apply elem_of_cons in Hk as [->|Hk]);
        try (by apply elem_of_nil in Hk); eauto.
    + unfold imu_only_priors in Hf.
      repeat (apply elem_of_cons in Hf as [->|Hf]);
        try (by apply elem_of_nil in Hf);
        cbn [keys] in Hk; apply list_elem_of_singleton in Hk as ->; eauto.
  - intros j Hj. destruct (Hkf j Hj) as [-> _]. eauto.
Qed.


End WholeRun.

(** ** The return-to-start priors *)

Lemma symbol_inv (c : ascii) (i : nat) (k : Z) :
  symbol c i = Returns k -> k = key_of c i.
Proof.
  unfold symbol. destruct (Z.of_nat i >? indexMask); [discriminate |].
  by inversion 1.
Qed.

Lemma index_last_inv {A} (l : list A) (x : A) :
  index_last l = Returns x -> last l = Some x.
Proof. unfold index_last. destruct (last l); [by inversion 1 | discriminate]. Qed.

Section ReturnPriors.
Context {P : Type} `{Preintegrator P}.

(** A run of [add_priors] that returns has put the two priors on the last
    keyframe at the end of the graph. *)
Lemma add_priors_inv (t : Toggles) (params : Params) (steps : list nat)
    (g g' : list (Factor P)) :
  add_priors t params steps g = Returns g' ->
  exists sn g0,
    last steps = Some sn /\
    g' = (g0 ++ [PriorFactorPose3 (key_of "x" sn) (pose (initial_state params))
                   (initial_pose_covariance params)])
         ++ [PriorFactorVector (key_of "v" sn) (velocity (initial_state params))
               (initial_velocity_covariance params)].
Proof.
  unfold add_priors. intros Hrun.
  apply bind_inv in Hrun as (s0 & _ & Hrun).
  apply bind_inv in Hrun as (x0 & _ & Hrun).
  apply bind_inv in Hrun as (s0' & _ & Hrun).
  apply bind_inv in Hrun as (v0 & _ & Hrun).
  apply bind_inv in Hrun as (b0 & _ & Hrun).
  apply bind_inv in Hrun as (g1 & _ & Hrun).
  apply bind_inv in Hrun as (sn & Hsn & Hrun).
  apply bind_inv in Hrun as (xn & Hxn & Hrun).
  apply bind_inv in Hrun as (sn' & Hsn' & Hrun).
  apply bind_inv in Hrun as (vn & Hvn & Hrun).
  rewrite Hsn in Hsn'. inversion Hsn'; subst sn'.
  apply symbol_inv in Hxn as ->. apply symbol_inv in Hvn as ->.
  apply index_last_inv in Hsn.
  inversion Hrun. by exists sn, g1.
Qed.

Lemma projection_loop_appends (steps : list nat) (cals : list Cal3DS2) (idx : nat)
    (occs : list (nat * Point2)) :
  forall (i : nat) (g g' : list (Factor P)),
  for_enumerate (projection_body steps cals idx) i occs g = Returns g' ->
  exists ext, g' = g ++ ext.
Proof.
  induction occs as [|occ occs IH]; intros i g g' Hrun.
  - inversion Hrun. exists []. by rewrite app_nil_r.
  - rewrite for_enumerate_cons in Hrun.
    apply bind_inv in Hrun as (g1 & Hbody & Hrun).
    unfold projection_body in Hbody.
    apply bind_inv in Hbody as (s & _ & Hbody).
    apply bind_inv in Hbody as (kx & _ & Hbody).
    apply bind_inv in Hbody as (kr & _ & Hbody).
    apply bind_inv in Hbody as (km & _ & Hbody).
    apply bind_inv in Hbody as (K & _ & Hbody).
    inversion Hbody; subst g1.
    apply IH in Hrun as [ext ->]. eexists. by rewrite <- app_assoc.
Qed.

Lemma landmark_loop_appends (steps : list nat) (cals : list Cal3DS2) (lms : Matching) :
  forall (i : nat) (g g' : list (Factor P)),
  for_enumerate (landmark_body steps cals) i lms g = Returns g' ->
  exists ext, g' = g ++ ext.
Proof.
  induction lms as [|occs lms IH]; intros i g g' Hrun.
  - inversion Hrun. exists []. by rewrite app_nil_r.
  - rewrite for_enumerate_cons in Hrun.
    apply bind_inv in Hrun as (g1 & Hbody & Hrun).
    apply projection_loop_appends in Hbody as [ext1 ->].
    apply IH in Hrun as [ext ->]. eexists. by rewrite <- app_assoc.
Qed.

Lemma add_visual_factors_appends (t : Toggles) (d : Dataset) (g g' : list (Factor P))
    (lm : option Matching) (w w' : World) :
  add_visual_factors t d g w = (Returns (g', lm), w') ->
  exists ext, g' = g ++ ext.
Proof.
  unfold add_visual_factors. destruct (USE_VISUAL_FACTORS t).
  - unfold mbind, M_bind, mret, M_ret, liftO.
    destruct (matching_cache t d _ w) as [[lms|e] w1]; [| discriminate].
    destruct (for_enumerate _ 0 lms g) as [g1|e] eqn:Hloop; [| discriminate].
    intros Heq. inversion Heq; subst.
    by eapply landmark_loop_appends.
  - intros Heq. inversion Heq. exists []. by rewrite app_nil_r.
Qed.

(** Whatever the switches, a graph the script assembles contains the pose
    and velocity priors on the last keyframe. *)
Lemma return_priors_always (t : Toggles) (params : Params) (d : Dataset)
    (w w' : World) (g : list (Factor P)) (vals : gmap Z Value) :
  assemble t params d w = (Returns (g, vals), w') ->
  exists sn,
    last (keyframes d) = Some sn /\
    PriorFactorPose3 (key_of "x" sn) (pose (initial_state params))
      (initial_pose_covariance params) ∈ g /\
    PriorFactorVector (key_of "v" sn) (velocity (initial_state params))
      (initial_velocity_covariance params) ∈ g.
Proof.
  unfold assemble. rewrite liftO_bind.
  destruct (add_imu_factors d _ []) as [st|e]; [| discriminate].
  rewrite liftO_bind.
  destruct (add_priors t params (keyframes d) (factor_graph st)) as [g1|e] eqn:Hp;
    [| discriminate].
  unfold mbind, M_bind, mret, M_ret.
  destruct (add_visual_factors t d g1 w) as [[[g2 lm]|e] w1] eqn:Hv; [| discriminate].
  destruct (add_initial_values t params d _ lm w1) as [[vals'|e] w2]; [| discriminate].
  intros Heq. inversion Heq; subst.
  apply add_priors_inv in Hp as (sn & g0 & Hl & ->).
  apply add_visual_factors_appends in Hv as [ext ->].
  exists sn. split; [exact Hl |]. split.
  - rewrite !elem_of_app. left. left. right. by left.
  - rewrite !elem_of_app. left. right. by left.
Qed.

End ReturnPriors.

Lemma assemble_on_thirteen :
  exists g vals,
    assemble (H := Strapdown.engine) shipped Examples.upright Examples.thirteen
      (Examples.world Absent) = (Returns (g, vals), Examples.world Absent).
Proof.
  destruct (assemble_runs (H := Strapdown.engine) shipped Examples.upright
              Examples.thirteen (Examples.world Absent) eq_refl)
    as (st & s0 & sn & vals & _ & _ & _ & _ & Hrun & _);
    [vm_compute; lia | vm_compute; repeat constructor | vm_compute; lia
    | repeat constructor; simpl; lra | vm_compute; discriminate |].
  eauto.
Qed.

(** ** The recording engine does not change the run *)

Lemma outcome_rel_bind {A B A' B'} (R : A -> A' -> Prop) (Q : B -> B' -> Prop)
    (c : Outcome A) (c' : Outcome A') (f : A -> Outcome B) (f' : A' -> Outcome B') :
  outcome_rel R c c' ->
  (forall a a', R a a' -> outcome_rel Q (f a) (f' a')) ->
  outcome_rel Q (c ≫= f) (c' ≫= f').
Proof.
  intros Hc Hf. destruct c as [a|e], c' as [a'|e']; simpl in *; try done.
  by apply Hf.
Qed.

Lemma outcome_rel_eq {A} (c : Outcome A) : outcome_rel eq c c.
Proof. by destruct c. Qed.

Lemma for_enumerate_sim {A S1 S2} (R : S1 -> S2 -> Prop)
    (body1 : S1 -> nat -> A -> Outcome S1) (body2 : S2 -> nat -> A -> Outcome S2) :
  (forall s1 s2 i x, R s1 s2 -> outcome_rel R (body1 s1 i x) (body2 s2 i x)) ->
  forall l i s1 s2, R s1 s2 ->
  outcome_rel R (for_enumerate body1 i l s1) (for_enumerate body2 i l s2).
Proof.
  intros Hbody. induction l as [|x l IH]; intros i s1 s2 HR; [exact HR |].
  rewrite !for_enumerate_cons.
  eapply outcome_rel_bind; [by apply Hbody |]. intros a a' Ha. by apply IH.
Qed.

Section Transparency.
Context {P : Type} (E : Preintegrator P).

Lemma imu_body_transparent (dts : list R) (sr : ImuLoop) (s : ImuLoop) (i : nat)
    (m : Vec3 * Vec3) :
  imu_loops_agree sr s ->
  outcome_rel imu_loops_agree
    (imu_body (H := Recorder.engine E) dts sr i m) (imu_body (H := E) dts s i m).
Proof.
  intros (Hg & Hp & Hc & Hit). unfold imu_body. rewrite Hc, Hit.
  eapply outcome_rel_bind with (R := imu_loops_agree).
  - destruct (decide (i = (current_imu_factor_pair sr).2)) as [Hi|Hi];
      [| by repeat split].
    destruct (symbol "x" (current_imu_factor_pair sr).1) as [xi|e]; [| done].
    destruct (symbol "v" (current_imu_factor_pair sr).1) as [vi|e]; [| done].
    destruct (symbol "x" (current_imu_factor_pair sr).2) as [xj|e]; [| done].
    destruct (symbol "v" (current_imu_factor_pair sr).2) as [vj|e]; [| done].
    rewrite symbol_b0, !bind_Returns.
    destruct (imu_factor_pairs sr) as [|q it]; cbn [next];
      (repeat split; cbn [factor_graph current_preintegrated_IMU
                          current_imu_factor_pair imu_factor_pairs];
       [rewrite map_app, Hg, Hp; reflexivity | by rewrite Hp | done..]).
  - intros a a' (Hg' & Hp' & Hc' & Hit').
    destruct (index dts i) as [dt|e]; [| done].
    rewrite !bind_Returns. unfold integrateMeasurement.
    destruct (Rle_dec dt 0); [done |].
    rewrite !bind_Returns. repeat split; cbn; try done. by rewrite Hp'.
Qed.

Lemma add_imu_factors_transparent (d : Dataset) (pim : P * list Sample) :
  outcome_rel imu_loops_agree
    (add_imu_factors (H := Recorder.engine E) d pim [])
    (add_imu_factors (H := E) d pim.1 []).
Proof.
  unfold add_imu_factors.
  destruct (next _) as [[cur it]|e]; [| done].
  rewrite !bind_Returns. apply for_enumerate_sim.
  - intros. by apply imu_body_transparent.
  - by repeat split.
Qed.

Lemma add_priors_transparent (t : Toggles) (params : Params) (steps : list nat)
    (g : list (Factor (P * list Sample))) :
  outcome_rel (fun gr g0 => g0 = map Recorder.forget gr)
    (add_priors t params steps g) (add_priors t params steps (map Recorder.forget g)).
Proof.
  unfold add_priors.
  destruct (index steps 0) as [s0|e]; [| done]. rewrite !bind_Returns.
  destruct (symbol "x" s0) as [x0|e]; [| done]. rewrite !bind_Returns.
  destruct (symbol "v" s0) as [v0|e]; [| done]. rewrite symbol_b0, !bind_Returns.
  eapply outcome_rel_bind with (R := fun gr g0 => g0 = map Recorder.forget gr).
  - destruct (USE_VISUAL_FACTORS t); rewrite ?symbol_m0, ?bind_Returns; simpl;
      by rewrite !map_app.
  - intros gr g0 ->.
    destruct (index_last steps) as [sn|e]; [| done]. rewrite !bind_Returns.
    destruct (symbol "x" sn) as [xn|e]; [| done]. rewrite !bind_Returns.
    destruct (symbol "v" sn) as [vn|e]; [| done]. rewrite !bind_Returns.
    simpl. by rewrite !map_app.
Qed.

Lemma init_body_transparent (params : Params) (steps : gset nat) (dts : list R)
    (sr : InitLoop) (s : InitLoop) (i : nat) (m : Vec3 * Vec3) :
  init_loops_agree sr s ->
  outcome_rel init_loops_agree
    (init_body (H := Recorder.engine E) params steps dts sr i m)
    (init_body (H := E) params steps dts s i m).
Proof.
  destruct sr as [vr pr], s as [v p]. intros (Hv & Hp). cbn in Hv, Hp. subst v p.
  unfold init_body. cbn [initial_values predicting_IMU].
  eapply outcome_rel_bind with (R := eq).
  - apply outcome_rel_eq.
  - intros vals ? <-. destruct (index dts i) as [dt|e]; [| done].
    rewrite !bind_Returns. unfold integrateMeasurement.
    destruct (Rle_dec dt 0); [done |].
    rewrite !bind_Returns. by split.
Qed.

(** With the visual switch off, the script run over a recording engine and
    the script run over the wrapped engine end alike: same exception, or the
    same initial values and the same graph up to the records. *)
Lemma recorder_transparent (t : Toggles) (params : Params) (d : Dataset) :
  outcome_rel results_agree
    (assemble_imu_only (H := Recorder.engine E) t params d)
    (assemble_imu_only (H := E) t params d).
Proof.
  unfold assemble_imu_only.
  eapply outcome_rel_bind; [apply add_imu_factors_transparent |].
  intros sr s (Hg & Hp & _ & _). rewrite Hg.
  eapply outcome_rel_bind; [apply add_priors_transparent |].
  intros gr g0 ->. rewrite symbol_b0, !bind_Returns.
  destruct (Values_insert _ _ ∅) as [vals|e]; [| done]. rewrite !bind_Returns.
  eapply outcome_rel_bind with (R := init_loops_agree).
  - apply for_enumerate_sim.
    + intros. by apply init_body_transparent.
    + split; cbn; [done | by rewrite Hp].
  - intros ar a (Hv & _). unfold results_agree. simpl. by rewrite Hv.
Qed.

Lemma recorder_transparent_run (t : Toggles) (params : Params) (d : Dataset) (w : World) :
  USE_VISUAL_FACTORS t = false ->
  outcome_rel results_agree
    (assemble (H := Recorder.engine E) t params d w).1
    (assemble (H := E) t params d w).1.
Proof.
  intros Huvf. rewrite !assemble_without_visual by assumption.
  apply recorder_transparent.
Qed.

End Transparency.

(** * Further lemmas on the script *)

(** ** Frame positions and decimated keyframes *)

Lemma length_eq_of_lookups {A B} (l : list A) (k : list B) :
  (forall j, is_Some (l !! j) <-> is_Some (k !! j)) -> length l = length k.
Proof.
  intros Hlk.
  destruct (Nat.lt_trichotomy (length l) (length k)) as [Hlt|[Heq|Hgt]]; [| exact Heq |].
  - apply lookup_lt_is_Some_2, Hlk, lookup_lt_is_Some_1 in Hlt. lia.
  - apply lookup_lt_is_Some_2, Hlk, lookup_lt_is_Some_1 in Hgt. lia.
Qed.

Lemma range_step_lookup (stop step j : nat) :
  (0 < step)%nat ->
  range_step stop step !! j = if decide (j * step < stop)%nat then Some (j * step)%nat else None.
Proof.
  intros Hs. unfold range_step. rewrite slice_step_lookup by assumption.
  destruct (decide (j * step < stop)%nat) as [Hlt|Hge].
  - by rewrite lookup_seq_lt.
  - apply lookup_seq_ge. lia.
Qed.

Lemma keyframes_lookup (d : Dataset) (j : nat) :
  keyframes d !! j = preintegration_steps d !! (j * PREINTEGRATE_EVERY_FRAMES)%nat.
Proof. apply slice_step_lookup. unfold PREINTEGRATE_EVERY_FRAMES. lia. Qed.

(** ** The first loop on any keyframe list *)

Lemma index_inv {A} (l : list A) (i : nat) (x : A) :
  index l i = Returns x -> l !! i = Some x.
Proof. unfold index. destruct (l !! i); [by inversion 1 | discriminate]. Qed.

Lemma index_ge {A} (l : list A) (i : nat) :
  (length l <= i)%nat -> index l i = Raises IndexError.
Proof. intros Hi. unfold index. by rewrite lookup_ge_None_2. Qed.

Section FirstLoopAny.
Context {P : Type} `{Preintegrator P}.
Variable dts : list R.

(** One iteration that does not raise: either it only integrated, or it
    closed the factor of the current pair first. *)
Lemma imu_body_inv (st st' : ImuLoop) (i : nat) (m : Vec3 * Vec3) :
  imu_body dts st i m = Returns st' ->
  exists d, dts !! i = Some d /\ (0 < d)%R /\
    ((i <> (current_imu_factor_pair st).2 /\
      st' = mkImuLoop (factor_graph st)
              (integrate_sample (current_preintegrated_IMU st) (m, d))
              (current_imu_factor_pair st) (imu_factor_pairs st)) \/
     (i = (current_imu_factor_pair st).2 /\
      st' = mkImuLoop
              (factor_graph st ++
                 [ImuFactor (key_of "x" (current_imu_factor_pair st).1)
                    (key_of "v" (current_imu_factor_pair st).1)
                    (key_of "x" (current_imu_factor_pair st).2)
                    (key_of "v" (current_imu_factor_pair st).2)
                    (key_of "b" 0) (current_preintegrated_IMU st)])
              (integrate_sample (resetIntegration (current_preintegrated_IMU st)) (m, d))
              (match imu_factor_pairs st with
               | [] => current_imu_factor_pair st
               | q :: _ => q
               end)
              (tail (imu_factor_pairs st)))).
Proof.
  unfold imu_body. intros Hrun.
  apply bind_inv in Hrun as (st1 & Hst1 & Hrun).
  apply bind_inv in Hrun as (d & Hd & Hrun).
  apply bind_inv in Hrun as (p & Hp & Hrun).
  apply integrateMeasurement_inv in Hp as [Hpos ->].
  apply index_inv in Hd. exists d. split; [exact Hd |]. split; [exact Hpos |].
  inversion Hrun; subst st'; clear Hrun.
  destruct (decide (i = (current_imu_factor_pair st).2)) as [Hi|Hi].
  - right. split; [exact Hi |].
    apply bind_inv in Hst1 as (xi & Hxi & Hst1).
    apply bind_inv in Hst1 as (vi & Hvi & Hst1).
    apply bind_inv in Hst1 as (xj & Hxj & Hst1).
    apply bind_inv in Hst1 as (vj & Hvj & Hst1).
    apply bind_inv in Hst1 as (b & Hb & Hst1).
    apply symbol_inv in Hxi as ->. apply symbol_inv in Hvi as ->.
    apply symbol_inv in Hxj as ->. apply symbol_inv in Hvj as ->.
    apply symbol_inv in Hb as ->.
    destruct (imu_factor_pairs st) as [|q it]; cbn [next] in Hst1;
      inversion Hst1; reflexivity.
  - left. split; [exact Hi |]. inversion Hst1; subst st1. reflexivity.
Qed.

(** Once the iterator is exhausted and the loop is past the end of the
    current pair, no further factor is added. *)
Lemma imu_loop_exhausted (l : list (Vec3 * Vec3)) :
  forall (i : nat) (st st' : ImuLoop),
  imu_factor_pairs st = [] ->
  ((current_imu_factor_pair st).2 < i)%nat ->
  for_enumerate (imu_body dts) i l st = Returns st' ->
  factor_graph st' = factor_graph st.
Proof.
  induction l as [|m l IH]; intros i st st' Hit Hlt Hrun.
  - by inversion Hrun.
  - rewrite for_enumerate_cons in Hrun.
    apply bind_inv in Hrun as (st1 & Hbody & Hrun).
    apply imu_body_inv in Hbody as (d & _ & _ & [[_ ->]|[Hi _]]); [| lia].
    apply IH in Hrun; [exact Hrun | exact Hit | cbn; lia].
Qed.

(** The factors added are those of the pairs still to come, in order, up to
    some point. *)
Lemma imu_loop_prefix (l : list (Vec3 * Vec3)) :
  forall (i : nat) (st st' : ImuLoop),
  for_enumerate (imu_body dts) i l st = Returns st' ->
  exists n,
    (imu_factors (factor_graph st')).*1 =
    (imu_factors (factor_graph st)).*1
      ++ (pair_keys <$> take n (current_imu_factor_pair st :: imu_factor_pairs st)).
Proof.
  induction l as [|m l IH]; intros i st st' Hrun.
  - inversion Hrun. exists 0%nat. by rewrite app_nil_r.
  - rewrite for_enumerate_cons in Hrun.
    apply bind_inv in Hrun as (st1 & Hbody & Hrun).
    apply imu_body_inv in Hbody as (d & _ & _ & [[_ ->]|[Hi ->]]).
    + apply IH in Hrun. exact Hrun.
    + destruct (imu_factor_pairs st) as [|q it] eqn:Hit.
      * apply imu_loop_exhausted in Hrun; [| reflexivity | cbn; lia].
        exists 1%nat. rewrite Hrun. cbn [factor_graph].
        rewrite imu_factors_app, fmap_app.
        f_equal; by destruct (current_imu_factor_pair st).
      * apply IH in Hrun as [n Hn]. exists (S n). rewrite Hn.
        cbn [factor_graph current_imu_factor_pair imu_factor_pairs tail].
        rewrite imu_factors_app, fmap_app, <- app_assoc.
        f_equal; by destruct (current_imu_factor_pair st).
Qed.

End FirstLoopAny.

Section FirstLoopRecorded.
Context {P : Type} (E : Preintegrator P).
Variable dts : list R.

Lemma records_app (g1 g2 : list (Factor (P * list Sample))) :
  Recorder.records (g1 ++ g2) = Recorder.records g1 ++ Recorder.records g2.
Proof. unfold Recorder.records. by rewrite imu_factors_app, map_app. Qed.

(** Nothing is lost and nothing is duplicated: what was in the closed
    measurements and in the live one, followed by the samples the loop went
    through, is in the closed measurements and in the live one afterwards. *)
Lemma imu_loop_conserves (l : list (Vec3 * Vec3)) :
  forall (i : nat) (st st' : ImuLoop (P := P * list Sample)),
  for_enumerate (imu_body (H := Recorder.engine E) dts) i l st = Returns st' ->
  length (zip l (drop i dts)) = length l /\
  concat (Recorder.records (factor_graph st')) ++ (current_preintegrated_IMU st').2 =
  (concat (Recorder.records (factor_graph st)) ++ (current_preintegrated_IMU st).2)
    ++ zip l (drop i dts).
Proof.
  induction l as [|m l IH]; intros i st st' Hrun.
  - inversion Hrun. split; [reflexivity |]. by rewrite app_nil_r.
  - rewrite for_enumerate_cons in Hrun.
    apply bind_inv in Hrun as (st1 & Hbody & Hrun).
    apply (imu_body_inv (H := Recorder.engine E)) in Hbody as (d & Hd & _ & Hcase).
    apply IH in Hrun as [Hlen Hrun].
    rewrite (drop_lookup_cons _ _ _ Hd).
    split; [simpl; by rewrite Hlen |].
    rewrite Hrun. cbn [zip zip_with]. destruct m as [a g].
    destruct Hcase as [[_ ->]|[_ ->]];
      cbn [factor_graph current_preintegrated_IMU integrate_sample update
           resetIntegration Recorder.engine fst snd].
    + rewrite <- !app_assoc. reflexivity.
    + rewrite records_app, concat_app. unfold Recorder.records at 2.
      rewrite imu_factors_cons. cbn [imu_factors omap map concat snd app].
      rewrite app_nil_r, <- !app_assoc. reflexivity.
Qed.

End FirstLoopRecorded.

(** ** The first loop when [dt] is too short *)

Section FirstLoopShort.
Context {P : Type} `{Preintegrator P}.
Variable dts : list R.
Hypothesis dts_pos : Forall (fun x => (0 < x)%R) dts.

Lemma imu_body_index_error (st : ImuLoop) (i : nat) (m : Vec3 * Vec3) :
  (length dts <= i)%nat ->
  pair_fits (current_imu_factor_pair st) ->
  imu_body dts st i m = Raises IndexError.
Proof.
  intros Hi [Hs He]. unfold imu_body.
  destruct (decide (i = (current_imu_factor_pair st).2)) as [_|_].
  - rewrite (symbol_fits "x" _ Hs), (symbol_fits "v" _ Hs),
      (symbol_fits "x" _ He), (symbol_fits "v" _ He), symbol_b0, !bind_Returns.
    destruct (imu_factor_pairs st) as [|q it]; cbn [next];
      rewrite bind_Returns, index_ge by assumption; reflexivity.
  - rewrite bind_Returns, index_ge by assumption. reflexivity.
Qed.

Lemma imu_loop_short (l : list (Vec3 * Vec3)) :
  forall (i : nat) (st : ImuLoop),
  (i <= length dts)%nat -> (length dts < i + length l)%nat ->
  Forall pair_fits (current_imu_factor_pair st :: imu_factor_pairs st) ->
  for_enumerate (imu_body dts) i l st = Raises IndexError.
Proof.
  induction l as [|m l IH]; intros i st Hi Hlen Hfit; [simpl in Hlen; lia |].
  simpl length in Hlen. rewrite for_enumerate_cons.
  pose proof Hfit as Hfit'. apply Forall_cons in Hfit' as [Hcur Hrest].
  destruct (decide (i = length dts)) as [->|Hne].
  { rewrite imu_body_index_error by (done || lia). reflexivity. }
  destruct (index_lt dts i ltac:(lia)) as (d & Hd & _).
  destruct (decide (i = (current_imu_factor_pair st).2)) as [Heq|Hneq].
  - destruct (current_imu_factor_pair st) as [s e] eqn:Hc. simpl in Heq. subst i.
    destruct Hcur as [Hs He]. simpl in Hs, He.
    rewrite (imu_body_boundary dts dts_pos st s e m d Hc Hs He Hd), bind_Returns.
    apply IH; [lia | lia |].
    cbn [current_imu_factor_pair imu_factor_pairs].
    destruct (imu_factor_pairs st) as [|q it]; [| exact Hrest].
    by repeat constructor.
  - rewrite (imu_body_quiet dts dts_pos st i m d Hneq Hd), bind_Returns.
    apply IH; [lia | lia | exact Hfit].
Qed.

End FirstLoopShort.

(** ** Which keys the second loop fills *)

Lemma Values_insert_inv (k : Z) (v : Value) (vals vals' : gmap Z Value) :
  Values_insert k v vals = Returns vals' ->
  vals !! k = None /\ vals' = <[k:=v]> vals.
Proof.
  unfold Values_insert. destruct (vals !! k); [discriminate |]. by inversion 1.
Qed.

Section SecondLoopDomain.
Context {P : Type} `{Preintegrator P}.
Variable params : Params.
Variable steps : gset nat.
Variable dts : list R.

Lemma init_body_inv (st st' : InitLoop) (i : nat) (m : Vec3 * Vec3) :
  init_body params steps dts st i m = Returns st' ->
  ((i ∉ steps) /\ initial_values st' = initial_values st) \/
  (i ∈ steps /\ exists p v,
     initial_values st' =
     <[key_of "v" i := VVector v]> (<[key_of "x" i := VPose3 p]> (initial_values st))).
Proof.
  unfold init_body. intros Hrun.
  apply bind_inv in Hrun as (vals & Hvals & Hrun).
  apply bind_inv in Hrun as (d & _ & Hrun).
  apply bind_inv in Hrun as (p & _ & Hrun).
  inversion Hrun; subst st'; clear Hrun. cbn [initial_values].
  destruct (decide (i ∈ steps)) as [Hin|Hni].
  - right. split; [exact Hin |].
    apply bind_inv in Hvals as (kx & Hkx & Hvals).
    apply bind_inv in Hvals as (vals1 & Hv1 & Hvals).
    apply bind_inv in Hvals as (kv & Hkv & Hvals).
    apply symbol_inv in Hkx as ->. apply symbol_inv in Hkv as ->.
    apply Values_insert_inv in Hv1 as [_ ->].
    apply Values_insert_inv in Hvals as [_ ->]. eauto.
  - left. split; [exact Hni |]. by inversion Hvals.
Qed.

(** The loop adds entries under pose and velocity keys of keyframes it
    passes, and under no other key. *)
Lemma init_loop_domain (l : list (Vec3 * Vec3)) :
  forall (i : nat) (st st' : InitLoop),
  for_enumerate (init_body params steps dts) i l st = Returns st' ->
  forall k, is_Some (initial_values st' !! k) ->
    is_Some (initial_values st !! k) \/
    exists j, (i <= j < i + length l)%nat /\ j ∈ steps /\
              (k = key_of "x" j \/ k = key_of "v" j).
Proof.
  induction l as [|m l IH]; intros i st st' Hrun k Hk.
  - inversion Hrun; subst. by left.
  - rewrite for_enumerate_cons in Hrun.
    apply bind_inv in Hrun as (st1 & Hbody & Hrun).
    destruct (IH _ _ _ Hrun k Hk) as [Hk1|(j & Hj & Hin & Hkj)].
    + apply init_body_inv in Hbody as [[_ Hv]|(Hin & p & v & Hv)]; rewrite Hv in Hk1.
      * by left.
      * destruct (decide (k = key_of "v" i)) as [->|Hnv].
        { right. exists i. simpl. split; [lia |]. by split; [| right]. }
        rewrite lookup_insert_ne in Hk1 by done.
        destruct (decide (k = key_of "x" i)) as [->|Hnx].
        { right. exists i. simpl. split; [lia |]. by split; [| left]. }
        rewrite lookup_insert_ne in Hk1 by done. by left.
    + right. exists j. simpl. split; [lia |]. by split.
Qed.

End SecondLoopDomain.

(** ** The IMU-only script on keyframes that need not be sample indices *)

Lemma add_imu_factors_runs_fitting `{Preintegrator P} (d : Dataset) (pim : P)
    (g : list (Factor P)) :
  (2 <= length (keyframes d))%nat ->
  Forall (fun k => Z.of_nat k <= indexMask) (keyframes d) ->
  (imu_count d <= length (dt d))%nat ->
  Forall (fun x => (0 < x)%R) (dt d) ->
  exists st, add_imu_factors d pim g = Returns st.
Proof.
  intros Hlen Hfit Hdt Hpos. unfold add_imu_factors.
  destruct (keyframes d) as [|k0 [|k1 ks]] eqn:Hk; simpl in Hlen; try lia.
  rewrite pairs_cons. cbn [next]. rewrite bind_Returns.
  match goal with
  | |- context [for_enumerate _ _ _ ?st0] =>
      destruct (imu_loop_total (dt d) Hpos (zip (acc d) (gyr d)) 0 st0)
        as (st & ext & Hrun & _)
  end.
  - exact Hdt.
  - cbn [current_imu_factor_pair imu_factor_pairs]. rewrite <- pairs_cons.
    apply Forall_forall. intros [s e] Hin.
    apply zip_pairs_elem in Hin as [Hs He].
    rewrite Forall_forall in Hfit. split; by apply Hfit.
  - by exists st.
Qed.

(** The second loop started from the bias entry alone. *)
Lemma second_loop_runs `{Preintegrator P} (params : Params) (d : Dataset) (pim : P) :
  (imu_count d <= length (dt d))%nat ->
  Forall (fun x => (0 < x)%R) (dt d) ->
  Z.of_nat (imu_count d) <= indexMask + 1 ->
  exists st2,
    for_enumerate (init_body params (list_to_set (keyframes d)) (dt d)) 0
      (zip (acc d) (gyr d))
      (mkInitLoop (<[key_of "b" 0 := VConstantBias (IMU_bias params)]> ∅)
         (resetIntegration pim)) = Returns st2 /\
    initial_values st2 !! key_of "b" 0 = Some (VConstantBias (IMU_bias params)) /\
    (forall j, j ∈ keyframes d -> (j < imu_count d)%nat ->
       let ns := predict (integrate_all (resetIntegration pim) (take j (samples d)))
                   (initial_state params) (IMU_bias params) in
       initial_values st2 !! key_of "x" j = Some (VPose3 (pose ns)) /\
       initial_values st2 !! key_of "v" j = Some (VVector (velocity ns))) /\
    (forall k, is_Some (initial_values st2 !! k) ->
       k = key_of "b" 0 \/
       exists j, j ∈ keyframes d /\ (j < imu_count d)%nat /\
                 (k = key_of "x" j \/ k = key_of "v" j)).
Proof.
  intros Hdt Hpos Hn.
  set (vals0 := <[key_of "b" 0 := VConstantBias (IMU_bias params)]> (∅ : gmap Z Value)).
  destruct (init_loop_values params (list_to_set (keyframes d)) (dt d) Hpos
              (zip (acc d) (gyr d)) 0 (mkInitLoop vals0 (resetIntegration pim)))
    as (st2 & Hrun2 & Hmono & Hkey).
  { exact Hdt. }
  { exact Hn. }
  { cbn [initial_values]. intros j Hj. unfold vals0.
    rewrite !lookup_insert_ne, lookup_empty; [by split | ..];
      intros Heq; apply key_of_inj in Heq as [Hc _]; try discriminate;
      unfold imu_count in *; lia. }
  exists st2. split; [exact Hrun2 |]. split; [| split].
  - apply Hmono. cbn [initial_values]. unfold vals0. by rewrite lookup_insert_eq.
  - intros j Hj Hjn.
    specialize (Hkey j ltac:(unfold imu_count in *; lia)
                  ltac:(by apply elem_of_list_to_set)).
    cbn [predicting_IMU] in Hkey. rewrite Nat.sub_0_r, drop_0 in Hkey. exact Hkey.
  - intros k Hk.
    destruct (init_loop_domain _ _ _ _ _ _ _ Hrun2 k Hk) as [Hk0|(j & Hj & Hin & Hkj)].
    + left. cbn [initial_values] in Hk0. unfold vals0 in Hk0.
      destruct (decide (k = key_of "b" 0)) as [->|Hne]; [reflexivity |].
      rewrite lookup_insert_ne, lookup_empty in Hk0 by done. by destruct Hk0.
    + right. exists j. split; [by apply elem_of_list_to_set in Hin |].
      split; [unfold imu_count; lia | exact Hkj].
Qed.

Lemma head_last_fit (l : list nat) (s0 sn : nat) :
  Forall (fun k => Z.of_nat k <= indexMask) l ->
  head l = Some s0 -> last l = Some sn ->
  Z.of_nat s0 <= indexMask /\ Z.of_nat sn <= indexMask.
Proof.
  intros Hfit Hh Hl. rewrite Forall_forall in Hfit. split; apply Hfit.
  - destruct l; [done |]. inversion Hh; subst. by left.
  - by apply last_Some_elem_of.
Qed.

Lemma assemble_runs_fitting `{Preintegrator P} (t : Toggles) (params : Params)
    (d : Dataset) (w : World) :
  USE_VISUAL_FACTORS t = false ->
  (2 <= length (keyframes d))%nat ->
  Forall (fun k => Z.of_nat k <= indexMask) (keyframes d) ->
  (imu_count d <= length (dt d))%nat ->
  Forall (fun x => (0 < x)%R) (dt d) ->
  Z.of_nat (imu_count d) <= indexMask + 1 ->
  exists st s0 sn vals,
    add_imu_factors d (create (preintegration_params params) (IMU_bias params)) []
      = Returns st /\
    head (keyframes d) = Some s0 /\ last (keyframes d) = Some sn /\
    assemble t params d w =
      (Returns (factor_graph st ++ imu_only_priors params s0 sn, vals), w) /\
    vals !! key_of "b" 0 = Some (VConstantBias (IMU_bias params)) /\
    (forall j, j ∈ keyframes d -> (j < imu_count d)%nat ->
       let ns := predict (integrate_all
                            (resetIntegration (current_preintegrated_IMU st))
                            (take j (samples d)))
                   (initial_state params) (IMU_bias params) in
       vals !! key_of "x" j = Some (VPose3 (pose ns)) /\
       vals !! key_of "v" j = Some (VVector (velocity ns))) /\
    (forall k, is_Some (vals !! k) ->
       k = key_of "b" 0 \/
       exists j, j ∈ keyframes d /\ (j < imu_count d)%nat /\
                 (k = key_of "x" j \/ k = key_of "v" j)).
Proof.
  intros Huvf Hlen Hfit Hdt Hpos Hn.
  destruct (add_imu_factors_runs_fitting d
              (create (preintegration_params params) (IMU_bias params)) []
              Hlen Hfit Hdt Hpos) as (st & Hrun).
  destruct (head_last_of_two _ Hlen) as (s0 & sn & Hh & Hl).
  destruct (head_last_fit _ _ _ Hfit Hh Hl) as [Hs0 Hsn].
  destruct (second_loop_runs params d (current_preintegrated_IMU st) Hdt Hpos Hn)
    as (st2 & Hrun2 & Hb & Hkey & Hdom).
  exists st, s0, sn, (initial_values st2).
  split; [exact Hrun |]. split; [exact Hh |]. split; [exact Hl |].
  split; [| split; [exact Hb | split; [exact Hkey | exact Hdom]]].
  rewrite (assemble_without_visual t params d w Huvf). f_equal.
  unfold assemble_imu_only. rewrite Hrun, bind_Returns.
  rewrite (add_priors_runs t params _ _ s0 sn Hh Hl) by assumption.
  rewrite Huvf, app_nil_r, bind_Returns, symbol_b0, bind_Returns.
  change (Values_insert (key_of "b" 0) (VConstantBias (IMU_bias params)) ∅)
    with (Returns (<[key_of "b" 0 := VConstantBias (IMU_bias params)]>
                     (∅ : gmap Z Value))).
  rewrite bind_Returns, Hrun2, bind_Returns.
  unfold imu_only_priors. rewrite <- !app_assoc. reflexivity.
Qed.


(** ** A last keyframe at or beyond the end of the stream *)

Lemma assemble_beyond_stream `{Preintegrator P}
    (params : Params) (d : Dataset) (w : World) (sn : nat) :
  (2 <= length (keyframes d))%nat ->
  Forall (fun k => Z.of_nat k <= indexMask) (keyframes d) ->
  (imu_count d <= length (dt d))%nat ->
  Forall (fun x => (0 < x)%R) (dt d) ->
  Z.of_nat (imu_count d) <= indexMask + 1 ->
  last (keyframes d) = Some sn ->
  (imu_count d <= sn)%nat ->
  exists g vals,
    assemble shipped params d w = (Returns (g, vals), w) /\
    PriorFactorPose3 (key_of "x" sn) (pose (initial_state params))
      (initial_pose_covariance params) ∈ g /\
    PriorFactorVector (key_of "v" sn) (velocity (initial_state params))
      (initial_velocity_covariance params) ∈ g /\
    vals !! key_of "x" sn = None /\
    vals !! key_of "v" sn = None.
Proof.
  intros Hlen Hfit Hdt Hpos Hn Hl Hsn.
  destruct (assemble_runs_fitting shipped params d w eq_refl Hlen Hfit Hdt Hpos Hn)
    as (st & s0 & sn' & vals & _ & _ & Hl' & Hasm & _ & _ & Hdom).
  rewrite Hl in Hl'. inversion Hl'; subst sn'.
  assert (Hfs : Z.of_nat sn <= indexMask).
  { rewrite Forall_forall in Hfit. apply Hfit. by apply last_Some_elem_of. }
  assert (Hnone : forall c, c = "x"%char \/ c = "v"%char -> vals !! key_of c sn = None).
  { intros c Hc. apply eq_None_not_Some. intros Hsome.
    destruct (Hdom _ Hsome) as [Heq|(j & _ & Hjn & [Heq|Heq])];
      apply key_of_inj in Heq as [Hc' Hj]; try lia;
      destruct Hc as [-> | ->]; discriminate || lia. }
  eexists _, vals. split; [exact Hasm |].
  split; [| split; [| split]].
  - apply elem_of_app. right. unfold imu_only_priors. do 3 right. by left.
  - apply elem_of_app. right. unfold imu_only_priors. do 4 right. by left.
  - apply Hnone. by left.
  - apply Hnone. by right.
Qed.

(** ** The visual branches *)

Lemma symbol_r0 : symbol "r" 0 = Returns (key_of "r" 0).
Proof. reflexivity. Qed.

(** The landmark guesses (lines 205-206): three draws per landmark, each
    stored under the landmark's key. *)
Lemma landmark_guess_loop (lm : Matching) :
  forall (i : nat) (vals : gmap Z Value) (w : World),
  Z.of_nat (i + length lm) <= indexMask + 1 ->
  (forall j, (i <= j < i + length lm)%nat -> vals !! key_of "m" j = None) ->
  exists vals',
    for_enumerateM landmark_guess i lm vals w =
      (Returns vals',
       mkWorld (matching_pkl w) (io_log w) (entropy w) (drawn w + 3 * length lm)) /\
    (forall k v, vals !! k = Some v -> vals' !! k = Some v) /\
    (forall k, is_Some (vals' !! k) ->
       is_Some (vals !! k) \/ exists j, (j < length lm)%nat /\ k = key_of "m" (i + j)) /\
    (forall j, (j < length lm)%nat ->
       vals' !! key_of "m" (i + j) =
       Some (VPoint3 (mkVec3 (entropy w (drawn w + 3 * j))
                             (entropy w (drawn w + 3 * j + 1))
                             (entropy w (drawn w + 3 * j + 2))))).
Proof.
  induction lm as [|occ lm IH]; intros i vals w Hfit Hfresh.
  - exists vals. split; [| split; [auto | split; [auto | simpl; intros; lia]]].
    simpl. unfold mret, M_ret. destruct w. simpl. by rewrite Nat.add_0_r.
  - simpl length in *.
    set (guess := mkVec3 (entropy w (drawn w)) (entropy w (drawn w + 1))
                    (entropy w (drawn w + 2))).
    set (w1 := mkWorld (matching_pkl w) (io_log w) (entropy w) (drawn w + 3)).
    assert (Hbody : landmark_guess vals i occ w
                    = (Returns (<[key_of "m" i := VPoint3 guess]> vals), w1)).
    { unfold landmark_guess, mbind, M_bind, liftO, rand3.
      rewrite symbol_fits by lia.
      rewrite Values_insert_fresh by (apply Hfresh; lia). reflexivity. }
    destruct (IH (S i) (<[key_of "m" i := VPoint3 guess]> vals) w1)
      as (vals' & Hrun & Hmono & Hdom & Hkey).
    { lia. }
    { intros j Hj. rewrite lookup_insert_ne; [apply Hfresh; lia |].
      intros Heq. apply key_of_inj in Heq as [_ Hij]; lia. }
    exists vals'. split; [| split; [| split]].
    + change (for_enumerateM landmark_guess i (occ :: lm) vals w)
        with ((landmark_guess vals i occ
                 ≫= fun st' => for_enumerateM landmark_guess (S i) lm st') w).
      unfold mbind at 1, M_bind at 1. rewrite Hbody, Hrun.
      cbn [matching_pkl io_log entropy drawn w1]. do 2 f_equal. lia.
    + intros k v Hk. apply Hmono. rewrite lookup_insert_ne; [exact Hk |].
      intros <-. rewrite Hfresh in Hk by lia. discriminate.
    + intros k Hk. destruct (Hdom k Hk) as [Hk1|(j & Hj & ->)].
      * destruct (decide (k = key_of "m" i)) as [->|Hne].
        { right. exists 0%nat. split; [lia |]. by rewrite Nat.add_0_r. }
        rewrite lookup_insert_ne in Hk1 by done. by left.
      * right. exists (S j). split; [lia |]. f_equal. lia.
    + intros [|j] Hj.
      * rewrite Nat.add_0_r. apply Hmono. rewrite lookup_insert_eq.
        unfold guess. by rewrite Nat.mul_0_r, !Nat.add_0_r.
      * specialize (Hkey j ltac:(lia)). cbn [entropy drawn w1] in Hkey.
        replace (i + S j)%nat with (S i + j)%nat by lia. rewrite Hkey.
        do 3 f_equal; f_equal; lia.
Qed.

Section VisualRun.
Context {P : Type} `{Preintegrator P}.

(** The graph before the visual factors: motion factors, the five priors
    and, with the visual switch on, the prior on landmark 0. *)
Lemma add_priors_elem (t : Toggles) (params : Params) (steps : list nat)
    (g : list (Factor P)) (s0 sn : nat) :
  head steps = Some s0 -> last steps = Some sn ->
  Z.of_nat s0 <= indexMask -> Z.of_nat sn <= indexMask ->
  exists g1,
    add_priors t params steps g = Returns g1 /\
    forall f, f ∈ g1 <->
      f ∈ g \/ f ∈ imu_only_priors params s0 sn \/
      (USE_VISUAL_FACTORS t = true /\
       f = PriorFactorPoint3 (key_of "m" 0) (mkVec3 1 0 0) (Isotropic_Sigma 3 (5 / 100))).
Proof.
  intros Hh Hl Hs0 Hsn. eexists. split; [by apply add_priors_runs |].
  intros f. unfold imu_only_priors. rewrite !elem_of_app, !elem_of_cons.
  destruct (USE_VISUAL_FACTORS t); rewrite ?elem_of_cons.
  - assert (Ht : true = true) by reflexivity. tauto.
  - assert (Hf : false <> true) by discriminate. tauto.
Qed.

(** The script up to the visual branches, on keyframes that fit a key. *)
Lemma assemble_before_visual (t : Toggles) (params : Params) (d : Dataset) (w : World) :
  (2 <= length (keyframes d))%nat ->
  Forall (fun k => Z.of_nat k <= indexMask) (keyframes d) ->
  (imu_count d <= length (dt d))%nat ->
  Forall (fun x => (0 < x)%R) (dt d) ->
  exists st s0 sn g1,
    add_imu_factors d (create (preintegration_params params) (IMU_bias params)) []
      = Returns st /\
    head (keyframes d) = Some s0 /\ last (keyframes d) = Some sn /\
    add_priors t params (keyframes d) (factor_graph st) = Returns g1 /\
    (forall f, f ∈ g1 <->
       f ∈ factor_graph st \/ f ∈ imu_only_priors params s0 sn \/
       (USE_VISUAL_FACTORS t = true /\
        f = PriorFactorPoint3 (key_of "m" 0) (mkVec3 1 0 0)
              (Isotropic_Sigma 3 (5 / 100)))) /\
    assemble t params d w =
    ('(g, landmarks_to_images) ← add_visual_factors t d g1;
     vals ← add_initial_values t params d (current_preintegrated_IMU st)
              landmarks_to_images;
     mret (g, vals)) w.
Proof.
  intros Hlen Hfit Hdt Hpos.
  destruct (add_imu_factors_runs_fitting d
              (create (preintegration_params params) (IMU_bias params)) []
              Hlen Hfit Hdt Hpos) as (st & Hrun).
  destruct (head_last_of_two _ Hlen) as (s0 & sn & Hh & Hl).
  destruct (head_last_fit _ _ _ Hfit Hh Hl) as [Hs0 Hsn].
  destruct (add_priors_elem t params _ (factor_graph st) s0 sn Hh Hl Hs0 Hsn)
    as (g1 & Hp & Hg1).
  exists st, s0, sn, g1.
  split; [exact Hrun |]. split; [exact Hh |]. split; [exact Hl |].
  split; [exact Hp |]. split; [exact Hg1 |].
  unfold assemble. rewrite liftO_bind, Hrun, liftO_bind, Hp. reflexivity.
Qed.

End VisualRun.


Section VisualLoops.
Context {P : Type} `{Preintegrator P}.

(** A projection factor on landmark [idx], as lines 154-162 build it. *)
Lemma projection_loop_runs (steps : list nat) (cals : list Cal3DS2) (idx : nat)
    (occs : list (nat * Point2)) :
  Forall (fun k => Z.of_nat k <= indexMask) steps ->
  Z.of_nat idx <= indexMask ->
  Forall (fun occ => (occ.1 < length steps)%nat /\ (occ.1 < length cals)%nat) occs ->
  forall (i : nat) (g : list (Factor P)),
  exists ext,
    for_enumerate (projection_body steps cals idx) i occs g = Returns (g ++ ext) /\
    Forall2 (fun occ f => exists s K,
               steps !! occ.1 = Some s /\ cals !! occ.1 = Some K /\
               f = ProjectionFactorPPPCal3DS2 occ.2 (Isotropic_Sigma 2 2)
                     (key_of "x" s) (key_of "r" 0) (key_of "m" idx) K) occs ext.
Proof.
  intros Hfit Hidx Hocc. induction Hocc as [|occ occs [Hs HK] _ IH]; intros i g.
  - exists []. split; [by rewrite app_nil_r | constructor].
  - destruct (index_lt steps occ.1 Hs) as (s & Hsl & Hsi).
    destruct (index_lt cals occ.1 HK) as (K & HKl & HKi).
    assert (Hsfit : Z.of_nat s <= indexMask).
    { rewrite Forall_forall in Hfit. apply Hfit. by eapply list_elem_of_lookup_2. }
    set (f := ProjectionFactorPPPCal3DS2 (P := P) occ.2 (Isotropic_Sigma 2 2)
                (key_of "x" s) (key_of "r" 0) (key_of "m" idx) K).
    destruct (IH (S i) (g ++ [f])) as (ext & Hrun & Hext).
    exists (f :: ext). split.
    + assert (Hbody : projection_body steps cals idx g i occ = Returns (g ++ [f])).
      { unfold projection_body.
        rewrite Hsi, bind_Returns, (symbol_fits "x" s Hsfit), bind_Returns.
        rewrite symbol_r0, bind_Returns, (symbol_fits "m" idx Hidx), bind_Returns.
        rewrite HKi, bind_Returns. reflexivity. }
      rewrite for_enumerate_cons, Hbody, bind_Returns, Hrun, <- app_assoc. reflexivity.
    + constructor; [| exact Hext]. by exists s, K.
Qed.

(** The visual factors of a whole matching (lines 152-163): one per
    occurrence, each on the pose of a keyframe, the camera transform and the
    landmark it is listed under. *)
Lemma landmark_loop_runs (steps : list nat) (cals : list Cal3DS2) (lm : Matching) :
  Forall (fun k => Z.of_nat k <= indexMask) steps ->
  Forall (Forall (fun occ => (occ.1 < length steps)%nat /\ (occ.1 < length cals)%nat)) lm ->
  forall (i : nat) (g : list (Factor P)),
  Z.of_nat (i + length lm) <= indexMask + 1 ->
  exists ext,
    for_enumerate (landmark_body steps cals) i lm g = Returns (g ++ ext) /\
    length ext = length (concat lm) /\
    Forall (fun f => exists px s j K,
              s ∈ steps /\ (i <= j < i + length lm)%nat /\
              f = ProjectionFactorPPPCal3DS2 px (Isotropic_Sigma 2 2)
                    (key_of "x" s) (key_of "r" 0) (key_of "m" j) K) ext /\
    Forall2 (fun jo f => exists s K,
               steps !! jo.2.1 = Some s /\ cals !! jo.2.1 = Some K /\
               f = ProjectionFactorPPPCal3DS2 jo.2.2 (Isotropic_Sigma 2 2)
                     (key_of "x" s) (key_of "r" 0) (key_of "m" jo.1) K)
      (occurrences i lm) ext.
Proof.
  intros Hfit Hlm. induction Hlm as [|occs lm Hoccs _ IH]; intros i g Hi.
  - exists []. split; [by rewrite app_nil_r |]. split; [reflexivity |].
    split; constructor.
  - simpl length in Hi.
    destruct (projection_loop_runs steps cals i occs Hfit ltac:(lia) Hoccs 0%nat g)
      as (ext1 & Hrun1 & Hext1).
    destruct (IH (S i) (g ++ ext1) ltac:(lia))
      as (ext2 & Hrun2 & Hlen2 & Hext2 & Hocc2).
    exists (ext1 ++ ext2). split; [| split; [| split]].
    + rewrite for_enumerate_cons.
      change (landmark_body steps cals g i occs)
        with (for_enumerate (projection_body steps cals i) 0 occs g).
      rewrite Hrun1, bind_Returns, Hrun2, <- app_assoc. reflexivity.
    + simpl concat. rewrite !length_app, Hlen2.
      by rewrite <- (Forall2_length _ _ _ Hext1).
    + apply Forall_app. split.
      * apply Forall_forall. intros f Hf.
        apply list_elem_of_lookup_1 in Hf as [n Hn].
        destruct (Forall2_lookup_r _ _ _ _ _ Hext1 Hn) as (occ & _ & s & K & Hs & _ & ->).
        exists occ.2, s, i, K. split; [by eapply list_elem_of_lookup_2 |].
        split; [simpl; lia | reflexivity].
      * eapply Forall_impl; [exact Hext2 |]. simpl.
        intros f (px & s & j & K & Hs & Hj & ->).
        exists px, s, j, K. split; [exact Hs |]. split; [lia | reflexivity].
    + cbn [occurrences]. apply Forall2_app; [| exact Hocc2].
      apply Forall2_fmap_l. eapply Forall2_impl; [exact Hext1 |].
      intros occ f (s & K & Hs & HK & ->). by exists s, K.
Qed.

End VisualLoops.

Lemma length_calibration_matrices (d : Dataset) :
  length (map (camera_intrinsics d)
            (range_step (length (preintegration_steps d)) PREINTEGRATE_EVERY_FRAMES))
  = length (keyframes d).
Proof.
  rewrite length_map. apply length_eq_of_lookups. intros j.
  rewrite range_step_lookup by (unfold PREINTEGRATE_EVERY_FRAMES; lia).
  rewrite keyframes_lookup, lookup_lt_is_Some. unfold PREINTEGRATE_EVERY_FRAMES.
  destruct (decide (j * 6 < length (preintegration_steps d))%nat); split; intros Hj;
    try done; try lia.
Qed.


Lemma M_bind_Returns {A B} (c : M A) (f : A -> M B) (w : World) (a : A) (w' : World) :
  c w = (Returns a, w') -> (c ≫= f) w = f a w'.
Proof. unfold mbind, M_bind. by intros ->. Qed.

Lemma M_bind_Raises {A B} (c : M A) (f : A -> M B) (w : World) (e : exn) (w' : World) :
  c w = (Raises e, w') -> (c ≫= f) w = (Raises e, w').
Proof. unfold mbind, M_bind. by intros ->. Qed.

(** ** A whole run with the visual factors on *)

Lemma visual_run `{Preintegrator P} (params : Params) (d : Dataset) (w : World)
    (lm : Matching) :
  (2 <= length (keyframes d))%nat ->
  Forall (fun k => Z.of_nat k <= indexMask) (keyframes d) ->
  (imu_count d <= length (dt d))%nat ->
  Forall (fun x => (0 < x)%R) (dt d) ->
  Z.of_nat (imu_count d) <= indexMask + 1 ->
  matching_pkl w = Pickled lm ->
  Z.of_nat (length lm) <= indexMask + 1 ->
  Forall (Forall (fun occ : nat * Point2 => (occ.1 < length (keyframes d))%nat)) lm ->
  exists (st : ImuLoop) (s0 sn : nat) (g1 ext : list (Factor P)) (vals : gmap Z Value),
    add_imu_factors d (create (preintegration_params params) (IMU_bias params)) []
      = Returns st /\
    head (keyframes d) = Some s0 /\ last (keyframes d) = Some sn /\
    add_priors (mkToggles true true) params (keyframes d) (factor_graph st)
      = Returns g1 /\
    (forall f, f ∈ g1 <->
       f ∈ factor_graph st \/ f ∈ imu_only_priors params s0 sn \/
       f = PriorFactorPoint3 (key_of "m" 0) (mkVec3 1 0 0) (Isotropic_Sigma 3 (5 / 100))) /\
    assemble (mkToggles true true) params d w =
      (Returns (g1 ++ ext, vals),
       mkWorld (Pickled lm) (io_log w ++ [Opened rb; Loaded]) (entropy w)
         (drawn w + 3 * length lm)) /\
    length ext = length (concat lm) /\
    Forall (fun f => exists px s j K,
              s ∈ keyframes d /\ (j < length lm)%nat /\
              f = ProjectionFactorPPPCal3DS2 px (Isotropic_Sigma 2 2)
                    (key_of "x" s) (key_of "r" 0) (key_of "m" j) K) ext /\
    vals !! key_of "r" 0 =
      Some (VPose3 (mkPose3 (mkRot3 (mkVec3 0 (-1) 0) (mkVec3 (-1) 0 0) (mkVec3 0 0 (-1)))
                      zero3)) /\
    (forall j, (j < length lm)%nat ->
       vals !! key_of "m" j =
       Some (VPoint3 (mkVec3 (entropy w (drawn w + 3 * j))
                             (entropy w (drawn w + 3 * j + 1))
                             (entropy w (drawn w + 3 * j + 2))))) /\
    vals !! key_of "b" 0 = Some (VConstantBias (IMU_bias params)) /\
    (forall j, j ∈ keyframes d -> (j < imu_count d)%nat ->
       let ns := predict (integrate_all
                            (resetIntegration (current_preintegrated_IMU st))
                            (take j (samples d)))
                   (initial_state params) (IMU_bias params) in
       vals !! key_of "x" j = Some (VPose3 (pose ns)) /\
       vals !! key_of "v" j = Some (VVector (velocity ns))) /\
    (forall k, is_Some (vals !! k) ->
       k = key_of "b" 0 \/ k = key_of "r" 0 \/
       (exists j, j ∈ keyframes d /\ (j < imu_count d)%nat /\
                  (k = key_of "x" j \/ k = key_of "v" j)) \/
       exists j, (j < length lm)%nat /\ k = key_of "m" j) /\
    Forall2 (fun jo f => exists s,
               keyframes d !! jo.2.1 = Some s /\
               f = ProjectionFactorPPPCal3DS2 jo.2.2 (Isotropic_Sigma 2 2)
                     (key_of "x" s) (key_of "r" 0) (key_of "m" jo.1)
                     (camera_intrinsics d (jo.2.1 * PREINTEGRATE_EVERY_FRAMES)))
      (occurrences 0 lm) ext.
Proof.
  intros Hlen Hfit Hdt Hpos Hn Hfile Hlm Hocc.
  destruct (assemble_before_visual (mkToggles true true) params d w Hlen Hfit Hdt Hpos)
    as (st & s0 & sn & g1 & Hrun & Hh & Hl & Hp & Hg1 & Hasm).
  destruct (second_loop_runs params d (current_preintegrated_IMU st) Hdt Hpos Hn)
    as (st2 & Hrun2 & Hb & Hkey & Hdom).
  set (vfs := range_step (length (preintegration_steps d)) PREINTEGRATE_EVERY_FRAMES).
  set (cals := map (camera_intrinsics d) vfs).
  assert (Hocc' : Forall (Forall (fun occ : nat * Point2 =>
                    (occ.1 < length (keyframes d))%nat /\ (occ.1 < length cals)%nat)) lm).
  { eapply Forall_impl; [exact Hocc |]. intros occs Hoccs.
    eapply Forall_impl; [exact Hoccs |]. intros occ Ho. simpl.
    unfold cals, vfs. rewrite length_calibration_matrices. by split. }
  destruct (landmark_loop_runs (P := P) (keyframes d) cals lm Hfit Hocc' 0%nat g1
              ltac:(simpl; lia)) as (ext & Hvis & Hext & Hshape & Hocc2).
  set (r0 := VPose3 (mkPose3 (mkRot3 (mkVec3 0 (-1) 0) (mkVec3 (-1) 0 0) (mkVec3 0 0 (-1)))
                       zero3)).
  assert (Hidx0 : (0 : Z) <= indexMask) by (rewrite indexMask_value; lia).
  assert (Hr0 : initial_values st2 !! key_of "r" 0 = None).
  { destruct (initial_values st2 !! key_of "r" 0) as [v|] eqn:Hv; [| reflexivity].
    destruct (Hdom (key_of "r" 0)) as [Hk|(j & _ & Hj & [Hk|Hk])]; [by eexists | ..];
      apply key_of_inj in Hk as [Hc _]; try discriminate; unfold imu_count in *; lia. }
  set (vals1 := <[key_of "r" 0 := r0]> (initial_values st2)).
  set (w1 := log Loaded (log (Opened rb) w)).
  destruct (landmark_guess_loop lm 0 vals1 w1) as (vals & Hguess & Hmono & Hgdom & Hgkey).
  { simpl. lia. }
  { intros j Hj. unfold vals1. rewrite lookup_insert_ne.
    - destruct (initial_values st2 !! key_of "m" j) as [v|] eqn:Hv; [| reflexivity].
      destruct (Hdom (key_of "m" j)) as [Hk|(j' & _ & Hj' & [Hk|Hk])]; [by eexists | ..];
        apply key_of_inj in Hk as [Hc _]; try discriminate; unfold imu_count in *; lia.
    - intros Hk. apply key_of_inj in Hk as [Hc _]; try discriminate; lia. }
  exists st, s0, sn, g1, ext, vals.
  split; [exact Hrun |]. split; [exact Hh |]. split; [exact Hl |].
  split; [exact Hp |]. split.
  { intros f. rewrite (Hg1 f). cbn [USE_VISUAL_FACTORS].
    assert (Ht : true = true) by reflexivity. tauto. }
  split; [| split; [exact Hext | split; [| split; [| split; [| split; [| split;
    [| split]]]]]]].
  - assert (Hc : matching_cache (mkToggles true true) d vfs w = (Returns lm, w1)).
    { unfold matching_cache, open, pickle_load, read_var, mbind, M_bind, mret, M_ret.
      cbn [RECOMPUTE_MATCHING]. rewrite Hfile. cbn [matching_pkl log].
      rewrite Hfile. reflexivity. }
    assert (Hvf : add_visual_factors (mkToggles true true) d g1 w
                  = (Returns (g1 ++ ext, Some lm), w1)).
    { unfold add_visual_factors. cbn [USE_VISUAL_FACTORS]. fold vfs. fold cals.
      rewrite (M_bind_Returns _ _ _ _ _ Hc), liftO_bind, Hvis. reflexivity. }
    assert (Hiv : add_initial_values (mkToggles true true) params d
                    (current_preintegrated_IMU st) (Some lm) w1
                  = (Returns vals,
                     mkWorld (matching_pkl w1) (io_log w1) (entropy w1)
                       (drawn w1 + 3 * length lm))).
    { unfold add_initial_values. cbn [USE_VISUAL_FACTORS].
      rewrite liftO_bind, symbol_b0.
      change (Values_insert (key_of "b" 0) (VConstantBias (IMU_bias params)) ∅)
        with (Returns (<[key_of "b" 0 := VConstantBias (IMU_bias params)]>
                         (∅ : gmap Z Value))).
      rewrite liftO_bind, liftO_bind, Hrun2, liftO_bind, symbol_r0.
      rewrite liftO_bind, (Values_insert_fresh _ _ _ Hr0).
      fold r0. fold vals1.
      rewrite (M_bind_Returns (read_var (Some lm)) _ w1 lm w1) by reflexivity.
      exact Hguess. }
    rewrite Hasm, (M_bind_Returns _ _ _ _ _ Hvf). cbv beta iota.
    rewrite (M_bind_Returns _ _ _ _ _ Hiv). unfold mret, M_ret. f_equal.
    unfold w1, log. cbn [matching_pkl io_log entropy drawn].
    rewrite Hfile, <- app_assoc. reflexivity.
  - eapply Forall_impl; [exact Hshape |]. simpl.
    intros f (px & s & j & K & Hs & Hj & ->).
    exists px, s, j, K. split; [exact Hs |]. split; [lia | reflexivity].
  - apply Hmono. unfold vals1. by rewrite lookup_insert_eq.
  - intros j Hj. specialize (Hgkey j Hj). exact Hgkey.
  - apply Hmono. unfold vals1. rewrite lookup_insert_ne; [exact Hb |].
    intros Hk. apply key_of_inj in Hk as [Hc _]; try discriminate; lia.
  - intros j Hj Hjn ns. destruct (Hkey j Hj Hjn) as [Hx Hv].
    split; apply Hmono; unfold vals1; (rewrite lookup_insert_ne; [assumption |]);
      intros Hk; apply key_of_inj in Hk as [Hc _]; try discriminate;
      unfold imu_count in *; lia.
  - intros k Hk. destruct (Hgdom k Hk) as [Hk1|(j & Hj & ->)].
    + unfold vals1 in Hk1. destruct (decide (k = key_of "r" 0)) as [->|Hne]; [by right; left |].
      rewrite lookup_insert_ne in Hk1 by done.
      destruct (Hdom k Hk1) as [->|Hx]; [by left | by right; right; left].
    + right. right. right. by exists j.
  - eapply Forall2_impl; [exact Hocc2 |].
    intros jo f (s & K & Hs & HK & ->). exists s. split; [exact Hs |].
    unfold cals, vfs in HK. rewrite list_lookup_fmap in HK.
    rewrite range_step_lookup in HK by (unfold PREINTEGRATE_EVERY_FRAMES; lia).
    destruct (decide _) in HK; [| discriminate]. by inversion HK.
Qed.

(** A failure of the cache step is the failure of the whole run. *)
Lemma visual_run_cache_failure `{Preintegrator P} (t : Toggles) (params : Params)
    (d : Dataset) (w w' : World) (e : exn) :
  USE_VISUAL_FACTORS t = true ->
  (2 <= length (keyframes d))%nat ->
  Forall (fun k => Z.of_nat k <= indexMask) (keyframes d) ->
  (imu_count d <= length (dt d))%nat ->
  Forall (fun x => (0 < x)%R) (dt d) ->
  matching_cache t d
    (range_step (length (preintegration_steps d)) PREINTEGRATE_EVERY_FRAMES) w
    = (Raises e, w') ->
  assemble t params d w = (Raises e, w').
Proof.
  intros Hu Hlen Hfit Hdt Hpos Hc.
  destruct (assemble_before_visual t params d w Hlen Hfit Hdt Hpos)
    as (st & s0 & sn & g1 & _ & _ & _ & _ & _ & Hasm).
  rewrite Hasm. apply M_bind_Raises. unfold add_visual_factors. rewrite Hu.
  by apply M_bind_Raises.
Qed.

(** ** A matching that names a frame the run does not have *)

Section VisualLoopsFail.
Context {P : Type}.

Lemma projection_loop_bad (steps : list nat) (cals : list Cal3DS2) (idx : nat)
    (occs : list (nat * Point2)) :
  Forall (fun k => Z.of_nat k <= indexMask) steps ->
  Z.of_nat idx <= indexMask ->
  length cals = length steps ->
  Exists (fun occ => (length steps <= occ.1)%nat) occs ->
  forall (i : nat) (g : list (Factor P)),
  for_enumerate (projection_body steps cals idx) i occs g = Raises IndexError.
Proof.
  intros Hfit Hidx Hcals Hex.
  assert (Hbad : forall occ i (g : list (Factor P)), (length steps <= occ.1)%nat ->
            projection_body steps cals idx g i occ = Raises IndexError).
  { intros occ i g Hocc. unfold projection_body.
    by rewrite (index_ge steps occ.1 Hocc), bind_Raises. }
  induction Hex as [occ occs Hocc|occ occs _ IH]; intros i g.
  - by rewrite for_enumerate_cons, Hbad, bind_Raises.
  - destruct (decide (occ.1 < length steps)%nat) as [Hlt|Hge].
    + destruct (projection_loop_runs (P := P) steps cals idx [occ] Hfit Hidx) with i g
        as (ext & Hrun & _).
      { constructor; [| constructor]. split; [exact Hlt | by rewrite Hcals]. }
      rewrite for_enumerate_cons in Hrun.
      destruct (projection_body steps cals idx g i occ) as [g'|e] eqn:Hbody.
      * rewrite for_enumerate_cons, Hbody, bind_Returns. apply IH.
      * rewrite bind_Raises in Hrun. discriminate.
    + rewrite for_enumerate_cons, Hbad, bind_Raises by lia. reflexivity.
Qed.

Lemma landmark_loop_bad (steps : list nat) (cals : list Cal3DS2) (lm : Matching) :
  Forall (fun k => Z.of_nat k <= indexMask) steps ->
  length cals = length steps ->
  Exists (Exists (fun occ : nat * Point2 => (length steps <= occ.1)%nat)) lm ->
  forall (i : nat) (g : list (Factor P)),
  Z.of_nat (i + length lm) <= indexMask + 1 ->
  for_enumerate (landmark_body steps cals) i lm g = Raises IndexError.
Proof.
  intros Hfit Hcals Hex.
  induction Hex as [occs lm Hoccs|occs lm _ IH]; intros i g Hi; simpl length in Hi.
  - rewrite for_enumerate_cons.
    change (landmark_body steps cals g i occs)
      with (for_enumerate (projection_body steps cals i) 0 occs g).
    rewrite projection_loop_bad, bind_Raises; [reflexivity | assumption | lia | ..];
      assumption.
  - rewrite for_enumerate_cons.
    change (landmark_body steps cals g i occs)
      with (for_enumerate (projection_body steps cals i) 0 occs g).
    destruct (for_enumerate (projection_body steps cals i) 0 occs g) as [g'|e] eqn:Hrun.
    + rewrite bind_Returns. apply IH. lia.
    + destruct (decide (Forall (fun occ : nat * Point2 => (occ.1 < length steps)%nat) occs))
        as [Hall|Hsome].
      * destruct (projection_loop_runs (P := P) steps cals i occs Hfit ltac:(lia))
          with 0%nat g as (ext & Hrun' & _).
        { eapply Forall_impl; [exact Hall |]. simpl. intros occ Hocc.
          split; [exact Hocc | by rewrite Hcals]. }
        rewrite Hrun in Hrun'. discriminate.
      * apply not_Forall_Exists in Hsome; [| apply _].
        rewrite projection_loop_bad in Hrun; [| assumption | lia | assumption |].
        -- inversion Hrun; subst e. by rewrite bind_Raises.
        -- eapply Exists_impl; [exact Hsome |]. simpl. intros occ Hocc. lia.
Qed.

End VisualLoopsFail.

Lemma matching_cache_loads (d : Dataset) (video_frame_steps : list nat) (w : World)
    (lm : Matching) :
  matching_pkl w = Pickled lm ->
  matching_cache (mkToggles true true) d video_frame_steps w
  = (Returns lm, log Loaded (log (Opened rb) w)).
Proof.
  intros Hfile.
  unfold matching_cache, open, pickle_load, read_var, mbind, M_bind, mret, M_ret.
  cbn [RECOMPUTE_MATCHING]. rewrite Hfile. cbn [matching_pkl log].
  rewrite Hfile. reflexivity.
Qed.

(** ** A time step that is not positive *)

Section FirstLoopNonPositive.
Context {P : Type} `{Preintegrator P}.
Variable dts : list R.

(** An iteration reads [dts] at its own index only. *)
Lemma imu_body_ext (dts' : list R) (st : ImuLoop) (i : nat) (m : Vec3 * Vec3) :
  dts !! i = dts' !! i -> imu_body dts st i m = imu_body dts' st i m.
Proof. intros Heq. unfold imu_body, index. by rewrite Heq. Qed.

Lemma imu_body_nonpos (st : ImuLoop) (i : nat) (m : Vec3 * Vec3) (x : R) :
  dts !! i = Some x -> (x <= 0)%R ->
  pair_fits (current_imu_factor_pair st) ->
  imu_body dts st i m = Raises RuntimeError.
Proof.
  intros Hx Hle [Hs He]. unfold imu_body.
  destruct (decide (i = (current_imu_factor_pair st).2)) as [_|_].
  - rewrite (symbol_fits "x" _ Hs), (symbol_fits "v" _ Hs),
      (symbol_fits "x" _ He), (symbol_fits "v" _ He), symbol_b0, !bind_Returns.
    destruct (imu_factor_pairs st) as [|q it]; cbn [next];
      rewrite bind_Returns, (index_lookup _ _ _ Hx), bind_Returns;
      cbn [current_preintegrated_IMU];
      rewrite integrateMeasurement_nonpos by assumption; reflexivity.
  - rewrite bind_Returns, (index_lookup _ _ _ Hx), bind_Returns.
    rewrite integrateMeasurement_nonpos by assumption. reflexivity.
Qed.

(** The loop stops at the first time step that is not positive. *)
Lemma imu_loop_nonpos (i0 : nat) (x : R) (l : list (Vec3 * Vec3)) :
  dts !! i0 = Some x -> (x <= 0)%R ->
  Forall (fun y => (0 < y)%R) (take i0 dts) ->
  forall (i : nat) (st : ImuLoop),
  (i <= i0 < i + length l)%nat ->
  Forall pair_fits (current_imu_factor_pair st :: imu_factor_pairs st) ->
  for_enumerate (imu_body dts) i l st = Raises RuntimeError.
Proof.
  intros Hx Hle Hpos.
  induction l as [|m l IH]; intros i st Hi Hfit; [simpl in Hi; lia |].
  simpl length in Hi. rewrite for_enumerate_cons.
  pose proof Hfit as Hfit'. apply Forall_cons in Hfit' as [Hcur Hrest].
  destruct (decide (i = i0)) as [->|Hne].
  { by rewrite (imu_body_nonpos st i0 m x Hx Hle Hcur). }
  assert (Hlt : (i < length (take i0 dts))%nat).
  { rewrite length_take. apply lookup_lt_Some in Hx. lia. }
  destruct (index_lt (take i0 dts) i Hlt) as (d & Hd & _).
  rewrite (imu_body_ext (take i0 dts)) by (rewrite lookup_take_lt by lia; reflexivity).
  destruct (decide (i = (current_imu_factor_pair st).2)) as [Heq|Hneq].
  - destruct (current_imu_factor_pair st) as [s e] eqn:Hc. simpl in Heq. subst i.
    destruct Hcur as [Hs He]. simpl in Hs, He.
    rewrite (imu_body_boundary (take i0 dts) Hpos st s e m d Hc Hs He Hd), bind_Returns.
    apply IH; [lia |].
    cbn [current_imu_factor_pair imu_factor_pairs].
    destruct (imu_factor_pairs st) as [|q it]; [| exact Hrest].
    by repeat constructor.
  - rewrite (imu_body_quiet (take i0 dts) Hpos st i m d Hneq Hd), bind_Returns.
    apply IH; [lia | exact Hfit].
Qed.

End FirstLoopNonPositive.

(** On a graph with a key that has no value, the script stops when it builds
    the optimizer. *)
Lemma main_beyond_stream `{Preintegrator P} `{Solver P}
    (params : Params) (library_defaults : GaussNewtonParams) (d : Dataset) (w : World)
    (sn : nat) :
  (2 <= length (keyframes d))%nat ->
  Forall (fun k => Z.of_nat k <= indexMask) (keyframes d) ->
  (imu_count d <= length (dt d))%nat ->
  Forall (fun x => (0 < x)%R) (dt d) ->
  Z.of_nat (imu_count d) <= indexMask + 1 ->
  last (keyframes d) = Some sn ->
  (imu_count d <= sn)%nat ->
  main shipped params library_defaults d w = (Raises RuntimeError, w).
Proof.
  intros Hlen Hfit Hdt Hpos Hn Hl Hsn.
  destruct (assemble_beyond_stream params d w sn Hlen Hfit Hdt Hpos Hn Hl Hsn)
    as (g & vals & Hasm & Hx & _ & Hnone & _).
  rewrite (assemble_without_visual shipped params d w eq_refl) in Hasm.
  inversion Hasm as [Himu].
  rewrite (main_without_visual shipped params library_defaults d w eq_refl), Himu.
  unfold optimize_and_plot.
  rewrite (GaussNewtonOptimizer_rejects g vals _ _ (key_of "x" sn) Hx);
    [reflexivity | | exact Hnone].
  by left.
Qed.

(** ** The visual branch does depend on the world *)

(** With the visual switch on, the initial guess of a landmark is whatever
    the random generator delivers. *)
Lemma visual_assembly_reads_the_generator (c : R) :
  match (assemble (H := Strapdown.engine) Examples.visual Examples.upright
           Examples.tiny (Examples.seeded c)).1 with
  | Returns (_, vals) => vals !! key_of "m" 0
  | Raises _ => None
  end = Some (VPoint3 (mkVec3 c c c)).
Proof.
  destruct (visual_run (H := Strapdown.engine) Examples.upright Examples.tiny
              (Examples.seeded c) [[]])
    as (st & s0 & sn & g1 & ext & vals & _ & _ & _ & _ & _ & Hrun & _ & _ & _ & Hm & _).
  - vm_compute. lia.
  - repeat constructor; vm_compute; discriminate.
  - vm_compute. lia.
  - repeat constructor; simpl; lra.
  - vm_compute. discriminate.
  - reflexivity.
  - vm_compute. discriminate.
  - repeat constructor.
  - unfold Examples.visual. rewrite Hrun. cbn [fst].
    rewrite (Hm 0%nat) by (simpl; lia). reflexivity.
Qed.

Lemma visual_assembly_not_deterministic :
  (assemble (H := Strapdown.engine) Examples.visual Examples.upright
     Examples.tiny (Examples.seeded 0)).1 <>
  (assemble (H := Strapdown.engine) Examples.visual Examples.upright
     Examples.tiny (Examples.seeded 1)).1.
Proof.
  intros Heq.
  pose proof (visual_assembly_reads_the_generator 0) as H0.
  pose proof (visual_assembly_reads_the_generator 1) as H1.
  rewrite Heq, H1 in H0. injection H0 as Hc. lra.
Qed.

(** * The claims *)

(** ** C1: which samples the motion factors integrate *)

(** C1, as the code has it.  With positive time steps and increasing
    keyframes [k0 < ... < kn] that are sample indices, the script adds one
    motion factor per pair, and the samples integrated into these factors,
    factor after factor, are exactly the samples [0 .. kn-1]: no gap, no
    overlap.  The samples from [kn] on (there is at least one) are
    integrated into no factor of the graph. *)
Theorem C1_factor_windows_partition_prefix {P} (E : Preintegrator P) (t : Toggles)
    (params : Params) (d : Dataset) (w : World) (k0 kn : nat) (ks : list nat) :
  USE_VISUAL_FACTORS t = false ->
  keyframes d = k0 :: ks -> last ks = Some kn ->
  increasing (k0 :: ks) ->
  (kn < imu_count d)%nat ->
  (imu_count d <= length (dt d))%nat ->
  Forall (fun x => (0 < x)%R) (dt d) ->
  Z.of_nat (imu_count d) <= indexMask + 1 ->
  exists g vals,
    assemble (H := Recorder.engine E) t params d w = (Returns (g, vals), w) /\
    length (Recorder.records g) = length ks /\
    concat (Recorder.records g) = take kn (samples d) /\
    (kn < length (samples d))%nat.
Proof.
  intros Huvf Hk Hl Hinc Hkn Hdt Hpos Hfit.
  destruct (assemble_increasing (H := Recorder.engine E) t params d w k0 kn ks)
    as (vals & Hasm); try assumption.
  eexists _, vals. split; [exact Hasm |].
  unfold Recorder.records. rewrite imu_factors_app.
  change (imu_factors (imu_only_priors params k0 kn)) with
    (@nil (Z * Z * Z * Z * Z * (P * list Sample))).
  rewrite app_nil_r.
  change (map (fun f => f.2.2) (imu_factors ?g)) with (Recorder.records g).
  cbn [resetIntegration Recorder.engine].
  rewrite (motion_factors_records E). split; [apply length_windows |]. split.
  - rewrite (concat_windows ks 0 kn).
    + by rewrite Nat.sub_0_r.
    + by eapply increasing_tail.
    + apply Forall_forall. intros; lia.
    + exact Hl.
  - rewrite length_samples by assumption. exact Hkn.
Qed.

Lemma C1_factor_windows_partition_prefix_witness :
  exists g vals,
    assemble (H := Examples.recording) shipped Examples.upright Examples.thirteen
      (Examples.world Absent) = (Returns (g, vals), Examples.world Absent) /\
    length (Recorder.records g) = 2%nat /\
    concat (Recorder.records g) = take 12 (samples Examples.thirteen) /\
    (12 < length (samples Examples.thirteen))%nat.
Proof.
  apply (C1_factor_windows_partition_prefix Strapdown.engine shipped Examples.upright
           Examples.thirteen (Examples.world Absent) 0%nat 12%nat [6; 12]%nat).
  - reflexivity.
  - reflexivity.
  - reflexivity.
  - simpl. lia.
  - vm_compute. lia.
  - vm_compute. lia.
  - repeat constructor; simpl; lra.
  - vm_compute. discriminate.
Defined.

(** C1 as stated fails: with fourteen samples and keyframes [0; 6; 12] the
    two motion factors integrate the twelve samples [0 .. 11]; the samples 12
    and 13 are in no factor, so the factors do not cover [0 .. N-1]. *)
Lemma C1_last_samples_in_no_factor :
  exists g vals,
    assemble (H := Examples.recording) shipped Examples.upright Examples.thirteen
      (Examples.world Absent) = (Returns (g, vals), Examples.world Absent) /\
    length (samples Examples.thirteen) = 14%nat /\
    length (concat (Recorder.records g)) = 12%nat /\
    concat (Recorder.records g) <> samples Examples.thirteen.
Proof.
  destruct (assemble_increasing (H := Examples.recording) shipped Examples.upright
              Examples.thirteen (Examples.world Absent) 0%nat 12%nat [6; 12]%nat)
    as (vals & Hasm);
    [reflexivity | reflexivity | reflexivity | simpl; lia | vm_compute; lia
    | vm_compute; lia | repeat constructor; simpl; lra | vm_compute; discriminate |].
  eexists _, vals. split; [exact Hasm |].
  match goal with
  | |- _ /\ length (concat ?r) = _ /\ _ =>
      assert (Hrec : r = windows 0 (samples Examples.thirteen) [6; 12]%nat)
  end.
  { unfold Recorder.records. rewrite imu_factors_app.
    change (imu_factors (imu_only_priors Examples.upright 0 12)) with
      (@nil (Z * Z * Z * Z * Z * (Strapdown.PIM * list Sample))).
    rewrite app_nil_r.
    change (map (fun f => f.2.2) (imu_factors ?g)) with (Recorder.records g).
    unfold Examples.recording. cbn [resetIntegration Recorder.engine].
    apply (motion_factors_records Strapdown.engine). }
  rewrite Hrec.
  split; [reflexivity |]. split; [reflexivity |].
  intros Heq. apply (f_equal length) in Heq. discriminate Heq.
Qed.

(** ** C2: decimation *)

(** C2 (the code departs from its own comment).  Slicing with stride
    [PREINTEGRATE_EVERY_FRAMES] keeps the keyframe indices at the positions
    0, 6, 12, ... and nothing else.  The first index is always among them;
    the last one only when its position is a multiple of the stride: with
    the eight keyframe indices [0..7] the decimated list is [[0; 6]] and
    index 7, the end of the sequence, is gone. *)
Theorem C2_decimation_drops_last_keyframe :
  (forall (l : list nat) (j : nat),
     slice_step PREINTEGRATE_EVERY_FRAMES l !! j
     = l !! (j * PREINTEGRATE_EVERY_FRAMES)%nat) /\
  (forall l : list nat,
     head (slice_step PREINTEGRATE_EVERY_FRAMES l) = head l) /\
  last (preintegration_steps Examples.eight) = Some 7%nat /\
  keyframes Examples.eight = [0; 6]%nat /\
  last (keyframes Examples.eight) <> last (preintegration_steps Examples.eight).
Proof.
  split; [intros l j; apply slice_step_lookup; unfold PREINTEGRATE_EVERY_FRAMES; lia |].
  split; [intros l; apply slice_step_head |].
  split; [reflexivity |]. split; [reflexivity |].
  vm_compute. discriminate.
Qed.

(** ** C3: one factor per pair *)

(** C3, as the code has it.  With positive time steps and increasing
    keyframes that are sample indices, the [j]-th pair [(s, e)] gets exactly
    one motion factor, with the
    keys of pose and velocity at [s] and at [e] and of the shared bias.  Its
    measurement integrates the samples from [s] (from 0 for the first pair)
    up to [e - 1]: the factor is closed before the sample at [e] is
    integrated, and that boundary sample is the first one of the next pair's
    measurement. *)
Theorem C3_one_factor_per_pair_boundary_opens_next {P} (E : Preintegrator P)
    (t : Toggles) (params : Params) (d : Dataset) (w : World) (k0 kn : nat)
    (ks : list nat) :
  USE_VISUAL_FACTORS t = false ->
  keyframes d = k0 :: ks -> last ks = Some kn ->
  increasing (k0 :: ks) ->
  (kn < imu_count d)%nat ->
  (imu_count d <= length (dt d))%nat ->
  Forall (fun x => (0 < x)%R) (dt d) ->
  Z.of_nat (imu_count d) <= indexMask + 1 ->
  exists g vals,
    assemble (H := Recorder.engine E) t params d w = (Returns (g, vals), w) /\
    length (imu_factors g) = length ks /\
    forall j s e, (k0 :: ks) !! j = Some s -> ks !! j = Some e ->
      let from := match j with O => O | S _ => s end in
      (exists p, imu_factors g !! j = Some (pair_keys (s, e), p) /\
                 p.2 = take (e - from) (drop from (samples d))) /\
      (forall j' p', imu_factors g !! j' = Some (pair_keys (s, e), p') -> j' = j) /\
      (forall f, imu_factors g !! S j = Some f -> head f.2.2 = samples d !! e).
Proof.
  intros Huvf Hk Hl Hinc Hkn Hdt Hpos Hfit.
  destruct (assemble_increasing (H := Recorder.engine E) t params d w k0 kn ks)
    as (vals & Hasm); try assumption.
  eexists _, vals. split; [exact Hasm |].
  rewrite imu_factors_with_priors.
  cbn [resetIntegration Recorder.engine].
  set (q0 := resetIntegration (create (preintegration_params params) (IMU_bias params)).1).
  set (F := imu_factors (motion_factors (H := Recorder.engine E) (q0, [])
                           0 (samples d) k0 ks)).
  change (imu_factors (motion_factors _ _ _ _ _)) with F.
  assert (HK : F.*1 = pair_keys <$> zip (k0 :: ks) ks)
    by apply (motion_factors_keys (H := Recorder.engine E)).
  assert (HR : (fun f => f.2.2) <$> F = windows 0 (samples d) ks)
    by apply (motion_factors_records E).
  assert (Hks : increasing ks) by by eapply increasing_tail.
  assert (H0 : Forall (fun k => (0 <= k)%nat) ks) by (apply Forall_forall; intros; lia).
  assert (Hbound : forall a x, (k0 :: ks) !! a = Some x -> Z.of_nat x <= indexMask).
  { intros a x Hx.
    pose proof (increasing_last_bound _ kn Hinc (last_cons_ne _ _ _ Hl)) as Hb.
    rewrite Forall_forall in Hb.
    specialize (Hb x ltac:(by eapply list_elem_of_lookup_2)). lia. }
  assert (HlenF : length F = length ks).
  { rewrite <- (length_fmap (fun f => f.2.2)), HR. apply length_windows. }
  split; [exact HlenF |].
  intros j s e Hs He. set (from := match j with O => O | S _ => s end).
  split; [| split].
  - assert (Hj : (j < length F)%nat) by (rewrite HlenF; by eapply lookup_lt_Some).
    destruct (lookup_lt_is_Some_2 F j Hj) as [[kk p] Hf].
    exists p. split.
    + rewrite Hf. do 2 f_equal.
      assert (Hkk : F.*1 !! j = Some kk) by (by rewrite list_lookup_fmap, Hf).
      rewrite HK, list_lookup_fmap, lookup_zip_with, Hs in Hkk.
      simpl in Hkk. rewrite He in Hkk. simpl in Hkk. by inversion Hkk.
    + assert (Hrec : ((fun f => f.2.2) <$> F) !! j = Some p.2)
        by (by rewrite list_lookup_fmap, Hf).
      rewrite HR in Hrec.
      rewrite (windows_lookup ks 0 (samples d) j from e Hks H0) in Hrec.
      * rewrite Nat.sub_0_r in Hrec. by inversion Hrec.
      * unfold from. destruct j; [reflexivity | exact Hs].
      * exact He.
  - intros j' p' Hf.
    assert (Hkk : F.*1 !! j' = Some (pair_keys (s, e))) by (by rewrite list_lookup_fmap, Hf).
    rewrite HK, list_lookup_fmap, lookup_zip_with in Hkk.
    destruct ((k0 :: ks) !! j') as [s'|] eqn:Hs'; [| discriminate].
    simpl in Hkk. destruct (ks !! j') as [e'|] eqn:He'; [| discriminate].
    simpl in Hkk. unfold pair_keys in Hkk. cbn [fst snd] in Hkk.
    assert (Hx : key_of "x" s' = key_of "x" s) by congruence.
    apply key_of_inj in Hx as [_ ->]; [| by eapply Hbound..].
    by eapply (increasing_lookup_inj (k0 :: ks)).
  - intros f Hf.
    assert (Hrec : ((fun f => f.2.2) <$> F) !! S j = Some f.2.2)
      by (by rewrite list_lookup_fmap, Hf).
    rewrite HR in Hrec.
    assert (Hj : (S j < length ks)%nat)
      by (rewrite <- HlenF; by eapply lookup_lt_Some).
    destruct (lookup_lt_is_Some_2 ks (S j) Hj) as [e2 He2].
    rewrite (windows_lookup ks 0 (samples d) (S j) e e2 Hks H0) in Hrec;
      [| exact He | exact He2].
    inversion Hrec as [Hp]. rewrite Nat.sub_0_r.
    apply head_take_drop.
    pose proof (increasing_lookup_lt ks j (S j) e e2 Hks He He2 ltac:(lia)). lia.
Qed.

Lemma C3_one_factor_per_pair_boundary_opens_next_witness :
  exists g vals,
    assemble (H := Examples.recording) shipped Examples.upright Examples.thirteen
      (Examples.world Absent) = (Returns (g, vals), Examples.world Absent) /\
    length (imu_factors g) = 2%nat /\
    forall j s e, [0; 6; 12]%nat !! j = Some s -> [6; 12]%nat !! j = Some e ->
      let from := match j with O => O | S _ => s end in
      (exists p, imu_factors g !! j = Some (pair_keys (s, e), p) /\
                 p.2 = take (e - from) (drop from (samples Examples.thirteen))) /\
      (forall j' p', imu_factors g !! j' = Some (pair_keys (s, e), p') -> j' = j) /\
      (forall f, imu_factors g !! S j = Some f ->
                 head f.2.2 = samples Examples.thirteen !! e).
Proof.
  apply (C3_one_factor_per_pair_boundary_opens_next Strapdown.engine shipped
           Examples.upright Examples.thirteen (Examples.world Absent)
           0%nat 12%nat [6; 12]%nat).
  - reflexivity.
  - reflexivity.
  - reflexivity.
  - simpl. lia.
  - vm_compute. lia.
  - vm_compute. lia.
  - repeat constructor; simpl; lra.
  - vm_compute. discriminate.
Defined.

(** C3 as stated fails on its last part: with keyframes [0; 6; 12] the
    factor that closes at index 6 carries the samples [0 .. 5]; the boundary
    sample 6 is not among them and is the first sample of the factor for
    the next pair, (6, 12). *)
Lemma C3_boundary_sample_not_in_closing_factor :
  exists g vals p1 p2 smp6,
    assemble (H := Examples.recording) shipped Examples.upright Examples.thirteen
      (Examples.world Absent) = (Returns (g, vals), Examples.world Absent) /\
    imu_factors g = [(pair_keys (0, 6)%nat, p1); (pair_keys (6, 12)%nat, p2)] /\
    samples Examples.thirteen !! 6%nat = Some smp6 /\
    (smp6 ∉ p1.2) /\
    head p2.2 = Some smp6.
Proof.
  destruct (assemble_increasing (H := Examples.recording) shipped Examples.upright
              Examples.thirteen (Examples.world Absent) 0%nat 12%nat [6; 12]%nat)
    as (vals & Hasm);
    [reflexivity | reflexivity | reflexivity | simpl; lia | vm_compute; lia
    | vm_compute; lia | repeat constructor; simpl; lra | vm_compute; discriminate |].
  eexists _, vals, _, _, _. split; [exact Hasm |].
  rewrite imu_factors_with_priors.
  unfold Examples.recording. cbn [resetIntegration Recorder.engine].
  rewrite !motion_factors_cons, !imu_factors_cons.
  rewrite !recorder_integrate_all. cbn [resetIntegration Recorder.engine fst snd].
  rewrite !recorder_integrate_all.
  split; [reflexivity |].
  split; [reflexivity |].
  cbn [snd app]. split.
  - cbv -[INR IZR].
    intros Hin.
    repeat (apply elem_of_cons in Hin as [Heq|Hin]);
      try (by apply elem_of_nil in Hin);
      injection Heq as _ _ Heq; simpl in Heq; lra.
  - reflexivity.
Qed.

(** ** C4: every key has an initial value *)

(** C4, as the code has it.  In the configuration of the source
    ([USE_VISUAL_FACTORS = False]), when every time step is positive and the
    retained keyframe indices are indices of samples of [zip(acc, gyr)], the
    script reaches the optimizer and every key of every factor of the graph
    it hands over has an entry in the initial values. *)
Theorem C4_every_factor_key_has_initial_value {P} (E : Preintegrator P)
    (params : Params) (d : Dataset) (w : World) :
  (2 <= length (keyframes d))%nat ->
  Forall (fun k => (k < imu_count d)%nat) (keyframes d) ->
  (imu_count d <= length (dt d))%nat ->
  Forall (fun x => (0 < x)%R) (dt d) ->
  Z.of_nat (imu_count d) <= indexMask + 1 ->
  exists g vals,
    assemble shipped params d w = (Returns (g, vals), w) /\
    forall f, f ∈ g -> forall k, k ∈ keys f -> is_Some (vals !! k).
Proof.
  intros Hlen Hall Hdt Hpos Hfit.
  destruct (assemble_runs_keys shipped params d w eq_refl Hlen Hall Hdt Hpos Hfit)
    as (g & vals & Hrun & Hkeys & _).
  exists g, vals. split; [exact Hrun |].
  intros f Hf k Hk. unfold keys_have_values in Hkeys.
  rewrite Forall_forall in Hkeys. specialize (Hkeys f Hf).
  rewrite Forall_forall in Hkeys. by apply Hkeys.
Qed.

Lemma C4_every_factor_key_has_initial_value_witness :
  exists g vals,
    assemble (H := Strapdown.engine) shipped Examples.upright Examples.thirteen
      (Examples.world Absent) = (Returns (g, vals), Examples.world Absent) /\
    forall f, f ∈ g -> forall k, k ∈ keys f -> is_Some (vals !! k).
Proof.
  apply (C4_every_factor_key_has_initial_value Strapdown.engine).
  - vm_compute. lia.
  - vm_compute. repeat constructor.
  - vm_compute. lia.
  - repeat constructor; simpl; lra.
  - vm_compute. discriminate.
Defined.

(** C4 as stated fails: with fourteen accelerometer samples, ten gyroscope
    samples and keyframes [0; 6; 12] the loops walk ten samples, the script
    gets to the optimizer, and the graph it hands over holds the priors on
    [x12] and [v12], keys that have no entry in the initial values. *)
Lemma C4_graph_with_keys_without_value :
  exists g vals,
    assemble (H := Strapdown.engine) shipped Examples.upright MoreExamples.gyr_short
      (Examples.world Absent) = (Returns (g, vals), Examples.world Absent) /\
    exists f k, f ∈ g /\ k ∈ keys f /\ vals !! k = None.
Proof.
  destruct (assemble_beyond_stream (H := Strapdown.engine) Examples.upright
              MoreExamples.gyr_short (Examples.world Absent) 12)
    as (g & vals & Hrun & Hx & _ & Hnone & _).
  - vm_compute. lia.
  - repeat constructor; vm_compute; discriminate.
  - vm_compute. lia.
  - repeat constructor; simpl; lra.
  - vm_compute. discriminate.
  - reflexivity.
  - vm_compute. lia.
  - exists g, vals. split; [exact Hrun |].
    eexists _, (key_of "x" 12). split; [exact Hx |]. split; [by left | exact Hnone].
Qed.

(** ** C5: fewer than two keyframes *)

(** C5, as the code has it.  When the decimated keyframe list has fewer than
    two entries, [next] finds no pair: the script stops with
    [StopIteration] before any factor exists, whatever the switches, and the
    world is untouched. *)
Theorem C5_short_keyframe_list_raises_StopIteration {P} (E : Preintegrator P)
    (t : Toggles) (params : Params) (d : Dataset) (w : World) :
  (length (keyframes d) < 2)%nat ->
  assemble t params d w = (Raises StopIteration, w).
Proof.
  intros Hlen. unfold assemble.
  rewrite liftO_bind, add_imu_factors_degenerate by assumption. reflexivity.
Qed.

Lemma C5_short_keyframe_list_raises_StopIteration_witness :
  assemble (H := Strapdown.engine) shipped Examples.upright Examples.single
    (Examples.world Absent) = (Raises StopIteration, Examples.world Absent).
Proof.
  apply (C5_short_keyframe_list_raises_StopIteration Strapdown.engine).
  vm_compute. lia.
Defined.

(** C5 as stated fails: with a single keyframe the exception is
    [StopIteration], not [AlignmentError]. *)
Lemma C5_not_an_AlignmentError :
  (length (keyframes Examples.single) < 2)%nat /\
  (assemble (H := Strapdown.engine) shipped Examples.upright Examples.single
     (Examples.world Absent)).1 <> Raises AlignmentError.
Proof.
  split; [vm_compute; lia |].
  unfold assemble.
  rewrite liftO_bind, add_imu_factors_degenerate by (vm_compute; lia).
  discriminate.
Qed.

(** ** C6: prediction over an empty window *)

(** C6.  For the strapdown engine, [predict] right after [reset], with no
    sample integrated in between, returns the reference state itself,
    whatever the reference state and the bias.  In the script this is what
    happens at sample 0: when the first keyframe is index 0 (and the time
    steps are positive, so that the loops run through), the initial values
    stored under x0 and v0 are the pose and the velocity of the configured
    initial state. *)
Theorem C6_predict_after_reset_is_reference (params : Params) (d : Dataset) (w : World) :
  (2 <= length (keyframes d))%nat ->
  Forall (fun k => (k < imu_count d)%nat) (keyframes d) ->
  (imu_count d <= length (dt d))%nat ->
  Forall (fun x => (0 < x)%R) (dt d) ->
  Z.of_nat (imu_count d) <= indexMask + 1 ->
  head (keyframes d) = Some 0%nat ->
  (forall (p : Strapdown.PIM) (s : NavState) (b : ConstantBias),
     predict (Preintegrator := Strapdown.engine)
       (resetIntegration (Preintegrator := Strapdown.engine) p) s b = s) /\
  exists g vals,
    assemble (H := Strapdown.engine) shipped params d w = (Returns (g, vals), w) /\
    vals !! key_of "x" 0 = Some (VPose3 (pose (initial_state params))) /\
    vals !! key_of "v" 0 = Some (VVector (velocity (initial_state params))).
Proof.
  intros Hlen Hall Hdt Hpos Hfit Hh.
  split; [exact strapdown_predict_after_reset |].
  destruct (assemble_runs (H := Strapdown.engine) shipped params d w eq_refl
              Hlen Hall Hdt Hpos Hfit)
    as (st & s0 & sn & vals & _ & _ & _ & _ & Hrun & _ & Hkf).
  eexists _, vals. split; [exact Hrun |].
  assert (H0 : 0%nat ∈ keyframes d).
  { destruct (keyframes d); [done |]. inversion Hh; subst. by left. }
  specialize (Hkf 0%nat H0). cbn zeta in Hkf.
  rewrite take_0 in Hkf.
  change (integrate_all ?q []) with q in Hkf.
  change (predict ?q ?s ?b) with (Strapdown.predict_state q s b) in Hkf.
  change (resetIntegration ?q) with (Strapdown.reset q) in Hkf.
  rewrite strapdown_predict_after_reset in Hkf. exact Hkf.
Qed.

Lemma C6_predict_after_reset_is_reference_witness :
  (forall (p : Strapdown.PIM) (s : NavState) (b : ConstantBias),
     predict (Preintegrator := Strapdown.engine)
       (resetIntegration (Preintegrator := Strapdown.engine) p) s b = s) /\
  exists g vals,
    assemble (H := Strapdown.engine) shipped Examples.upright Examples.thirteen
      (Examples.world Absent) = (Returns (g, vals), Examples.world Absent) /\
    vals !! key_of "x" 0 = Some (VPose3 (pose (initial_state Examples.upright))) /\
    vals !! key_of "v" 0 = Some (VVector (velocity (initial_state Examples.upright))).
Proof.
  apply (C6_predict_after_reset_is_reference Examples.upright Examples.thirteen
           (Examples.world Absent)).
  - vm_compute. lia.
  - vm_compute. repeat constructor.
  - vm_compute. lia.
  - repeat constructor; simpl; lra.
  - vm_compute. discriminate.
  - reflexivity.
Defined.

(** ** C7: what the script keeps of the optimizer run *)




(** ** C8: the return-to-start priors *)

(** C8, as the code has it.  The pose and velocity priors on the last
    keyframe are added unconditionally: every graph the script assembles,
    under any setting of its two switches, contains both of them. *)
Theorem C8_return_priors_unconditional `{Preintegrator P} (t : Toggles) (params : Params)
    (d : Dataset) (w w' : World) (g : list (Factor P)) (vals : gmap Z Value) :
  assemble t params d w = (Returns (g, vals), w') ->
  exists sn,
    last (keyframes d) = Some sn /\
    PriorFactorPose3 (key_of "x" sn) (pose (initial_state params))
      (initial_pose_covariance params) ∈ g /\
    PriorFactorVector (key_of "v" sn) (velocity (initial_state params))
      (initial_velocity_covariance params) ∈ g.
Proof. apply return_priors_always. Qed.

Lemma C8_return_priors_unconditional_witness :
  exists (g : list (Factor Strapdown.PIM)) (vals : gmap Z Value),
    assemble (H := Strapdown.engine) shipped Examples.upright Examples.thirteen
      (Examples.world Absent) = (Returns (g, vals), Examples.world Absent) /\
    exists sn,
      last (keyframes Examples.thirteen) = Some sn /\
      PriorFactorPose3 (key_of "x" sn) (pose (initial_state Examples.upright))
        (initial_pose_covariance Examples.upright) ∈ g /\
      PriorFactorVector (key_of "v" sn) (velocity (initial_state Examples.upright))
        (initial_velocity_covariance Examples.upright) ∈ g.
Proof.
  destruct assemble_on_thirteen as (g & vals & Hrun).
  exists g, vals. split; [exact Hrun |].
  exact (C8_return_priors_unconditional (H := Strapdown.engine) shipped Examples.upright
           Examples.thirteen _ _ g vals Hrun).
Defined.

(** C8 as stated fails: on the example the shipped configuration yields a
    graph with both return-to-start priors, and no setting of the switches
    (in any state of the cache file and of the random generator) yields a
    graph without them. *)
Lemma C8_no_setting_removes_return_priors :
  (exists g vals w',
     assemble (H := Strapdown.engine) shipped Examples.upright Examples.thirteen
       (Examples.world Absent) = (Returns (g, vals), w') /\
     PriorFactorPose3 (key_of "x" 12) (pose (initial_state Examples.upright))
       (initial_pose_covariance Examples.upright) ∈ g /\
     PriorFactorVector (key_of "v" 12) (velocity (initial_state Examples.upright))
       (initial_velocity_covariance Examples.upright) ∈ g) /\
  ~ (exists t w g vals w',
       assemble (H := Strapdown.engine) t Examples.upright Examples.thirteen w
         = (Returns (g, vals), w') /\
       ~ (PriorFactorPose3 (key_of "x" 12) (pose (initial_state Examples.upright))
            (initial_pose_covariance Examples.upright) ∈ g /\
          PriorFactorVector (key_of "v" 12) (velocity (initial_state Examples.upright))
            (initial_velocity_covariance Examples.upright) ∈ g)).
Proof.
  split.
  - destruct assemble_on_thirteen as (g & vals & Hrun).
    exists g, vals, (Examples.world Absent). split; [exact Hrun |].
    destruct (return_priors_always _ _ _ _ _ _ _ Hrun) as (sn & Hl & Hx & Hv).
    change (last (keyframes Examples.thirteen)) with (Some 12%nat) in Hl.
    inversion Hl; subst sn. by split.
  - intros (t & w & g & vals & w' & Hrun & Hnot). apply Hnot.
    destruct (return_priors_always _ _ _ _ _ _ _ Hrun) as (sn & Hl & Hx & Hv).
    change (last (keyframes Examples.thirteen)) with (Some 12%nat) in Hl.
    inversion Hl; subst sn. by split.
Qed.

(** ** C9: the matching cache *)

(** C9.  With [RECOMPUTE_MATCHING] on, the branch commented "compute matches
    and cache them" opens the cache for reading and loads it: the result is
    what the file held, never what [detect_and_match] returned, and the file
    is not written.  With the switch off, the branch commented "load" opens
    the cache for writing, which empties it, and then fails on the dump
    because [landmarks_to_images] was never assigned. *)
Theorem C9_cache_toggle_inverted (u : bool) (d : Dataset) (video_frame_steps : list nat)
    (w : World) :
  matching_cache (mkToggles u true) d video_frame_steps w =
    match matching_pkl w with
    | Pickled m => (Returns m, log Loaded (log (Opened rb) w))
    | Empty => (Raises EOFError, log (Opened rb) w)
    | Absent => (Raises FileNotFoundError, w)
    end /\
  matching_cache (mkToggles u false) d video_frame_steps w =
    (Raises NameError, log (Opened wb) (set_file Empty w)).
Proof.
  split.
  - unfold matching_cache, open, pickle_load, read_var, mbind, M_bind, mret, M_ret.
    cbn [RECOMPUTE_MATCHING].
    destruct (matching_pkl w) eqn:Hf; cbn [matching_pkl log]; rewrite ?Hf; reflexivity.
  - reflexivity.
Qed.

(** ** C10: determinism of the IMU-only construction *)

(** C10.  With [USE_VISUAL_FACTORS] off, graph and initial values (or the
    exception raised) do not depend on the cache file, on earlier file
    operations or on the random generator, and the run leaves all three as
    they were. *)
Theorem C10_imu_only_assembly_deterministic {P} (E : Preintegrator P)
    (r : bool) (params : Params) (d : Dataset) (w1 w2 : World) :
  (assemble (mkToggles false r) params d w1).1 =
  (assemble (mkToggles false r) params d w2).1 /\
  (assemble (mkToggles false r) params d w1).2 = w1.
Proof.
  rewrite !assemble_without_visual by reflexivity. split; reflexivity.
Qed.

(** * Further properties of the script *)

(** ** Decimation (lines 86-88) *)

(** X1.  The frame positions [range(0, len(steps), 6)] of line 87 and the
    decimated keyframes [steps[::6]] of line 88 go together: both lists have
    the same length, a sixth (rounded up) of the number of keyframes before
    decimation, and the [j]-th frame position is [6 j], the place in
    the full list where the [j]-th retained keyframe index sits. *)
Theorem X1_frame_positions_match_keyframes (d : Dataset) :
  let full := preintegration_steps d in
  let video_frame_steps := range_step (length full) PREINTEGRATE_EVERY_FRAMES in
  length video_frame_steps = length (keyframes d) /\
  length (keyframes d) = ((length full + 5) / 6)%nat /\
  forall j f, video_frame_steps !! j = Some f ->
    f = (j * 6)%nat /\ (f < length full)%nat /\ keyframes d !! j = full !! f.
Proof.
  intros full vfs.
  assert (Hv : forall j, vfs !! j
             = if decide (j * 6 < length full)%nat then Some (j * 6)%nat else None).
  { intros j. apply range_step_lookup. lia. }
  assert (Hsome : forall j, is_Some (keyframes d !! j) <-> (j * 6 < length full)%nat).
  { intros j. rewrite keyframes_lookup. apply lookup_lt_is_Some. }
  split; [| split].
  - apply length_eq_of_lookups. intros j. rewrite Hsome, Hv.
    destruct (decide (j * 6 < length full)%nat); split; intros Hj; done.
  - transitivity (length (seq 0 ((length full + 5) / 6))); [| apply length_seq].
    apply length_eq_of_lookups. intros j. rewrite Hsome, lookup_lt_is_Some, length_seq.
    split; intros Hj.
    + apply (Nat.div_le_lower_bound (length full + 5) 6 (S j)); lia.
    + pose proof (Nat.div_mod_eq (length full + 5) 6).
      pose proof (Nat.mod_upper_bound (length full + 5) 6). lia.
  - intros j f Hf. rewrite Hv in Hf.
    destruct (decide (j * 6 < length full)%nat) as [Hlt|]; [| discriminate].
    inversion Hf; subst f. split; [reflexivity |]. split; [exact Hlt |].
    apply keyframes_lookup.
Qed.

(** ** The first loop (lines 92-119) on any keyframe list *)

(** X2.  The first loop loses no sample and integrates none twice, whatever
    the keyframe list: when it ends, the samples in the measurements of the
    factors it added, factor after factor, followed by the samples in the
    live measurement, are the whole stream in order. *)
Theorem X2_first_loop_conserves_samples {P} (E : Preintegrator P) (d : Dataset)
    (pim : P * list Sample) (st : ImuLoop) :
  add_imu_factors (H := Recorder.engine E) d pim [] = Returns st ->
  length (samples d) = imu_count d /\
  concat (Recorder.records (factor_graph st)) ++ (current_preintegrated_IMU st).2
  = samples d.
Proof.
  unfold add_imu_factors. intros Hrun.
  apply bind_inv in Hrun as ([cur it] & _ & Hrun).
  apply imu_loop_conserves in Hrun as [Hlen Hrun].
  rewrite drop_0 in Hlen, Hrun. split; [exact Hlen |]. exact Hrun.
Qed.

Lemma X2_first_loop_conserves_samples_witness :
  exists st,
    add_imu_factors (H := Examples.recording) MoreExamples.out_of_order
      (create (Preintegrator := Examples.recording)
         (preintegration_params Examples.upright) (IMU_bias Examples.upright)) []
      = Returns st /\
    length (samples MoreExamples.out_of_order) = imu_count MoreExamples.out_of_order /\
    concat (Recorder.records (factor_graph st)) ++ (current_preintegrated_IMU st).2
    = samples MoreExamples.out_of_order.
Proof.
  destruct (add_imu_factors_runs (H := Examples.recording) MoreExamples.out_of_order
              (create (Preintegrator := Examples.recording)
                 (preintegration_params Examples.upright) (IMU_bias Examples.upright))
              [])
    as (st & ext & Hrun & _);
    [vm_compute; lia | vm_compute; repeat constructor | vm_compute; lia
    | repeat constructor; simpl; lra | vm_compute; discriminate |].
  exists st. split; [exact Hrun |].
  exact (X2_first_loop_conserves_samples Strapdown.engine _ _ _ Hrun).
Defined.

(** X3.  Whatever the keyframe list (increasing or not, inside the stream or
    not), the factors the first loop adds are the motion factors of the first
    [n] keyframe pairs, one each and in pair order, for some [n]: no pair is
    skipped and none is closed twice; a pair whose end index the loop never
    meets keeps all later pairs out of the graph. *)
Theorem X3_motion_factors_follow_the_pairs `{Preintegrator P} (d : Dataset) (pim : P)
    (st : ImuLoop) :
  add_imu_factors d pim [] = Returns st ->
  exists n,
    (imu_factors (factor_graph st)).*1 =
    pair_keys <$> take n (zip (removelast (keyframes d)) (tail (keyframes d))).
Proof.
  unfold add_imu_factors. intros Hrun.
  apply bind_inv in Hrun as ([cur it] & Hnext & Hrun).
  apply imu_loop_prefix in Hrun as [n Hn]. exists n.
  rewrite Hn. cbn [factor_graph current_imu_factor_pair imu_factor_pairs].
  destruct (zip _ _) as [|q its]; [discriminate |].
  inversion Hnext; subst. reflexivity.
Qed.

Lemma X3_motion_factors_follow_the_pairs_witness :
  exists st n,
    add_imu_factors (H := Strapdown.engine) MoreExamples.out_of_order
      (create (Preintegrator := Strapdown.engine)
         (preintegration_params Examples.upright) (IMU_bias Examples.upright)) []
      = Returns st /\
    (imu_factors (factor_graph st)).*1 =
    pair_keys <$> take n [(0, 12); (12, 6)]%nat.
Proof.
  destruct (add_imu_factors_runs (H := Strapdown.engine) MoreExamples.out_of_order
              (create (Preintegrator := Strapdown.engine)
                 (preintegration_params Examples.upright) (IMU_bias Examples.upright))
              [])
    as (st & ext & Hrun & _);
    [vm_compute; lia | vm_compute; repeat constructor | vm_compute; lia
    | repeat constructor; simpl; lra | vm_compute; discriminate |].
  destruct (X3_motion_factors_follow_the_pairs (H := Strapdown.engine) _ _ _ Hrun)
    as [n Hn].
  exists st, n. split; [exact Hrun | exact Hn].
Defined.

(** X4.  When [dt] has fewer entries than [zip(acc, gyr)], all of them
    positive, and the keyframe indices fit a key, the script stops in the
    first loop with the [IndexError] of [dt[i]], whatever the switches; no
    graph is returned and the world is untouched. *)
Theorem X4_short_dt_raises_IndexError `{Preintegrator P} (t : Toggles) (params : Params)
    (d : Dataset) (w : World) :
  (length (dt d) < imu_count d)%nat ->
  Forall (fun x => (0 < x)%R) (dt d) ->
  (2 <= length (keyframes d))%nat ->
  Forall (fun k => Z.of_nat k <= indexMask) (keyframes d) ->
  assemble t params d w = (Raises IndexError, w).
Proof.
  intros Hdt Hpos Hlen Hfit. unfold assemble. rewrite liftO_bind.
  unfold add_imu_factors.
  destruct (keyframes d) as [|k0 [|k1 ks]] eqn:Hk; simpl in Hlen; try lia.
  rewrite pairs_cons. cbn [next].
  rewrite bind_Returns, (imu_loop_short (dt d) Hpos); [reflexivity | ..].
  - lia.
  - unfold imu_count in Hdt. simpl. lia.
  - cbn [current_imu_factor_pair imu_factor_pairs]. rewrite <- pairs_cons.
    apply Forall_forall. intros [s e] Hin.
    apply zip_pairs_elem in Hin as [Hs He].
    rewrite Forall_forall in Hfit. split; by apply Hfit.
Qed.

Lemma X4_short_dt_raises_IndexError_witness :
  assemble (H := Strapdown.engine) shipped Examples.upright MoreExamples.short_dt
    (Examples.world Absent) = (Raises IndexError, Examples.world Absent).
Proof.
  apply (X4_short_dt_raises_IndexError (H := Strapdown.engine)).
  - vm_compute. lia.
  - repeat constructor; simpl; lra.
  - vm_compute. lia.
  - repeat constructor; vm_compute; discriminate.
Defined.

(** ** Initial values (lines 179-195) *)

(** X5.  In the IMU-only configuration, with positive time steps, the
    initial guess stored for a keyframe [j] that is a sample index is
    dead-reckoned from the start: it is the state predicted
    from the configured initial state and bias by the engine that was reset
    once, before the second loop, and has since integrated every sample
    [0 .. j-1]; the engine is not reset at keyframes in this loop. *)
Theorem X5_initial_values_are_dead_reckoned `{Preintegrator P} (params : Params)
    (d : Dataset) (w : World) :
  (2 <= length (keyframes d))%nat ->
  Forall (fun k => Z.of_nat k <= indexMask) (keyframes d) ->
  (imu_count d <= length (dt d))%nat ->
  Forall (fun x => (0 < x)%R) (dt d) ->
  Z.of_nat (imu_count d) <= indexMask + 1 ->
  exists st g vals,
    add_imu_factors d (create (preintegration_params params) (IMU_bias params)) []
      = Returns st /\
    assemble shipped params d w = (Returns (g, vals), w) /\
    forall j, j ∈ keyframes d -> (j < imu_count d)%nat ->
      let ns := predict (integrate_all
                           (resetIntegration (current_preintegrated_IMU st))
                           (take j (samples d)))
                  (initial_state params) (IMU_bias params) in
      vals !! key_of "x" j = Some (VPose3 (pose ns)) /\
      vals !! key_of "v" j = Some (VVector (velocity ns)).
Proof.
  intros Hlen Hfit Hdt Hpos Hn.
  destruct (assemble_runs_fitting shipped params d w eq_refl Hlen Hfit Hdt Hpos Hn)
    as (st & s0 & sn & vals & Hrun & _ & _ & Hasm & _ & Hkey & _).
  exists st, (factor_graph st ++ imu_only_priors params s0 sn), vals.
  split; [exact Hrun |]. split; [exact Hasm | exact Hkey].
Qed.

Lemma X5_initial_values_are_dead_reckoned_witness :
  exists st g vals,
    add_imu_factors (H := Strapdown.engine) Examples.thirteen
      (create (Preintegrator := Strapdown.engine)
         (preintegration_params Examples.upright) (IMU_bias Examples.upright)) []
      = Returns st /\
    assemble (H := Strapdown.engine) shipped Examples.upright Examples.thirteen
      (Examples.world Absent) = (Returns (g, vals), Examples.world Absent) /\
    forall j, j ∈ keyframes Examples.thirteen -> (j < imu_count Examples.thirteen)%nat ->
      let ns := predict (Preintegrator := Strapdown.engine)
                  (integrate_all (H := Strapdown.engine)
                     (resetIntegration (Preintegrator := Strapdown.engine)
                        (current_preintegrated_IMU st))
                     (take j (samples Examples.thirteen)))
                  (initial_state Examples.upright) (IMU_bias Examples.upright) in
      vals !! key_of "x" j = Some (VPose3 (pose ns)) /\
      vals !! key_of "v" j = Some (VVector (velocity ns)).
Proof.
  apply (X5_initial_values_are_dead_reckoned (H := Strapdown.engine)).
  - vm_compute. lia.
  - repeat constructor; vm_compute; discriminate.
  - vm_compute. lia.
  - repeat constructor; simpl; lra.
  - vm_compute. discriminate.
Defined.

(** X6.  In the IMU-only configuration, with positive time steps, the
    initial values hold an entry for the bias key, for the pose and velocity
    keys of every retained keyframe that is the index of a sample, and for
    nothing else. *)
Theorem X6_initial_values_hold_exactly_the_keyframe_states `{Preintegrator P}
    (params : Params) (d : Dataset) (w : World) :
  (2 <= length (keyframes d))%nat ->
  Forall (fun k => Z.of_nat k <= indexMask) (keyframes d) ->
  (imu_count d <= length (dt d))%nat ->
  Forall (fun x => (0 < x)%R) (dt d) ->
  Z.of_nat (imu_count d) <= indexMask + 1 ->
  exists g vals,
    assemble shipped params d w = (Returns (g, vals), w) /\
    forall k, is_Some (vals !! k) <->
      k = key_of "b" 0 \/
      exists j, j ∈ keyframes d /\ (j < imu_count d)%nat /\
                (k = key_of "x" j \/ k = key_of "v" j).
Proof.
  intros Hlen Hfit Hdt Hpos Hn.
  destruct (assemble_runs_fitting shipped params d w eq_refl Hlen Hfit Hdt Hpos Hn)
    as (st & s0 & sn & vals & _ & _ & _ & Hasm & Hb & Hkey & Hdom).
  eexists _, vals. split; [exact Hasm |].
  intros k. split; [apply Hdom |].
  intros [->|(j & Hj & Hjn & [->| ->])].
  - by rewrite Hb.
  - destruct (Hkey j Hj Hjn) as [-> _]. eauto.
  - destruct (Hkey j Hj Hjn) as [_ ->]. eauto.
Qed.

Lemma X6_initial_values_hold_exactly_the_keyframe_states_witness :
  exists g vals,
    assemble (H := Strapdown.engine) shipped Examples.upright MoreExamples.beyond
      (Examples.world Absent) = (Returns (g, vals), Examples.world Absent) /\
    forall k, is_Some (vals !! k) <->
      k = key_of "b" 0 \/
      exists j, j ∈ keyframes MoreExamples.beyond /\
                (j < imu_count MoreExamples.beyond)%nat /\
                (k = key_of "x" j \/ k = key_of "v" j).
Proof.
  apply (X6_initial_values_hold_exactly_the_keyframe_states (H := Strapdown.engine)).
  - vm_compute. lia.
  - repeat constructor; vm_compute; discriminate.
  - vm_compute. lia.
  - repeat constructor; simpl; lra.
  - vm_compute. discriminate.
Defined.

(** X7.  When the last retained keyframe index is not the index of a sample
    (it is at or beyond the end of the stream) and the time steps are
    positive, the IMU-only script still assembles graph and initial values,
    and the graph it hands to the optimizer carries the return-to-start
    priors on a pose key and a velocity key that have no initial value. *)
Theorem X7_keyframe_beyond_stream_leaves_orphan_priors `{Preintegrator P}
    (params : Params) (d : Dataset) (w : World) (sn : nat) :
  (2 <= length (keyframes d))%nat ->
  Forall (fun k => Z.of_nat k <= indexMask) (keyframes d) ->
  (imu_count d <= length (dt d))%nat ->
  Forall (fun x => (0 < x)%R) (dt d) ->
  Z.of_nat (imu_count d) <= indexMask + 1 ->
  last (keyframes d) = Some sn ->
  (imu_count d <= sn)%nat ->
  exists g vals,
    assemble shipped params d w = (Returns (g, vals), w) /\
    PriorFactorPose3 (key_of "x" sn) (pose (initial_state params))
      (initial_pose_covariance params) ∈ g /\
    PriorFactorVector (key_of "v" sn) (velocity (initial_state params))
      (initial_velocity_covariance params) ∈ g /\
    vals !! key_of "x" sn = None /\
    vals !! key_of "v" sn = None.
Proof. apply assemble_beyond_stream. Qed.

Lemma X7_keyframe_beyond_stream_leaves_orphan_priors_witness :
  exists g vals,
    assemble (H := Strapdown.engine) shipped Examples.upright MoreExamples.beyond
      (Examples.world Absent) = (Returns (g, vals), Examples.world Absent) /\
    PriorFactorPose3 (key_of "x" 9) (pose (initial_state Examples.upright))
      (initial_pose_covariance Examples.upright) ∈ g /\
    PriorFactorVector (key_of "v" 9) (velocity (initial_state Examples.upright))
      (initial_velocity_covariance Examples.upright) ∈ g /\
    vals !! key_of "x" 9 = None /\
    vals !! key_of "v" 9 = None.
Proof.
  apply (X7_keyframe_beyond_stream_leaves_orphan_priors (H := Strapdown.engine)).
  - vm_compute. lia.
  - repeat constructor; vm_compute; discriminate.
  - vm_compute. lia.
  - repeat constructor; simpl; lra.
  - vm_compute. discriminate.
  - reflexivity.
  - vm_compute. lia.
Defined.


(** ** The visual branches (lines 141-163 and 196-206) *)

(** X8.  With both switches on, positive time steps and a cache file
    holding a matching whose frame positions are positions of keyframes, the
    script assembles graph and initial values.  The run opens the cache for
    reading and loads it, leaves the file as it was, and takes three numbers
    from the random generator per landmark: the initial values hold the
    fixed camera transform under [r0], and landmark [j] starts at the
    [3j]-th, [3j+1]-th and [3j+2]-th number drawn. *)
Theorem X8_visual_run_draws_three_numbers_per_landmark `{Preintegrator P}
    (params : Params) (d : Dataset) (w : World) (lm : Matching) :
  (2 <= length (keyframes d))%nat ->
  Forall (fun k => Z.of_nat k <= indexMask) (keyframes d) ->
  (imu_count d <= length (dt d))%nat ->
  Forall (fun x => (0 < x)%R) (dt d) ->
  Z.of_nat (imu_count d) <= indexMask + 1 ->
  matching_pkl w = Pickled lm ->
  Z.of_nat (length lm) <= indexMask + 1 ->
  Forall (Forall (fun occ : nat * Point2 => (occ.1 < length (keyframes d))%nat)) lm ->
  exists g vals,
    assemble (mkToggles true true) params d w =
      (Returns (g, vals),
       mkWorld (Pickled lm) (io_log w ++ [Opened rb; Loaded]) (entropy w)
         (drawn w + 3 * length lm)) /\
    vals !! key_of "r" 0 =
      Some (VPose3 (mkPose3 (mkRot3 (mkVec3 0 (-1) 0) (mkVec3 (-1) 0 0) (mkVec3 0 0 (-1)))
                      zero3)) /\
    forall j, (j < length lm)%nat ->
      vals !! key_of "m" j =
      Some (VPoint3 (mkVec3 (entropy w (drawn w + 3 * j))
                            (entropy w (drawn w + 3 * j + 1))
                            (entropy w (drawn w + 3 * j + 2)))).
Proof.
  intros Hlen Hfit Hdt Hpos Hn Hfile Hlm Hocc.
  destruct (visual_run params d w lm Hlen Hfit Hdt Hpos Hn Hfile Hlm Hocc)
    as (st & s0 & sn & g1 & ext & vals & _ & _ & _ & _ & _ & Hrun & _ & _ & Hr & Hm & _).
  exists (g1 ++ ext), vals. split; [exact Hrun |]. split; [exact Hr | exact Hm].
Qed.

Lemma X8_visual_run_draws_three_numbers_per_landmark_witness :
  exists g vals,
    assemble (H := Strapdown.engine) (mkToggles true true) Examples.upright
      Examples.thirteen (Examples.world (Pickled MoreExamples.sightings)) =
      (Returns (g, vals),
       mkWorld (Pickled MoreExamples.sightings) [Opened rb; Loaded] (fun n => INR n) 6) /\
    vals !! key_of "r" 0 =
      Some (VPose3 (mkPose3 (mkRot3 (mkVec3 0 (-1) 0) (mkVec3 (-1) 0 0) (mkVec3 0 0 (-1)))
                      zero3)) /\
    forall j, (j < 2)%nat ->
      vals !! key_of "m" j =
      Some (VPoint3 (mkVec3 (INR (0 + 3 * j)) (INR (0 + 3 * j + 1)) (INR (0 + 3 * j + 2)))).
Proof.
  apply (X8_visual_run_draws_three_numbers_per_landmark (H := Strapdown.engine)
           Examples.upright Examples.thirteen
           (Examples.world (Pickled MoreExamples.sightings)) MoreExamples.sightings).
  - vm_compute. lia.
  - repeat constructor; vm_compute; discriminate.
  - vm_compute. lia.
  - repeat constructor; simpl; lra.
  - vm_compute. discriminate.
  - reflexivity.
  - vm_compute. discriminate.
  - repeat constructor.
Defined.

(** X9.  In such a run the projection factors are the last factors of the
    graph and follow the matching occurrence by occurrence, in the order the loops of
    lines 152-153 visit it: the factor of an occurrence carries its pixel
    coordinates, the pose key of the keyframe at its frame position, the
    camera transform key [r0], the key of its landmark and the intrinsics
    of the frame at that position. *)
Theorem X9_one_projection_factor_per_occurrence `{Preintegrator P}
    (params : Params) (d : Dataset) (w : World) (lm : Matching) :
  (2 <= length (keyframes d))%nat ->
  Forall (fun k => Z.of_nat k <= indexMask) (keyframes d) ->
  (imu_count d <= length (dt d))%nat ->
  Forall (fun x => (0 < x)%R) (dt d) ->
  Z.of_nat (imu_count d) <= indexMask + 1 ->
  matching_pkl w = Pickled lm ->
  Z.of_nat (length lm) <= indexMask + 1 ->
  Forall (Forall (fun occ : nat * Point2 => (occ.1 < length (keyframes d))%nat)) lm ->
  exists st g1 ext vals w',
    add_imu_factors d (create (preintegration_params params) (IMU_bias params)) []
      = Returns st /\
    add_priors (mkToggles true true) params (keyframes d) (factor_graph st)
      = Returns g1 /\
    assemble (mkToggles true true) params d w = (Returns (g1 ++ ext, vals), w') /\
    Forall2 (fun jo f => exists s,
               keyframes d !! jo.2.1 = Some s /\
               f = ProjectionFactorPPPCal3DS2 jo.2.2 (Isotropic_Sigma 2 2)
                     (key_of "x" s) (key_of "r" 0) (key_of "m" jo.1)
                     (camera_intrinsics d (jo.2.1 * PREINTEGRATE_EVERY_FRAMES)))
      (occurrences 0 lm) ext.
Proof.
  intros Hlen Hfit Hdt Hpos Hn Hfile Hlm Hocc.
  destruct (visual_run params d w lm Hlen Hfit Hdt Hpos Hn Hfile Hlm Hocc)
    as (st & s0 & sn & g1 & ext & vals & Hst & _ & _ & Hp & _ & Hrun & _ & _ & _ & _
        & _ & _ & _ & Hocc2).
  exists st, g1, ext, vals. eexists.
  split; [exact Hst |]. split; [exact Hp |]. split; [exact Hrun | exact Hocc2].
Qed.

Lemma X9_one_projection_factor_per_occurrence_witness :
  exists st g1 ext vals w',
    add_imu_factors (H := Strapdown.engine) Examples.thirteen
      (create (Preintegrator := Strapdown.engine)
         (preintegration_params Examples.upright) (IMU_bias Examples.upright)) []
      = Returns st /\
    add_priors (mkToggles true true) Examples.upright (keyframes Examples.thirteen)
      (factor_graph st) = Returns g1 /\
    assemble (H := Strapdown.engine) (mkToggles true true) Examples.upright
      Examples.thirteen (Examples.world (Pickled MoreExamples.sightings))
      = (Returns (g1 ++ ext, vals), w') /\
    Forall2 (fun jo f => exists s,
               keyframes Examples.thirteen !! jo.2.1 = Some s /\
               f = ProjectionFactorPPPCal3DS2 jo.2.2 (Isotropic_Sigma 2 2)
                     (key_of "x" s) (key_of "r" 0) (key_of "m" jo.1)
                     (camera_intrinsics Examples.thirteen
                        (jo.2.1 * PREINTEGRATE_EVERY_FRAMES)))
      (occurrences 0 MoreExamples.sightings) ext.
Proof.
  apply (X9_one_projection_factor_per_occurrence (H := Strapdown.engine)
           Examples.upright Examples.thirteen
           (Examples.world (Pickled MoreExamples.sightings)) MoreExamples.sightings).
  - vm_compute. lia.
  - repeat constructor; vm_compute; discriminate.
  - vm_compute. lia.
  - repeat constructor; simpl; lra.
  - vm_compute. discriminate.
  - reflexivity.
  - vm_compute. discriminate.
  - repeat constructor.
Defined.

(** X10.  With the visual factors on, positive time steps, keyframe indices
    that are sample indices and a cached matching with at least one
    landmark, every key of every factor of the graph has an entry in the
    initial values. *)
Theorem X10_visual_keys_have_values `{Preintegrator P}
    (params : Params) (d : Dataset) (w : World) (lm : Matching) :
  (2 <= length (keyframes d))%nat ->
  Forall (fun k => (k < imu_count d)%nat) (keyframes d) ->
  (imu_count d <= length (dt d))%nat ->
  Forall (fun x => (0 < x)%R) (dt d) ->
  Z.of_nat (imu_count d) <= indexMask + 1 ->
  matching_pkl w = Pickled lm ->
  Z.of_nat (length lm) <= indexMask + 1 ->
  Forall (Forall (fun occ : nat * Point2 => (occ.1 < length (keyframes d))%nat)) lm ->
  lm <> [] ->
  exists g vals w',
    assemble (mkToggles true true) params d w = (Returns (g, vals), w') /\
    forall f, f ∈ g -> forall k, k ∈ keys f -> is_Some (vals !! k).
Proof.
  intros Hlen Hall Hdt Hpos Hn Hfile Hlm Hocc Hne.
  assert (Hfit : Forall (fun k => Z.of_nat k <= indexMask) (keyframes d)).
  { eapply Forall_impl; [exact Hall |]. simpl. intros k Hk. lia. }
  destruct (visual_run params d w lm Hlen Hfit Hdt Hpos Hn Hfile Hlm Hocc)
    as (st & s0 & sn & g1 & ext & vals & Hst & Hh & Hl & _ & Hg1 & Hrun & _ & Hshape
        & Hr & Hm & Hb & Hkey & _).
  exists (g1 ++ ext), vals. eexists. split; [exact Hrun |].
  destruct (add_imu_factors_runs d
              (create (preintegration_params params) (IMU_bias params)) []
              Hlen Hall Hdt Hpos Hn) as (st' & mot & Hst' & Hg & Hmot).
  rewrite Hst in Hst'. inversion Hst'; subst st'. simpl in Hg. rewrite <- Hg in Hmot.
  rewrite Forall_forall in Hall.
  assert (Hx : forall j, j ∈ keyframes d -> is_Some (vals !! key_of "x" j)).
  { intros j Hj. destruct (Hkey j Hj (Hall j Hj)) as [-> _]. eauto. }
  assert (Hv : forall j, j ∈ keyframes d -> is_Some (vals !! key_of "v" j)).
  { intros j Hj. destruct (Hkey j Hj (Hall j Hj)) as [_ ->]. eauto. }
  assert (Hm' : forall j, (j < length lm)%nat -> is_Some (vals !! key_of "m" j)).
  { intros j Hj. rewrite (Hm j Hj). eauto. }
  assert (Hm0 : is_Some (vals !! key_of "m" 0)).
  { apply Hm'. destruct lm; [done | simpl; lia]. }
  assert (Hs0 : s0 ∈ keyframes d).
  { destruct (keyframes d); [done |]. inversion Hh; subst. by left. }
  assert (Hsn : sn ∈ keyframes d) by by apply last_Some_elem_of.
  intros f Hf k Hk. apply elem_of_app in Hf as [Hf|Hf].
  - apply Hg1 in Hf as [Hf|[Hf| ->]].
    + rewrite Forall_forall in Hmot.
      destruct (Hmot f Hf) as (s & e & p & Hin & ->).
      apply zip_pairs_elem in Hin as [Hs He]. cbn [keys] in Hk.
      repeat (apply elem_of_cons in Hk as [->|Hk]);
        try (by apply elem_of_nil in Hk); eauto.
    + unfold imu_only_priors in Hf.
      repeat (apply elem_of_cons in Hf as [->|Hf]);
        try (by apply elem_of_nil in Hf);
        cbn [keys] in Hk; apply list_elem_of_singleton in Hk as ->; eauto.
    + cbn [keys] in Hk. apply list_elem_of_singleton in Hk as ->. exact Hm0.
  - rewrite Forall_forall in Hshape.
    destruct (Hshape f Hf) as (px & s & j & K & Hs & Hj & ->). cbn [keys] in Hk.
    repeat (apply elem_of_cons in Hk as [->|Hk]);
      try (by apply elem_of_nil in Hk); eauto.
Qed.

Lemma X10_visual_keys_have_values_witness :
  exists g vals w',
    assemble (H := Strapdown.engine) (mkToggles true true) Examples.upright
      Examples.thirteen (Examples.world (Pickled MoreExamples.sightings))
      = (Returns (g, vals), w') /\
    forall f, f ∈ g -> forall k, k ∈ keys f -> is_Some (vals !! k).
Proof.
  apply (X10_visual_keys_have_values (H := Strapdown.engine)
           Examples.upright Examples.thirteen
           (Examples.world (Pickled MoreExamples.sightings)) MoreExamples.sightings).
  - vm_compute. lia.
  - vm_compute. repeat constructor.
  - vm_compute. lia.
  - repeat constructor; simpl; lra.
  - vm_compute. discriminate.
  - reflexivity.
  - vm_compute. discriminate.
  - repeat constructor.
  - discriminate.
Defined.

(** X13.  With the visual factors on, positive time steps and an empty
    cached matching the script still assembles graph and initial values, but
    the prior on landmark 0 (lines 129-131) is in the graph while [m0] has
    no initial value. *)
Theorem X13_empty_matching_leaves_landmark_prior_without_value `{Preintegrator P}
    (params : Params) (d : Dataset) (w : World) :
  (2 <= length (keyframes d))%nat ->
  Forall (fun k => Z.of_nat k <= indexMask) (keyframes d) ->
  (imu_count d <= length (dt d))%nat ->
  Forall (fun x => (0 < x)%R) (dt d) ->
  Z.of_nat (imu_count d) <= indexMask + 1 ->
  matching_pkl w = Pickled [] ->
  exists g vals w',
    assemble (mkToggles true true) params d w = (Returns (g, vals), w') /\
    PriorFactorPoint3 (key_of "m" 0) (mkVec3 1 0 0) (Isotropic_Sigma 3 (5 / 100)) ∈ g /\
    vals !! key_of "m" 0 = None.
Proof.
  intros Hlen Hfit Hdt Hpos Hn Hfile.
  destruct (visual_run params d w [] Hlen Hfit Hdt Hpos Hn Hfile)
    as (st & s0 & sn & g1 & ext & vals & _ & _ & _ & _ & Hg1 & Hrun & _ & _
        & _ & _ & _ & _ & Hdom & _).
  { simpl. rewrite indexMask_value. lia. }
  { constructor. }
  exists (g1 ++ ext), vals. eexists. split; [exact Hrun |]. split.
  - apply elem_of_app. left. apply Hg1. by right; right.
  - destruct (vals !! key_of "m" 0) as [v|] eqn:Hv; [| reflexivity].
    assert (Hidx0 : (0 : Z) <= indexMask) by (rewrite indexMask_value; lia).
    destruct (Hdom (key_of "m" 0)) as [Hk|[Hk|[(j & _ & Hj & [Hk|Hk])|(j & Hj & _)]]];
      [by eexists | ..]; try (simpl in Hj; lia);
      apply key_of_inj in Hk as [Hc _]; try discriminate; unfold imu_count in *; lia.
Qed.

Lemma X13_empty_matching_leaves_landmark_prior_without_value_witness :
  exists g vals w',
    assemble (H := Strapdown.engine) (mkToggles true true) Examples.upright
      Examples.thirteen (Examples.world (Pickled [])) = (Returns (g, vals), w') /\
    PriorFactorPoint3 (key_of "m" 0) (mkVec3 1 0 0) (Isotropic_Sigma 3 (5 / 100)) ∈ g /\
    vals !! key_of "m" 0 = None.
Proof.
  apply (X13_empty_matching_leaves_landmark_prior_without_value (H := Strapdown.engine)
           Examples.upright Examples.thirteen (Examples.world (Pickled []))).
  - vm_compute. lia.
  - repeat constructor; vm_compute; discriminate.
  - vm_compute. lia.
  - repeat constructor; simpl; lra.
  - vm_compute. discriminate.
  - reflexivity.
Defined.

(** X11.  A run with the visual factors on and [RECOMPUTE_MATCHING] off
    that gets through the first loop (positive time steps, keyframe indices
    fitting a key) destroys the cache: whatever the file held, the run stops
    with
    [NameError] and leaves the file empty, and a following run with
    [RECOMPUTE_MATCHING] on then stops with [EOFError].  On a directory
    without cache file the run with the switch on stops with
    [FileNotFoundError]. *)
Theorem X11_run_with_switch_off_destroys_the_cache `{Preintegrator P}
    (params : Params) (d : Dataset) (w : World) :
  (2 <= length (keyframes d))%nat ->
  Forall (fun k => Z.of_nat k <= indexMask) (keyframes d) ->
  (imu_count d <= length (dt d))%nat ->
  Forall (fun x => (0 < x)%R) (dt d) ->
  let w1 := log (Opened wb) (set_file Empty w) in
  assemble (mkToggles true false) params d w = (Raises NameError, w1) /\
  matching_pkl w1 = Empty /\
  assemble (mkToggles true true) params d w1 = (Raises EOFError, log (Opened rb) w1) /\
  (matching_pkl w = Absent ->
   assemble (mkToggles true true) params d w = (Raises FileNotFoundError, w)).
Proof.
  intros Hlen Hfit Hdt Hpos w1. split; [| split; [reflexivity | split]].
  - by apply visual_run_cache_failure.
  - by apply visual_run_cache_failure.
  - intros Hfile. apply visual_run_cache_failure; try done.
    unfold matching_cache, open, mbind, M_bind. cbn [RECOMPUTE_MATCHING].
    by rewrite Hfile.
Qed.

Lemma X11_run_with_switch_off_destroys_the_cache_witness :
  let w := Examples.world (Pickled MoreExamples.sightings) in
  let w1 := log (Opened wb) (set_file Empty w) in
  assemble (H := Strapdown.engine) (mkToggles true false) Examples.upright
    Examples.thirteen w = (Raises NameError, w1) /\
  matching_pkl w1 = Empty /\
  assemble (H := Strapdown.engine) (mkToggles true true) Examples.upright
    Examples.thirteen w1 = (Raises EOFError, log (Opened rb) w1) /\
  (matching_pkl w = Absent ->
   assemble (H := Strapdown.engine) (mkToggles true true) Examples.upright
     Examples.thirteen w = (Raises FileNotFoundError, w)).
Proof.
  apply (X11_run_with_switch_off_destroys_the_cache (H := Strapdown.engine)
           Examples.upright Examples.thirteen
           (Examples.world (Pickled MoreExamples.sightings))).
  - vm_compute. lia.
  - repeat constructor; vm_compute; discriminate.
  - vm_compute. lia.
  - repeat constructor; simpl; lra.
Defined.

(** X12.  When the time steps are positive and the cached matching lists a
    landmark for a frame position that is not the position of a keyframe of
    this run, the script stops with
    the [IndexError] of [preintegration_steps[image_idx]] (line 157), after
    it has opened and loaded the cache; no graph is handed on. *)
Theorem X12_matching_beyond_the_frames_raises_IndexError `{Preintegrator P}
    (params : Params) (d : Dataset) (w : World) (lm : Matching) :
  (2 <= length (keyframes d))%nat ->
  Forall (fun k => Z.of_nat k <= indexMask) (keyframes d) ->
  (imu_count d <= length (dt d))%nat ->
  Forall (fun x => (0 < x)%R) (dt d) ->
  matching_pkl w = Pickled lm ->
  Z.of_nat (length lm) <= indexMask + 1 ->
  Exists (Exists (fun occ : nat * Point2 => (length (keyframes d) <= occ.1)%nat)) lm ->
  assemble (mkToggles true true) params d w
  = (Raises IndexError, log Loaded (log (Opened rb) w)).
Proof.
  intros Hlen Hfit Hdt Hpos Hfile Hlm Hex.
  destruct (assemble_before_visual (mkToggles true true) params d w Hlen Hfit Hdt Hpos)
    as (st & s0 & sn & g1 & _ & _ & _ & _ & _ & Hasm).
  rewrite Hasm. apply M_bind_Raises.
  unfold add_visual_factors. cbn [USE_VISUAL_FACTORS].
  rewrite (M_bind_Returns _ _ _ _ _ (matching_cache_loads d _ w lm Hfile)).
  rewrite liftO_bind, landmark_loop_bad; [reflexivity | exact Hfit | | exact Hex | simpl; lia].
  apply length_calibration_matrices.
Qed.

Lemma X12_matching_beyond_the_frames_raises_IndexError_witness :
  assemble (H := Strapdown.engine) (mkToggles true true) Examples.upright
    Examples.thirteen (Examples.world (Pickled MoreExamples.stale))
  = (Raises IndexError,
     log Loaded (log (Opened rb) (Examples.world (Pickled MoreExamples.stale)))).
Proof.
  apply (X12_matching_beyond_the_frames_raises_IndexError (H := Strapdown.engine)
           Examples.upright Examples.thirteen
           (Examples.world (Pickled MoreExamples.stale)) MoreExamples.stale).
  - vm_compute. lia.
  - repeat constructor; vm_compute; discriminate.
  - vm_compute. lia.
  - repeat constructor; simpl; lra.
  - reflexivity.
  - vm_compute. discriminate.
  - apply Exists_cons_tl, Exists_cons_hd, Exists_cons_tl, Exists_cons_hd.
    vm_compute. lia.
Defined.

(** ** Time steps that are not positive, and keys without value at the optimizer *)

(** X14.  Whatever the switches, when the time steps before sample [i0] are
    positive and the time step of sample [i0] is not, the script stops in
    the first loop with the [RuntimeError] of [integrateMeasurement] (line
    119): no graph is returned and the world is untouched. *)
Theorem X14_non_positive_dt_raises_RuntimeError `{Preintegrator P} (t : Toggles)
    (params : Params) (d : Dataset) (w : World) (i0 : nat) (x : R) :
  dt d !! i0 = Some x -> (x <= 0)%R ->
  Forall (fun y => (0 < y)%R) (take i0 (dt d)) ->
  (i0 < imu_count d)%nat ->
  (2 <= length (keyframes d))%nat ->
  Forall (fun k => Z.of_nat k <= indexMask) (keyframes d) ->
  assemble t params d w = (Raises RuntimeError, w).
Proof.
  intros Hx Hle Hpos Hi0 Hlen Hfit. unfold assemble. rewrite liftO_bind.
  unfold add_imu_factors.
  destruct (keyframes d) as [|k0 [|k1 ks]] eqn:Hk; simpl in Hlen; try lia.
  rewrite pairs_cons. cbn [next].
  rewrite bind_Returns, (imu_loop_nonpos (dt d) i0 x _ Hx Hle Hpos); [reflexivity | ..].
  - unfold imu_count in Hi0. simpl. lia.
  - cbn [current_imu_factor_pair imu_factor_pairs]. rewrite <- pairs_cons.
    apply Forall_forall. intros [s e] Hin.
    apply zip_pairs_elem in Hin as [Hs He].
    rewrite Forall_forall in Hfit. split; by apply Hfit.
Qed.

Lemma X14_non_positive_dt_raises_RuntimeError_witness :
  assemble (H := Strapdown.engine) shipped Examples.upright MoreExamples.paused
    (Examples.world Absent) = (Raises RuntimeError, Examples.world Absent).
Proof.
  apply (X14_non_positive_dt_raises_RuntimeError (H := Strapdown.engine) shipped
           Examples.upright MoreExamples.paused (Examples.world Absent) 3 0%R).
  - reflexivity.
  - lra.
  - repeat constructor; simpl; lra.
  - vm_compute. lia.
  - vm_compute. lia.
  - repeat constructor; vm_compute; discriminate.
Defined.

(** X15.  In the IMU-only configuration, when the last retained keyframe
    index is at or beyond the end of the stream, the script stops when it
    builds the optimizer (line 213), which finds the return-to-start priors
    on keys without initial value: nothing is optimized or plotted, and the
    world is untouched. *)
Theorem X15_orphan_priors_stop_the_script_at_the_optimizer `{Preintegrator P} `{Solver P}
    (params : Params) (library_defaults : GaussNewtonParams) (d : Dataset) (w : World)
    (sn : nat) :
  (2 <= length (keyframes d))%nat ->
  Forall (fun k => Z.of_nat k <= indexMask) (keyframes d) ->
  (imu_count d <= length (dt d))%nat ->
  Forall (fun x => (0 < x)%R) (dt d) ->
  Z.of_nat (imu_count d) <= indexMask + 1 ->
  last (keyframes d) = Some sn ->
  (imu_count d <= sn)%nat ->
  exists g vals,
    assemble shipped params d w = (Returns (g, vals), w) /\
    GaussNewtonOptimizer g vals (setVerbosity ERROR library_defaults)
      = Raises RuntimeError /\
    main shipped params library_defaults d w = (Raises RuntimeError, w).
Proof.
  intros Hlen Hfit Hdt Hpos Hn Hl Hsn.
  destruct (assemble_beyond_stream params d w sn Hlen Hfit Hdt Hpos Hn Hl Hsn)
    as (g & vals & Hasm & Hx & _ & Hnone & _).
  exists g, vals. split; [exact Hasm |]. split.
  - apply (GaussNewtonOptimizer_rejects g vals _ _ (key_of "x" sn) Hx);
      [by left | exact Hnone].
  - by eapply main_beyond_stream.
Qed.

Lemma X15_orphan_priors_stop_the_script_at_the_optimizer_witness :
  exists g vals,
    assemble (H := Strapdown.engine) shipped Examples.upright MoreExamples.gyr_short
      (Examples.world Absent) = (Returns (g, vals), Examples.world Absent) /\
    GaussNewtonOptimizer g vals (setVerbosity ERROR (mkGaussNewtonParams 3 SILENT))
      = Raises RuntimeError /\
    main (H := Strapdown.engine) (H0 := Examples.stalled) shipped Examples.upright
      (mkGaussNewtonParams 3 SILENT) MoreExamples.gyr_short (Examples.world Absent)
    = (Raises RuntimeError, Examples.world Absent).
Proof.
  apply (X15_orphan_priors_stop_the_script_at_the_optimizer (H := Strapdown.engine)
           (H0 := Examples.stalled) Examples.upright (mkGaussNewtonParams 3 SILENT)
           MoreExamples.gyr_short (Examples.world Absent) 12).
  - vm_compute. lia.
  - repeat constructor; vm_compute; discriminate.
  - vm_compute. lia.
  - repeat constructor; simpl; lra.
  - vm_compute. discriminate.
  - reflexivity.
  - vm_compute. lia.
Defined.
